(** * sim-ecs: the world, its entity queries, system registration, dependency
      sort and dispatch loop

    A shallow embedding of [World] (world.ts) and of [WorldBuilder.withSystem]
    (world-builder.ts), followed by the properties of the query matcher, the
    registration guard, the topological sorter, the batch scheduler and the
    run/stop protocol. *)

From stdpp Require Import base list strings gmap relations.

Local Open Scope Z_scope.
Local Open Scope nat_scope.

(** ** Identities

    Class constructors and object references are compared by identity in the
    source ([===], [Array.prototype.includes], [Map] keys).  A constructor is
    a token together with its [name]; an object is its reference. *)

Definition TComponentProto := nat.

Record TSystemProto := { proto_id : nat; name : string }.

#[global] Instance TSystemProto_eq_dec : EqDecision TSystemProto.
Proof. solve_decision. Defined.

(** A system instance: its own reference and the class it was built from
    ([system.constructor]). *)
Record ISystem := { sys_ref : nat; constructor : TSystemProto }.

#[global] Instance ISystem_eq_dec : EqDecision ISystem.
Proof. solve_decision. Defined.

(** [TSystemNode = { system, dependencies: TSystemProto[] }] *)
Record TSystemNode := { system : ISystem; dependencies : list TSystemProto }.

#[global] Instance TSystemNode_eq_dec : EqDecision TSystemNode.
Proof. solve_decision. Defined.

(** An entity is handled by reference. *)
Definition IEntity := nat.

(** [State]: the systems a state activates. *)
Record IState := { systems : list ISystem }.

(** The errors the modelled methods throw, one constructor per [throw] of the
    source; [TypeError] is what the runtime raises for a method call on
    [undefined]. *)
Inductive Error :=
| SystemAlreadyAdded (n : string)     (* The system "n" was already added to the world! *)
| SystemAlreadyRegistered (n : string)(* The system n is already registered! *)
| DependencyGraphCyclic               (* The system dependency graph is cyclic! *)
| SystemNotRegistered (n : string)    (* The system n was not registered! *)
| DispatchLoopAlreadyRunning          (* The dispatch loop is already running! *)
| TypeError.

Inductive Result (A : Type) :=
| Ok (a : A)
| Throw (e : Error).
Arguments Ok {A} a.
Arguments Throw {A} e.

(** ** Arrays and insertion-ordered maps, as the source uses them *)

Module JS.
Section Arrays.
Context {A : Type} `{EqDecision A}.

(** [Array.prototype.includes] *)
Definition includes (x : A) (l : list A) : bool := bool_decide (x ∈ l).

(** [Array.prototype.indexOf]: the first index, or -1. *)
Definition indexOf (x : A) (l : list A) : Z :=
  match list_find (λ y, y = x) l with
  | Some (i, _) => Z.of_nat i
  | None => (-1)%Z
  end.

(** [arr.splice(start, 1)]: a negative [start] counts from the end and is
    clamped at 0, a [start] beyond the end removes nothing. *)
Definition splice1 (start : Z) (l : list A) : list A :=
  let len := Z.of_nat (length l) in
  let i := if (start <? 0)%Z then Z.max (len + start) 0 else Z.min start len in
  delete (Z.to_nat i) l.

(** [Array.prototype.find] with the predicate as a boolean function. *)
Definition find (p : A → bool) (l : list A) : option A := List.find p l.
End Arrays.

(** [Map]: keys are compared by identity, iteration follows first insertion,
    [set] on a present key replaces the value in place. *)
Abbreviation Map K V := (list (K * V)) (only parsing).

Section Maps.
Context {K V : Type} `{EqDecision K}.

Fixpoint get (k : K) (m : Map K V) : option V :=
  match m with
  | [] => None
  | (k', v) :: m' => if decide (k' = k) then Some v else get k m'
  end.

Fixpoint set (k : K) (v : V) (m : Map K V) : Map K V :=
  match m with
  | [] => [(k, v)]
  | (k', v') :: m' =>
      if decide (k' = k) then (k', v) :: m' else (k', v') :: set k v m'
  end.

(** [new Map(entries)] *)
Definition new_Map (entries : list (K * V)) : Map K V :=
  foldl (λ m e, set e.1 e.2 m) [] entries.

Definition keys (m : Map K V) : list K := m.*1.
Definition values (m : Map K V) : list V := m.*2.
End Maps.
End JS.

(** ** Entities and queries *)

(** What [World] asks of an entity ([IEntity], entity.spec): the entity
    classes are not part of the modelled files, so their methods are an
    interface over a store of entity objects. *)
Class EntityStore (Store : Type) := {
  hasComponent : Store → IEntity → TComponentProto → bool;
  setWorld : IEntity → Store → Store;
  _updateSystems : IEntity → Store → Store;
  _updateSystem : IEntity → ISystem → Store → Store;
}.

(** Modelled from the spec: the entity class is missing from the sources; the
    spec gives an entity as an identity plus a mapping from component type to
    component instance, at most one per type.  Only the set of attached types
    is kept; the bookkeeping calls leave it alone. *)
Definition Components := IEntity → gset TComponentProto.

#[global] Instance Components_store : EntityStore Components := {|
  hasComponent st e c := bool_decide (c ∈ st e);
  setWorld _ st := st;
  _updateSystems _ st := st;
  _updateSystem _ _ st := st;
|}.

(** An element of [runSystems]: [{ system, hasDependencies }]. *)
Record RunSystem := { run_system : ISystem; hasDependencies : bool }.

(** The world's fields (the resource map plays no part below and is left
    out).  [runPromise] records whether the promise of a running dispatch
    loop is set. *)
Record World := {
  defaultState : IState;
  entities : list IEntity;
  lastDispatch : Z;
  runPromise : bool;
  runState : option IState;
  runSystems : list RunSystem;
  shouldRunSystems : bool;
  sortedSystems : list TSystemNode;
}.

Definition set_entities (w : World) (es : list IEntity) : World :=
  {| defaultState := defaultState w; entities := es;
     lastDispatch := lastDispatch w; runPromise := runPromise w;
     runState := runState w; runSystems := runSystems w;
     shouldRunSystems := shouldRunSystems w;
     sortedSystems := sortedSystems w |}.

Section Query.
(** [EComponentRequirement] (system.spec) is not among the modelled files:
    the requirement type is a parameter, and [UNSET] is the one member
    the world refers to. *)
Context {Req : Type} (UNSET : Req) `{EqDecision Req}.
Context {Store : Type} `{EntityStore Store}.

Definition TComponentQuery := list (TComponentProto * Req).

(** The inner loop of [getEntities]: [true] when some requirement takes
    the [continue entityLoop] branch. *)
Fixpoint skipsEntity (st : Store) (entity : IEntity)
    (withComponents : TComponentQuery) : bool :=
  match withComponents with
  | [] => false
  | componentRequirement :: rest =>
      if (hasComponent st entity componentRequirement.1
            && bool_decide (componentRequirement.2 = UNSET))
         || (negb (hasComponent st entity componentRequirement.1)
            && negb (bool_decide (componentRequirement.2 = UNSET)))
      then true
      else skipsEntity st entity rest
  end.

(** The outer loop, with [resultEntities] as accumulator. *)
Fixpoint entityLoop (st : Store) (es : list IEntity)
    (withComponents : TComponentQuery)
    (resultEntities : list IEntity) : list IEntity :=
  match es with
  | [] => resultEntities
  | entity :: rest =>
      if skipsEntity st entity withComponents
      then entityLoop st rest withComponents resultEntities
      else entityLoop st rest withComponents (resultEntities ++ [entity])
  end.

(** [getEntities(withComponents?)]: without a query the entity array
    itself is returned. *)
Definition getEntities (st : Store) (w : World)
    (withComponents : option TComponentQuery) : list IEntity :=
  match withComponents with
  | None => entities w
  | Some q => entityLoop st (entities w) q []
  end.

(** A requirement pair as the source decides it: [UNSET] asks for the
    component to be missing, every other requirement asks for it. *)
Definition satisfies (st : Store) (e : IEntity)
    (p : TComponentProto * Req) : Prop :=
  if decide (p.2 = UNSET) then hasComponent st e p.1 = false
  else hasComponent st e p.1 = true.

Definition matches (st : Store) (e : IEntity) (q : TComponentQuery) : Prop :=
  Forall (satisfies st e) q.

#[global] Instance satisfies_dec st e p : Decision (satisfies st e p).
Proof. unfold satisfies. destruct (decide (p.2 = UNSET)); apply _. Defined.

#[global] Instance matches_dec st e q : Decision (matches st e q).
Proof. unfold matches. apply _. Defined.

(** [addEntity(entity)] *)
Definition addEntity (entity : IEntity) (s : World * Store) : World * Store :=
  let '(w, st) := s in
  if negb (JS.includes entity (entities w))
  then (set_entities w (entities w ++ [entity]), setWorld entity st)
  else (w, st).
End Query.

(** ** Field updates of the world *)

Definition set_sortedSystems (w : World) (ns : list TSystemNode) : World :=
  {| defaultState := defaultState w; entities := entities w;
     lastDispatch := lastDispatch w; runPromise := runPromise w;
     runState := runState w; runSystems := runSystems w;
     shouldRunSystems := shouldRunSystems w;
     sortedSystems := ns |}.

Definition set_defaultState (w : World) (s : IState) : World :=
  {| defaultState := s; entities := entities w;
     lastDispatch := lastDispatch w; runPromise := runPromise w;
     runState := runState w; runSystems := runSystems w;
     shouldRunSystems := shouldRunSystems w;
     sortedSystems := sortedSystems w |}.

Definition set_runState (w : World) (s : option IState) : World :=
  {| defaultState := defaultState w; entities := entities w;
     lastDispatch := lastDispatch w; runPromise := runPromise w;
     runState := s; runSystems := runSystems w;
     shouldRunSystems := shouldRunSystems w;
     sortedSystems := sortedSystems w |}.

Definition set_runSystems (w : World) (rs : list RunSystem) : World :=
  {| defaultState := defaultState w; entities := entities w;
     lastDispatch := lastDispatch w; runPromise := runPromise w;
     runState := runState w; runSystems := rs;
     shouldRunSystems := shouldRunSystems w;
     sortedSystems := sortedSystems w |}.

Definition set_runPromise (w : World) (p : bool) : World :=
  {| defaultState := defaultState w; entities := entities w;
     lastDispatch := lastDispatch w; runPromise := p;
     runState := runState w; runSystems := runSystems w;
     shouldRunSystems := shouldRunSystems w;
     sortedSystems := sortedSystems w |}.

Definition set_shouldRunSystems (w : World) (b : bool) : World :=
  {| defaultState := defaultState w; entities := entities w;
     lastDispatch := lastDispatch w; runPromise := runPromise w;
     runState := runState w; runSystems := runSystems w;
     shouldRunSystems := b;
     sortedSystems := sortedSystems w |}.

Definition set_lastDispatch (w : World) (t : Z) : World :=
  {| defaultState := defaultState w; entities := entities w;
     lastDispatch := t; runPromise := runPromise w;
     runState := runState w; runSystems := runSystems w;
     shouldRunSystems := shouldRunSystems w;
     sortedSystems := sortedSystems w |}.

(** The world as its constructor leaves it. *)
Definition new_World : World :=
  {| defaultState := {| systems := [] |}; entities := [];
     lastDispatch := 0; runPromise := false; runState := None;
     runSystems := []; shouldRunSystems := false; sortedSystems := [] |}.

(** ** Registration *)

(** [registerSystemQuick(system, dependencies?)]: the outcome together with
    the world as the call leaves it. *)
Definition registerSystemQuick (sys : ISystem)
    (deps : option (list TSystemProto)) (w : World) : Result () * World :=
  match JS.find (λ node, bool_decide (constructor (system node) = constructor sys))
                (sortedSystems w) with
  | Some _ => (Throw (SystemAlreadyAdded (name (constructor sys))), w)
  | None =>
      let w1 := set_defaultState w
                  {| systems := systems (defaultState w) ++ [sys] |} in
      (Ok (), set_sortedSystems w1
                (sortedSystems w1
                   ++ [{| system := sys; dependencies := default [] deps |}]))
  end.

(** [new Set(iterable)]: the values are added one after the other, each
    where it comes first. *)
Definition set_add {A} `{EqDecision A} (s : list A) (x : A) : list A :=
  if decide (x ∈ s) then s else s ++ [x].

Definition new_Set {A} `{EqDecision A} (iterable : list A) : list A :=
  foldl set_add [] iterable.

(** [WorldBuilder]: only [systemInfos] matters to [withSystem]; of
    [TSystemInfo] the data prototype is left out and [dataSet] starts
    empty. *)
Record TSystemInfo := {
  info_dataSet : list nat;
  info_dependencies : list TSystemProto;   (* new Set(dependencies) *)
  info_system : ISystem;
}.

Record WorldBuilder := { systemInfos : JS.Map ISystem TSystemInfo }.

(** [withSystem(system, dependencies?)] *)
Definition withSystem (sys : ISystem) (deps : option (list TSystemProto))
    (b : WorldBuilder) : Result () * WorldBuilder :=
  match JS.find (λ info, bool_decide (constructor (info_system info) = constructor sys))
                (JS.values (systemInfos b)) with
  | Some _ => (Throw (SystemAlreadyRegistered (name (constructor sys))), b)
  | None =>
      (Ok (), {| systemInfos :=
                   JS.set sys {| info_dataSet := [];
                                 info_dependencies := new_Set (default [] deps);
                                 info_system := sys |}
                          (systemInfos b) |})
  end.

(** ** The topological sorter *)

Abbreviation Graph := (JS.Map TSystemProto (list TSystemProto)) (only parsing).

(** [new Map(unsorted.map(node => [node.system.constructor,
    Array.from(node.dependencies)]))] *)
Definition graph_of (unsorted : list TSystemNode) : Graph :=
  JS.new_Map ((λ node, (constructor (system node), dependencies node)) <$> unsorted).

(** The nodes [m] with an edge from [n], taken before the loop body runs. *)
Definition dependents (n : TSystemProto) (graph : Graph) : list TSystemProto :=
  (filter (λ pair, JS.includes n pair.2 = true) graph).*1.

(** The [for (let m of ...)] loop of one round: [edges] is the array stored
    in the map, so the splice is seen by the map. *)
Fixpoint removeEdges (n : TSystemProto) (ms : list TSystemProto)
    (graph : Graph) (S : list TSystemProto)
    : Result (Graph * list TSystemProto) :=
  match ms with
  | [] => Ok (graph, S)
  | m :: ms' =>
      match JS.get m graph with
      | None => Throw TypeError
      | Some edges =>
          let edges' := JS.splice1 (JS.indexOf n edges) edges in
          let graph' := JS.set m edges' graph in
          removeEdges n ms' graph'
            (if decide (length edges' ≤ 0) then S ++ [m] else S)
      end
  end.

(** [while (S.length > 0)], bounded by [fuel] rounds; [None] when the bound
    is hit with [S] still not empty. *)
Fixpoint sortLoop (fuel : nat) (graph : Graph) (S L : list TSystemProto)
    : option (Result (Graph * list TSystemProto)) :=
  match S with
  | [] => Some (Ok (graph, L))
  | n :: S1 =>
      match fuel with
      | O => None
      | Datatypes.S fuel' =>
          match removeEdges n (dependents n graph) graph S1 with
          | Throw e => Some (Throw e)
          | Ok (graph', S') => sortLoop fuel' graph' S' (L ++ [n])
          end
      end
  end.

(** [L.map(t => ...)]: look each sorted constructor up again. *)
Fixpoint lookupNodes (unsorted : list TSystemNode) (L : list TSystemProto)
    : Result (list TSystemNode) :=
  match L with
  | [] => Ok []
  | t :: L' =>
      match JS.find (λ n, bool_decide (constructor (system n) = t)) unsorted with
      | None => Throw (SystemNotRegistered (name t))
      | Some obj =>
          match lookupNodes unsorted L' with
          | Throw e => Throw e
          | Ok objs => Ok (obj :: objs)
          end
      end
  end.

Definition edge_count (graph : Graph) : nat :=
  sum_list (length <$> JS.values graph).

(** Every round takes one node off [S] and puts a node on it only after
    removing an edge, so this many rounds are enough
    (see [sortSystems_terminates]). *)
Definition sort_fuel (graph : Graph) (S : list TSystemProto) : nat :=
  length S + edge_count graph.

(** [sortSystems(unsorted)] *)
Definition sortSystems (unsorted : list TSystemNode)
    : option (Result (list TSystemNode)) :=
  let graph := graph_of unsorted in
  let S := (filter (λ pair, length pair.2 = 0) graph).*1 in
  match sortLoop (sort_fuel graph S) graph S [] with
  | None => None
  | Some (Throw e) => Some (Throw e)
  | Some (Ok (graph', L)) =>
      match list_find (λ n, 0 < length n) (JS.values graph') with
      | Some _ => Some (Throw DependencyGraphCyclic)
      | None => Some (lookupNodes unsorted L)
      end
  end.

Section Maintenance.
Context {Store : Type} `{EntityStore Store}.

(** [maintain()] *)
Definition maintain (s : World * Store)
    : option (Result () * (World * Store)) :=
  let '(w, st) := s in
  r ← sortSystems (sortedSystems w);
  Some match r with
       | Throw e => (Throw e, (w, st))
       | Ok sorted =>
           (Ok (), (set_sortedSystems w sorted,
                    foldl (λ st entity, _updateSystems entity st) st (entities w)))
       end.

(** [registerSystem(system, dependencies?)] *)
Definition registerSystem (sys : ISystem) (deps : option (list TSystemProto))
    (s : World * Store) : option (Result () * (World * Store)) :=
  let '(w, st) := s in
  match registerSystemQuick sys deps w with
  | (Throw e, w') => Some (Throw e, (w', st))
  | (Ok _, w') =>
      let st' := foldl (λ st entity, _updateSystem entity sys st) st (entities w') in
      r ← sortSystems (sortedSystems w');
      Some match r with
           | Throw e => (Throw e, (w', st'))
           | Ok sorted => (Ok (), (set_sortedSystems w' sorted, st'))
           end
  end.
End Maintenance.

(** ** State changes and the batch scheduler *)

(** The synchronous part of [changeRunningState(newState)], between the
    [deactivate] and [activate] hooks of the states (state.ts is not among
    the modelled files; the hooks are taken not to touch the world).
    [this.sortedSystems.reverse()] reverses the stored array itself. *)
Definition collectRunSystem (newState : IState)
    (acc : list RunSystem * list string) (node : TSystemNode)
    : list RunSystem * list string :=
  let '(rs, dependencySystems) := acc in
  let stateSystem :=
    if JS.includes (name (constructor (system node))) dependencySystems
    then Some (system node)
    else JS.find (λ stateSys, bool_decide (name (constructor stateSys)
                                           = name (constructor (system node))))
                 (systems newState) in
  match stateSystem with
  | Some sys =>
      (rs ++ [{| run_system := sys;
                 hasDependencies := bool_decide (0 < length (dependencies node)) |}],
       foldl (λ ds dependency,
                if negb (JS.includes (name dependency) ds)
                then ds ++ [name dependency] else ds)
             dependencySystems (dependencies node))
  | None => acc
  end.

Definition changeRunningState (newState : IState) (w : World) : World :=
  let w1 := set_runSystems (set_runState w (Some newState)) [] in
  let w2 := set_sortedSystems w1 (reverse (sortedSystems w1)) in
  let '(rs, _) := foldl (collectRunSystem newState) (runSystems w2, [])
                        (sortedSystems w2) in
  set_runSystems w2 (reverse rs).

(** An array that may have holes: writing past the end extends it. *)
Definition assign {A} (i : nat) (x : A) (arr : list (option A)) : list (option A) :=
  if decide (i < length arr) then <[i := Some x]> arr
  else arr ++ replicate (i - length arr) None ++ [Some x].

(** [arr[i].push(x)]; [TypeError] on a hole. *)
Definition pushAt {A} (i : nat) (x : A) (arr : list (option (list A)))
    : Result (list (option (list A))) :=
  match arr !! i with
  | Some (Some group) => Ok (<[i := Some (group ++ [x])]> arr)
  | _ => Throw TypeError
  end.

(** One round of the first loop of [getScheduledRunSystems], on
    [(depScheduler, step)]. *)
Definition depStep (acc : list (option (list ISystem)) * nat) (sys : RunSystem)
    : Result (list (option (list ISystem)) * nat) :=
  let '(depScheduler, step) := acc in
  if hasDependencies sys then
    match depScheduler !! step with
    | Some (Some group) =>
        let '(depScheduler1, step1) :=
          if decide (0 < length group)
          then (assign (step + 1) [] depScheduler, step + 1)
          else (depScheduler, step) in
        match pushAt step1 (run_system sys) depScheduler1 with
        | Throw e => Throw e
        | Ok depScheduler2 => Ok (assign (step1 + 1) [] depScheduler2, step1 + 1)
        end
    | _ => Throw TypeError
    end
  else
    match pushAt step (run_system sys) depScheduler with
    | Throw e => Throw e
    | Ok depScheduler1 => Ok (depScheduler1, step)
    end.

Fixpoint depLoop (acc : list (option (list ISystem)) * nat)
    (rs : list RunSystem) : Result (list (option (list ISystem)) * nat) :=
  match rs with
  | [] => Ok acc
  | sys :: rs' =>
      match depStep acc sys with
      | Throw e => Throw e
      | Ok acc' => depLoop acc' rs'
      end
  end.

(** The groups by dependency, [depScheduler], as the first loop leaves
    them. *)
Definition depScheduler (w : World) : Result (list (option (list ISystem))) :=
  match depLoop ([Some []], 0) (runSystems w) with
  | Throw e => Throw e
  | Ok (groups, _) => Ok groups
  end.

(** [getScheduledRunSystems()]: the second loop has an empty body, and the
    array returned is [compScheduler], which nothing is pushed to. *)
Definition getScheduledRunSystems (w : World) : Result (list (list ISystem)) :=
  let compScheduler : list (list ISystem) := [] in
  match depScheduler w with
  | Throw e => Throw e
  | Ok groups =>
      let compScheduler := foldl (λ comp group, comp) compScheduler groups in
      Ok compScheduler
  end.

(** [dispatch(state?)] at clock reading [currentTime], run to its end: the
    groups whose systems had [update] called, in order, and the world. *)
Definition dispatch (currentTime : Z) (state : option IState) (w : World)
    : Result (list (list ISystem)) * World :=
  let state := default (defaultState w) state in
  let w1 := changeRunningState state w in
  let w2 := if decide (lastDispatch w1 = 0%Z)
            then set_lastDispatch w1 currentTime else w1 in
  match getScheduledRunSystems w2 with
  | Throw e => (Throw e, w2)
  | Ok scheduledSystems => (Ok scheduledSystems, set_lastDispatch w2 currentTime)
  end.

(** ** The dispatch loop

    [run] is asynchronous: it runs up to an [await], and what follows runs
    when it is resumed; [stopRun] and further [run] calls may come in
    between.  A task is a suspended continuation of [run]. *)

Record TRunConfiguration := { initialState : option IState; preFrameHandler : bool }.

Inductive Task :=
| AwaitDeactivate (initial : IState) (pre : bool)
    (* in changeRunningState, at the deactivate hook of the old state *)
| AwaitActivate (pre : bool)
    (* in changeRunningState, at the activate hook; run continues after it *)
| QueuedMainLoop (pre : bool) (scheduledSystems : list (list ISystem))
    (* execAsync(mainLoop) *)
| AwaitPreFrame (scheduledSystems : list (list ISystem)) (currentTime deltaTime : Z)
| AwaitGroup (pre : bool) (scheduledSystems pending : list (list ISystem))
    (currentTime deltaTime : Z)
    (* at Promise.all inside the for loop; pending: the groups not started *)
| AwaitFrameEnd (pre : bool) (scheduledSystems : list (list ISystem)) (currentTime : Z).
    (* at the Promise.all after the for loop *)

Record Dispatcher := {
  world : World;
  tasks : list Task;
  updates : list (ISystem * Z);   (* the update calls made: system, deltaTime *)
}.

(** The for loop of [mainLoop] from its next group up to the next await. *)
Definition startGroups (pre : bool) (scheduledSystems pending : list (list ISystem))
    (currentTime deltaTime : Z) : list (ISystem * Z) * Task :=
  match pending with
  | systems_ :: rest =>
      ((λ parallelSystem, (parallelSystem, deltaTime)) <$> systems_,
       AwaitGroup pre scheduledSystems rest currentTime deltaTime)
  | [] => ([], AwaitFrameEnd pre scheduledSystems currentTime)
  end.

(** [run(configuration?)] up to its first await. *)
Definition run (configuration : option TRunConfiguration) (d : Dispatcher)
    : Result () * Dispatcher :=
  let w := world d in
  if runPromise w then (Throw DispatchLoopAlreadyRunning, d)
  else
    let configuration :=
      default {| initialState := None; preFrameHandler := false |} configuration in
    let initial := default (defaultState w) (initialState configuration) in
    match runState w with
    | Some _ =>
        (Ok (), {| world := w;
                   tasks := tasks d ++ [AwaitDeactivate initial (preFrameHandler configuration)];
                   updates := updates d |})
    | None =>
        (Ok (), {| world := changeRunningState initial w;
                   tasks := tasks d ++ [AwaitActivate (preFrameHandler configuration)];
                   updates := updates d |})
    end.

(** [stopRun()] up to its await of the run promise. *)
Definition stopRun (d : Dispatcher) : Dispatcher :=
  {| world := set_shouldRunSystems (world d) false;
     tasks := tasks d; updates := updates d |}.

(** Resuming a task at clock reading [now]: the new world, the update calls
    made, and the task it becomes ([None] when it has ended). *)
Definition resumeTask (now : Z) (t : Task) (w : World)
    : World * list (ISystem * Z) * option Task :=
  match t with
  | AwaitDeactivate initial pre =>
      (changeRunningState initial w, [], Some (AwaitActivate pre))
  | AwaitActivate pre =>
      let w1 := set_shouldRunSystems (set_runPromise w true) true in
      let w2 := if decide (lastDispatch w1 ≤ 0)%Z
                then set_lastDispatch w1 now else w1 in
      match getScheduledRunSystems w2 with
      | Throw _ => (w2, [], None)
      | Ok scheduledSystems => (w2, [], Some (QueuedMainLoop pre scheduledSystems))
      end
  | QueuedMainLoop pre scheduledSystems =>
      let currentTime := now in
      let deltaTime := (currentTime - lastDispatch w)%Z in
      if negb (shouldRunSystems w) then (set_runPromise w false, [], None)
      else if pre
           then (w, [], Some (AwaitPreFrame scheduledSystems currentTime deltaTime))
           else let '(us, t') := startGroups pre scheduledSystems scheduledSystems
                                   currentTime deltaTime in
                (w, us, Some t')
  | AwaitPreFrame scheduledSystems currentTime deltaTime =>
      let '(us, t') := startGroups true scheduledSystems scheduledSystems
                         currentTime deltaTime in
      (w, us, Some t')
  | AwaitGroup pre scheduledSystems pending currentTime deltaTime =>
      let '(us, t') := startGroups pre scheduledSystems pending
                         currentTime deltaTime in
      (w, us, Some t')
  | AwaitFrameEnd pre scheduledSystems currentTime =>
      (set_lastDispatch w currentTime, [], Some (QueuedMainLoop pre scheduledSystems))
  end.

(** What the callers and the event loop do to a dispatcher. *)
Inductive Event :=
| CallRun (configuration : option TRunConfiguration)
| CallStopRun
| Resume (i : nat) (now : Z).

Definition exec (d : Dispatcher) (ev : Event) : Dispatcher :=
  match ev with
  | CallRun configuration => (run configuration d).2
  | CallStopRun => stopRun d
  | Resume i now =>
      match tasks d !! i with
      | None => d
      | Some t =>
          let '(w, us, t') := resumeTask now t (world d) in
          {| world := w;
             tasks := match t' with
                      | Some t' => <[i := t']> (tasks d)
                      | None => delete i (tasks d)
                      end;
             updates := updates d ++ us |}
      end
  end.

Definition execs (d : Dispatcher) (evs : list Event) : Dispatcher :=
  foldl exec d evs.

(** The update calls a suspended frame still has to make. *)
Definition pendingUpdates (t : Task) : list (ISystem * Z) :=
  match t with
  | AwaitPreFrame scheduledSystems _ deltaTime =>
      (λ parallelSystem, (parallelSystem, deltaTime)) <$> concat scheduledSystems
  | AwaitGroup _ _ pending _ deltaTime =>
      (λ parallelSystem, (parallelSystem, deltaTime)) <$> concat pending
  | _ => []
  end.

(** The resumptions a suspended frame needs to reach the next [mainLoop]. *)
Definition pendingResumes (t : Task) : nat :=
  match t with
  | AwaitPreFrame scheduledSystems _ _ => length scheduledSystems + 2
  | AwaitGroup _ _ pending _ _ => length pending + 2
  | AwaitFrameEnd _ _ _ => 1
  | _ => 0
  end.

Definition isLoopTask (t : Task) : bool :=
  match t with
  | AwaitDeactivate _ _ | AwaitActivate _ => false
  | _ => true
  end.

(** ** Resources

    [addResource], [getResource] and [replaceResource] touch the resource
    map of the world and nothing else, so they are given on that map.  A
    resource is an object or is built from its class: of an object only its
    class matters ([obj.constructor]); building one ([new type(...args)])
    is the class's own code, [construct], which returns the instance or
    throws ([None]). *)

Record TTypeProto := { type_id : nat; type_name : string }.

#[global] Instance TTypeProto_eq_dec : EqDecision TTypeProto.
Proof. solve_decision. Defined.

Inductive ResourceError :=
| ResourceAlreadyExists (n : string)   (* Resource with name "n" already exists! *)
| ResourceNotFound (n : string)        (* Resource of type "n" does not exist! *)
| ResourceToReplaceNotFound (n : string) (* Resource with name "n" does not exists! *)
| ConstructorThrew (n : string).       (* what the constructor of class n threw *)

Inductive ResourceResult (A : Type) :=
| Done (a : A)
| Raise (e : ResourceError).
Arguments Done {A} a.
Arguments Raise {A} e.

(** [Map.prototype.delete] *)
Definition map_delete {K V} `{EqDecision K} (k : K) (m : JS.Map K V) : JS.Map K V :=
  filter (λ p, p.1 ≠ k) m.

(** [Map.prototype.has] *)
Definition map_has {K V} `{EqDecision K} (k : K) (m : JS.Map K V) : bool :=
  bool_decide (is_Some (JS.get k m)).

Section Resources.
Context {Object Arg : Type}.
Context (constructorOf : Object → TTypeProto).
Context (construct : TTypeProto → list Arg → option Object).

(** The first argument of [addResource] and [replaceResource]: an object
    ([typeof obj === 'object']) or a class, with the remaining arguments. *)
Inductive ResourceArg :=
| AnObject (obj : Object)
| AClass (type : TTypeProto).

(** [addResource(obj, ...args)]: the instance is built first, so what the
    constructor throws comes before the look at the map. *)
Definition addResource (obj : ResourceArg) (args : list Arg)
    (resources : JS.Map TTypeProto Object)
    : ResourceResult () * JS.Map TTypeProto Object :=
  let has_then_set (type : TTypeProto) (instance : Object) :=
    if map_has type resources
    then (Raise (ResourceAlreadyExists (type_name type)), resources)
    else (Done (), JS.set type instance resources) in
  match obj with
  | AnObject o => has_then_set (constructorOf o) o
  | AClass t =>
      match construct t args with
      | None => (Raise (ConstructorThrew (type_name t)), resources)
      | Some instance => has_then_set t instance
      end
  end.

(** [getResource(type)] *)
Definition getResource (type : TTypeProto) (resources : JS.Map TTypeProto Object)
    : ResourceResult (option Object) :=
  if negb (map_has type resources)
  then Raise (ResourceNotFound (type_name type))
  else Done (JS.get type resources).

(** [replaceResource(obj, ...args)]: the old resource is deleted before
    [addResource] builds the new one. *)
Definition replaceResource (obj : ResourceArg) (args : list Arg)
    (resources : JS.Map TTypeProto Object)
    : ResourceResult () * JS.Map TTypeProto Object :=
  let type :=
    match obj with
    | AnObject o => constructorOf o
    | AClass t => t
    end in
  if negb (map_has type resources)
  then (Raise (ResourceToReplaceNotFound (type_name type)), resources)
  else addResource obj args (map_delete type resources).
End Resources.

(** ** Entities made by the world *)

(** [createEntity()]: [entity] is the reference [new Entity()] gives; it is
    pushed without a look at the list and without [setWorld]. *)
Definition createEntity (entity : IEntity) (w : World) : IEntity * World :=
  (entity, set_entities w (entities w ++ [entity])).

(** [EntityBuilder]: the entity it made when constructed; its world is the
    one passed to [build]. *)
Record EntityBuilder := { builder_entity : IEntity }.

(** [buildEntity()] / [new EntityBuilder(world)]: [entity] is the reference
    [new Entity()] gives. *)
Definition buildEntity (entity : IEntity) : EntityBuilder :=
  {| builder_entity := entity |}.

(** [EntityBuilder.build()] *)
Definition build {Store} `{EntityStore Store} (b : EntityBuilder)
    (s : World * Store) : IEntity * (World * Store) :=
  (builder_entity b, addEntity (builder_entity b) s).

(** ** Worked values *)

Module Examples.
Definition A := {| proto_id := 0; name := "A" |}.
Definition B := {| proto_id := 1; name := "B" |}.
Definition C := {| proto_id := 2; name := "C" |}.
Definition X := {| proto_id := 3; name := "X" |}.
Definition a := {| sys_ref := 10; constructor := A |}.
Definition b := {| sys_ref := 11; constructor := B |}.
Definition c := {| sys_ref := 12; constructor := C |}.
Definition node s ds := {| system := s; dependencies := ds |}.

(** A and B without dependencies and C depending on both, registered in
    that order. *)
Definition registered : World :=
  let w1 := (registerSystemQuick a None new_World).2 in
  let w2 := (registerSystemQuick b None w1).2 in
  (registerSystemQuick c (Some [A; B]) w2).2.

(** A depending on B, then B and C without dependencies, registered in
    that order. *)
Definition tied : World :=
  let w1 := (registerSystemQuick a (Some [B]) new_World).2 in
  let w2 := (registerSystemQuick b None w1).2 in
  (registerSystemQuick c None w2).2.

(** Two systems that depend on each other. *)
Definition entangled : World :=
  (registerSystemQuick b (Some [A]) (registerSystemQuick a (Some [B]) new_World).2).2.

(** A dispatcher whose loop is running: [run] on the three registered
    systems, resumed once. *)
Definition running : Dispatcher :=
  execs {| world := registered; tasks := []; updates := [] |}
        [CallRun None; Resume 0 100%Z].
End Examples.
Import Examples.

(** ** Vocabulary of the properties *)

(** Modelled from the spec: the requirement enumeration [EComponentRequirement]
    is declared in system.spec, which is missing from the sources; the spec
    names its members Present, Absent and Irrelevant.  The source compares
    with [UNSET] alone, the member that asks for the component to be
    missing, so [Absent] stands for it. *)
Inductive Requirement := Present | Absent | Irrelevant.

#[global] Instance Requirement_eq_dec : EqDecision Requirement.
Proof. solve_decision. Defined.

(** Modelled from the spec: when a pair of a query is satisfied, in the
    spec's words (section 4.1). *)
Definition spec_satisfies (st : Components) (e : IEntity)
    (p : TComponentProto * Requirement) : Prop :=
  match p.2 with
  | Present => p.1 ∈ st e
  | Absent => p.1 ∉ st e
  | Irrelevant => True
  end.

(** The identity a node is registered under: the constructor of its
    system. *)
Definition ctor (node : TSystemNode) : TSystemProto := constructor (system node).

(** The declared dependency relation of a list of nodes, and what it is for
    it to have a cycle. *)
Definition depends_on (nodes : list TSystemNode) (x y : TSystemProto) : Prop :=
  ∃ node, node ∈ nodes ∧ ctor node = x ∧ y ∈ dependencies node.

Definition acyclic (nodes : list TSystemNode) : Prop :=
  ∀ x, ¬ tc (depends_on nodes) x x.

Definition cyclic (nodes : list TSystemNode) : Prop :=
  ∃ x, tc (depends_on nodes) x x.

(** Registration keeps one node per constructor. *)
Definition distinct (nodes : list TSystemNode) : Prop := NoDup (ctor <$> nodes).

(** The worlds that registration, maintenance and state changes make of a
    new world, as far as [sortedSystems] goes. *)
Inductive reachable : World → Prop :=
| reachable_new : reachable new_World
| reachable_register sys deps w :
    reachable w → reachable (registerSystemQuick sys deps w).2
| reachable_sorted w sorted :
    reachable w → sortSystems (sortedSystems w) = Some (Ok sorted) →
    reachable (set_sortedSystems w sorted)
| reachable_changeRunningState newState w :
    reachable w → reachable (changeRunningState newState w).

(** Every dependency is declared once and names a registered system. *)
Definition declared_sets (nodes : list TSystemNode) : Prop :=
  ∀ node, node ∈ nodes →
    NoDup (dependencies node) ∧
    ∀ d, d ∈ dependencies node → d ∈ ctor <$> nodes.

(** Every system comes after the systems it depends on. *)
Definition after_dependencies (sorted : list TSystemNode) : Prop :=
  ∀ i node d, sorted !! i = Some node → d ∈ dependencies node →
    ∃ j dn, j < i ∧ sorted !! j = Some dn ∧ ctor dn = d.



(** What [edges.splice(edges.indexOf(n), 1)] leaves of [edges]. *)
Definition removeFirst (n : TSystemProto) (edges : list TSystemProto)
    : list TSystemProto :=
  JS.splice1 (JS.indexOf n edges) edges.

(** The graph after the round that takes [n] off [S]. *)
Definition round (n : TSystemProto) (graph : Graph) : Graph :=
  (λ pair, if decide (n ∈ pair.2) then (pair.1, removeFirst n pair.2) else pair)
    <$> graph.

(** The nodes that round puts on [S]. *)
Definition freed (n : TSystemProto) (graph : Graph) : list TSystemProto :=
  (filter (λ pair, n ∈ pair.2 ∧ length (removeFirst n pair.2) = 0) graph).*1.

(** The nodes on [S] when the loop starts. *)
Definition roots (graph : Graph) : list TSystemProto :=
  (filter (λ pair, length pair.2 = 0) graph).*1.

(** What is left of the graph [g0] once [L] is sorted, when no node lists a
    dependency twice. *)
Definition residual (g0 : Graph) (L : list TSystemProto) : Graph :=
  (λ pair, (pair.1, filter (λ d, d ∉ L) pair.2)) <$> g0.

(** [x], then the elements of [l], each related to the next by [R]. *)
Fixpoint chain {A} (R : relation A) (x : A) (l : list A) : Prop :=
  match l with
  | [] => True
  | y :: l' => R x y ∧ chain R y l'
  end.

(** The invariant of the rounds on a graph [g0] without repeated or
    unregistered dependencies: the graph is what [L] leaves of [g0], no node
    is sorted or queued twice, a node is sorted or queued exactly when all
    its dependencies are sorted, and [L] has every node after them. *)
Definition sorting (g0 graph : Graph) (S L : list TSystemProto) : Prop :=
  graph = residual g0 L
  ∧ NoDup (L ++ S)
  ∧ (∀ x, x ∈ L ++ S → x ∈ g0.*1)
  ∧ (∀ k v, (k, v) ∈ g0 → (k ∈ L ++ S ↔ ∀ d, d ∈ v → d ∈ L))
  ∧ (∀ i k v d, L !! i = Some k → (k, v) ∈ g0 → d ∈ v →
       ∃ j, j < i ∧ L !! j = Some d).

(** What a stopped loop comes to: no task left, the run promise cleared,
    and exactly the update calls [us] made on the way. *)
Definition drained (d : Dispatcher) (us : list (ISystem * Z)) (d' : Dispatcher) : Prop :=
  tasks d' = [] ∧ runPromise (world d') = false
  ∧ updates d' = updates d ++ us.

(** What every round of the sort loop keeps, whatever the graph [g0] it
    started from: no node is sorted or queued twice, the sorted and queued
    nodes are exactly the nodes without edges left, an edge of [g0] is still
    there or leads to a sorted node, and [L] has every node after the nodes
    it depended on in [g0]. *)
Definition progress (g0 graph : Graph) (S L : list TSystemProto) : Prop :=
  NoDup (L ++ S)
  ∧ (∀ x, x ∈ L ++ S → (x, []) ∈ graph)
  ∧ (∀ k, (k, []) ∈ graph → k ∈ L ++ S)
  ∧ (∀ k v0 v d, (k, v0) ∈ g0 → (k, v) ∈ graph → d ∈ v0 → d ∈ v ∨ d ∈ L)
  ∧ (∀ i k v0 d, L !! i = Some k → (k, v0) ∈ g0 → d ∈ v0 →
       ∃ j, j < i ∧ L !! j = Some d).

(** Nodes the sorter can sort: one per constructor, every dependency listed
    once and registered, no cycle. *)
Definition well_formed (nodes : list TSystemNode) : Prop :=
  distinct nodes ∧ declared_sets nodes ∧ acyclic nodes.

(** Two graphs with the same entries, in whatever order. *)
Definition same_entries (g g' : Graph) : Prop :=
  ∀ k v, (k, v) ∈ g ↔ (k, v) ∈ g'.

(** The class names [changeRunningState] goes by: of a node, of a run
    system, of the systems of a state. *)
Definition nm (node : TSystemNode) : string := name (ctor node).
Definition rname (r : RunSystem) : string := name (constructor (run_system r)).
Definition stateNames (s : IState) : list string :=
  (λ sys, name (constructor sys)) <$> systems s.

(** [dependencySystems] after the dependencies of a node are pushed. *)
Definition pushNames (ds : list string) (deps : list TSystemProto) : list string :=
  foldl (λ ds dependency,
           if negb (JS.includes (name dependency) ds)
           then ds ++ [name dependency] else ds)
        ds deps.

(** The loop of [changeRunningState] over the nodes [l], started with no run
    system and the dependency names [ds]. *)
Definition activated (newState : IState) (ds : list string) (l : list TSystemNode)
    : list RunSystem * list string :=
  foldl (collectRunSystem newState) ([], ds) l.

(** [stateSystem] for a node, given the dependency names met so far. *)
Definition stateSystemOf (newState : IState) (ds : list string) (node : TSystemNode)
    : option ISystem :=
  if JS.includes (name (constructor (system node))) ds
  then Some (system node)
  else JS.find (λ stateSys, bool_decide (name (constructor stateSys)
                                         = name (constructor (system node))))
               (systems newState).

(** The resumptions a [run] still in its set-up needs to queue its loop. *)
Definition setupResumes (t : Task) : nat :=
  match t with
  | AwaitDeactivate _ _ => 2
  | AwaitActivate _ => 1
  | _ => 0
  end.

(** The class a resource argument is filed under, and the instance that is
    stored for it, if the constructor returns one. *)
Definition typeOf {Object} (constructorOf : Object → TTypeProto)
    (obj : ResourceArg) : TTypeProto :=
  match obj with
  | AnObject o => constructorOf o
  | AClass t => t
  end.

Definition instanceOf {Object Arg} (construct : TTypeProto → list Arg → option Object)
    (obj : ResourceArg) (args : list Arg) : option Object :=
  match obj with
  | AnObject o => Some o
  | AClass t => construct t args
  end.

(** Adding entities one after the other. *)
Definition addEntities {Store} `{EntityStore Store} (es : list IEntity)
    (s : World * Store) : World * Store :=
  foldl (λ s e, addEntity e s) s es.

(** What [withSystem] keeps of a builder: every entry is filed under its own
    system, and no two entries are of the same class. *)
Definition builder_classes (b : WorldBuilder) : list TSystemProto :=
  (constructor ∘ info_system) <$> JS.values (systemInfos b).

Definition builder_ok (b : WorldBuilder) : Prop :=
  Forall (λ p, info_system p.2 = p.1) (systemInfos b)
  ∧ NoDup (builder_classes b).

(** The array of groups with [step] on its last element. *)
Definition open_groups (closed : list (list ISystem)) (group : list ISystem)
    : list (option (list ISystem)) * nat :=
  ((Some <$> closed) ++ [Some group], length closed).

(** * Properties *)

(** A decidable statement about given values, settled by evaluation. *)
Ltac by_computation := apply (bool_decide_unpack _); vm_compute; exact I.

(** ** The query matcher *)

Section QueryFacts.
Context {Req : Type} (UNSET : Req) `{EqDecision Req}.
Context {Store : Type} `{EntityStore Store}.

Lemma skipsEntity_matches st e (q : TComponentQuery) :
  skipsEntity UNSET st e q = false ↔ matches UNSET st e q.
Proof.
  unfold matches. induction q as [|p q IH]; simpl.
  - split; [constructor | done].
  - rewrite Forall_cons, <- IH. unfold satisfies.
    destruct (hasComponent st e p.1); destruct (decide (p.2 = UNSET)) as [Hu|Hu];
      [rewrite bool_decide_eq_true_2 by done | rewrite bool_decide_eq_false_2 by done
      | rewrite bool_decide_eq_true_2 by done | rewrite bool_decide_eq_false_2 by done];
      simpl; intuition congruence.
Qed.

Lemma entityLoop_filter st es (q : TComponentQuery) acc :
  entityLoop UNSET st es q acc = acc ++ filter (λ e, matches UNSET st e q) es.
Proof.
  revert acc. induction es as [|e es IH]; intros acc; simpl.
  - by rewrite app_nil_r.
  - destruct (skipsEntity UNSET st e q) eqn:Hs; rewrite IH.
    + rewrite filter_cons_False; [done|].
      rewrite <- skipsEntity_matches. congruence.
    + rewrite filter_cons_True by (by apply skipsEntity_matches).
      by rewrite <- app_assoc.
Qed.

Lemma getEntities_filter st w (q : TComponentQuery) :
  getEntities UNSET st w (Some q) = filter (λ e, matches UNSET st e q) (entities w).
Proof. simpl. by rewrite entityLoop_filter. Qed.

(** No requirement is satisfied by every entity: whatever [r] is, the pair
    [(c, r)] turns away the entities that have [c] or those that lack it. *)
Lemma no_requirement_always_satisfied st1 st2 e c (r : Req) :
  hasComponent st1 e c = true → hasComponent st2 e c = false →
  skipsEntity UNSET st1 e [(c, r)] = true ∨ skipsEntity UNSET st2 e [(c, r)] = true.
Proof.
  intros H1 H2. simpl. rewrite H1, H2.
  destruct (decide (r = UNSET)) as [Hu|Hu].
  - left. by rewrite bool_decide_eq_true_2.
  - right. by rewrite bool_decide_eq_false_2.
Qed.

(** C5 (as amended): an entity is returned iff it is in the world's list and,
    for every pair of the query, it lacks the component when the requirement
    is [UNSET] and has it for every other requirement; the result keeps the
    order of the entity list. *)
Theorem getEntities_spec st w (q : TComponentQuery) :
  (∀ e, e ∈ getEntities UNSET st w (Some q) ↔
        e ∈ entities w ∧
        ∀ c r, (c, r) ∈ q →
          (r = UNSET → hasComponent st e c = false) ∧
          (r ≠ UNSET → hasComponent st e c = true))
  ∧ sublist (getEntities UNSET st w (Some q)) (entities w).
Proof.
  rewrite getEntities_filter. split.
  - intros e. rewrite list_elem_of_filter. unfold matches.
    rewrite Forall_forall. split.
    + intros [Hm He]. split; [done|].
      intros c r Hin. specialize (Hm _ Hin). unfold satisfies in Hm. simpl in Hm.
      destruct (decide (r = UNSET)); split; intros; congruence.
    + intros [He Hm]. split; [|done].
      intros [c r] Hin. destruct (Hm c r Hin) as [Hu Hn].
      unfold satisfies. simpl. destruct (decide (r = UNSET)); auto.
  - apply sublist_filter.
Qed.

(** C7: filtering the result of [getEntities] again with the same query
    gives the same list. *)
Theorem getEntities_idempotent st w (q : option TComponentQuery) :
  getEntities UNSET st (set_entities w (getEntities UNSET st w q)) q
  = getEntities UNSET st w q.
Proof.
  destruct q as [q|]; [|done].
  rewrite !getEntities_filter. simpl.
  rewrite list_filter_filter. apply list_filter_iff. tauto.
Qed.

(** C10: adding an entity the world already holds changes neither the
    entity list nor anything else. *)
Theorem addEntity_idempotent entity w st :
  entity ∈ entities w →
  addEntity entity (w, st) = (w, st)
  ∧ entities (addEntity entity (w, st)).1 = entities w.
Proof.
  intros Hin. unfold addEntity, JS.includes.
  by rewrite bool_decide_eq_true_2.
Qed.

(** With it, the entity list never holds an entity twice. *)
Lemma addEntity_NoDup entity w st :
  NoDup (entities w) → NoDup (entities (addEntity entity (w, st)).1).
Proof.
  intros Hnd. unfold addEntity, JS.includes.
  destruct (decide (entity ∈ entities w)) as [Hin|Hin].
  - by rewrite bool_decide_eq_true_2.
  - rewrite bool_decide_eq_false_2 by done. simpl.
    apply NoDup_app. split_and!; [done | | apply NoDup_singleton].
    intros x Hx ->%list_elem_of_singleton. done.
Qed.
End QueryFacts.

Lemma addEntity_idempotent_witness :
  let w := set_entities new_World [4; 7] in
  let st : Components := λ _, ∅ in
  7 ∈ entities w ∧ addEntity 7 (w, st) = (w, st).
Proof.
  intros w st.
  assert (Hin : 7 ∈ entities w) by (simpl; repeat constructor).
  split; [exact Hin|].
  exact (proj1 (addEntity_idempotent (Store := Components) 7 w st Hin)).
Defined.

(** C5, as stated, fails: an entity without component 7 satisfies the pair
    (7, Irrelevant) in the spec's reading, and the world leaves it out. *)
Lemma getEntities_irrelevant_counterexample :
  let st : Components := λ _, ∅ in
  let w := set_entities new_World [0] in
  let q := [(7, Irrelevant)] in
  0 ∈ entities w ∧ Forall (spec_satisfies st 0) q
  ∧ getEntities Absent st w (Some q) = [].
Proof.
  intros st w q. split_and!.
  - apply list_elem_of_singleton. reflexivity.
  - repeat constructor.
  - reflexivity.
Qed.

(** ** Arrays and maps *)

Section ArrayFacts.
Context {A : Type} `{EqDecision A}.

Lemma filter_all (P : A → Prop) `{∀ x, Decision (P x)} (l : list A) :
  Forall P l → filter P l = l.
Proof.
  induction 1 as [|x l Hx _ IH]; [done|].
  by rewrite filter_cons_True, IH.
Qed.

Lemma splice1_indexOf_split (x : A) (l : list A) :
  x ∈ l →
  ∃ l1 l2, l = l1 ++ x :: l2 ∧ (x ∉ l1)
           ∧ JS.splice1 (JS.indexOf x l) l = l1 ++ l2.
Proof.
  intros Hin.
  destruct (list_find_elem_of (λ y, y = x) l x Hin eq_refl) as [[i y] Hf].
  unfold JS.indexOf. rewrite Hf.
  apply list_find_Some in Hf as (Hi & -> & Hmin).
  pose proof (lookup_lt_Some _ _ _ Hi) as Hlt.
  exists (take i l), (drop (S i) l). split_and!.
  - by rewrite take_drop_middle.
  - intros [j Hj]%list_elem_of_lookup.
    pose proof (lookup_lt_Some _ _ _ Hj) as Hjl.
    rewrite length_take in Hjl.
    rewrite lookup_take_lt in Hj by lia.
    apply (Hmin j x); [done | lia | done].
  - unfold JS.splice1.
    replace (Z.of_nat i <? 0)%Z with false by (symmetry; apply Z.ltb_ge; lia).
    rewrite Z.min_l by lia. rewrite Nat2Z.id. apply delete_take_drop.
Qed.

Lemma splice1_indexOf_length (x : A) (l : list A) :
  x ∈ l → S (length (JS.splice1 (JS.indexOf x l) l)) = length l.
Proof.
  intros (l1 & l2 & -> & _ & Hs)%splice1_indexOf_split.
  rewrite Hs, !length_app. simpl. lia.
Qed.

Lemma splice1_indexOf_other (x y : A) (l : list A) :
  x ∈ l → y ∈ l → y ≠ x → y ∈ JS.splice1 (JS.indexOf x l) l.
Proof.
  intros (l1 & l2 & -> & _ & Hs)%splice1_indexOf_split Hy Hne.
  rewrite Hs. rewrite elem_of_app in Hy |- *.
  rewrite elem_of_cons in Hy. tauto.
Qed.

Lemma splice1_indexOf_subseteq (x : A) (l : list A) :
  x ∈ l → JS.splice1 (JS.indexOf x l) l ⊆ l.
Proof.
  intros (l1 & l2 & -> & _ & Hs)%splice1_indexOf_split.
  rewrite Hs. intros y. rewrite !elem_of_app, elem_of_cons. tauto.
Qed.

(** Without repetitions, removing the first occurrence removes them all. *)
Lemma splice1_indexOf_NoDup (x : A) (l : list A) :
  x ∈ l → NoDup l →
  JS.splice1 (JS.indexOf x l) l = filter (λ y, y ≠ x) l.
Proof.
  intros (l1 & l2 & -> & Hx1 & Hs)%splice1_indexOf_split Hnd.
  rewrite Hs.
  apply NoDup_app in Hnd as (_ & Hdisj & Hnd2).
  apply NoDup_cons in Hnd2 as [Hx2 _].
  rewrite filter_app, filter_cons_False by (intros Hc; by apply Hc).
  f_equal; symmetry; apply filter_all, Forall_forall; congruence.
Qed.
End ArrayFacts.

Section MapFacts.
Context {K V : Type} `{EqDecision K}.
Implicit Types m : JS.Map K V.

Lemma get_Some_elem_of k v m : JS.get k m = Some v → (k, v) ∈ m.
Proof.
  induction m as [|[k' v'] m IH]; simpl; [done|].
  destruct (decide (k' = k)) as [->|]; intros Hg.
  - injection Hg as ->. left.
  - right. auto.
Qed.

Lemma elem_of_get k v m : NoDup m.*1 → (k, v) ∈ m → JS.get k m = Some v.
Proof.
  induction m as [|[k' v'] m IH]; simpl; intros Hnd Hin.
  - by apply elem_of_nil in Hin.
  - apply NoDup_cons in Hnd as [Hk Hnd].
    apply elem_of_cons in Hin as [Heq|Hin].
    + injection Heq as -> ->. by rewrite decide_True.
    + rewrite decide_False; [auto|].
      intros ->. apply Hk. apply list_elem_of_fmap. by exists (k, v).
Qed.

Lemma get_None k m : JS.get k m = None ↔ k ∉ m.*1.
Proof.
  induction m as [|[k' v'] m IH]; simpl.
  - split; [intros _; apply not_elem_of_nil | done].
  - rewrite not_elem_of_cons. destruct (decide (k' = k)) as [->|Hne].
    + split; [done | intros [? _]; done].
    + rewrite IH. split; [intros ?; split; [congruence | done] | tauto].
Qed.

(** [set] on a key of the map rewrites that entry where it stands. *)
Lemma set_present k v m :
  NoDup m.*1 → k ∈ m.*1 →
  JS.set k v m = (λ p, if decide (p.1 = k) then (p.1, v) else p) <$> m.
Proof.
  induction m as [|[k' v'] m IH]; simpl; intros Hnd Hin.
  - by apply elem_of_nil in Hin.
  - apply NoDup_cons in Hnd as [Hk Hnd].
    destruct (decide (k' = k)) as [->|Hne].
    + f_equal. symmetry. rewrite <- (list_fmap_id m) at 2.
      apply list_fmap_ext. intros i [k1 v1] Hi. simpl.
      rewrite decide_False; [done|]. intros ->. apply Hk.
      apply list_elem_of_fmap. exists (k, v1). split; [done|].
      by eapply list_elem_of_lookup_2.
    + f_equal. apply IH; [done|].
      apply elem_of_cons in Hin as [?|?]; [congruence | done].
Qed.

Lemma set_absent k v m : k ∉ m.*1 → JS.set k v m = m ++ [(k, v)].
Proof.
  induction m as [|[k' v'] m IH]; simpl; [done|].
  rewrite not_elem_of_cons. intros [Hne Hk].
  rewrite decide_False by congruence. by rewrite IH.
Qed.

Lemma set_keys_NoDup k v m : NoDup m.*1 → NoDup (JS.set k v m).*1.
Proof.
  intros Hnd. destruct (decide (k ∈ m.*1)) as [Hin|Hin].
  - rewrite set_present by done. rewrite <- list_fmap_compose.
    erewrite list_fmap_ext; [exact Hnd|].
    intros i [k' v'] _. simpl. by destruct (decide (k' = k)).
  - rewrite set_absent by done. rewrite fmap_app. simpl.
    apply NoDup_app. split_and!; [done | | apply NoDup_singleton].
    intros x Hx ->%list_elem_of_singleton. done.
Qed.

Lemma new_Map_keys_NoDup (entries : list (K * V)) :
  NoDup (JS.new_Map entries).*1.
Proof.
  unfold JS.new_Map.
  assert (Hgen : ∀ m, NoDup m.*1 →
            NoDup (foldl (λ m e, JS.set e.1 e.2 m) m entries).*1).
  { induction entries as [|e es IH]; intros m Hm; simpl; [done|].
    apply IH. by apply set_keys_NoDup. }
  apply Hgen. constructor.
Qed.

Lemma new_Map_keys (entries : list (K * V)) k :
  k ∈ (JS.new_Map entries).*1 ↔ k ∈ entries.*1.
Proof.
  unfold JS.new_Map.
  assert (Hgen : ∀ m, NoDup m.*1 →
            k ∈ (foldl (λ m e, JS.set e.1 e.2 m) m entries).*1
            ↔ k ∈ m.*1 ∨ k ∈ entries.*1).
  { induction entries as [|e es IH]; intros m Hm; simpl.
    - rewrite elem_of_nil. tauto.
    - rewrite IH by (by apply set_keys_NoDup).
      rewrite elem_of_cons.
      destruct (decide (e.1 ∈ m.*1)) as [Hin|Hin].
      + rewrite set_present by done. rewrite <- list_fmap_compose.
        erewrite (list_fmap_ext _ fst m).
        * split; [intros [?|?]; auto|]. intros [?|[->|?]]; auto.
        * intros i [k' v'] _. simpl. by destruct (decide (k' = e.1)).
      + rewrite set_absent by done. rewrite fmap_app, elem_of_app. simpl.
        rewrite list_elem_of_singleton. tauto. }
  rewrite Hgen by constructor. simpl. rewrite elem_of_nil. tauto.
Qed.

(** Entries with distinct keys are the map itself. *)
Lemma new_Map_distinct (entries : list (K * V)) :
  NoDup entries.*1 → JS.new_Map entries = entries.
Proof.
  unfold JS.new_Map.
  assert (Hgen : ∀ m, NoDup (m ++ entries).*1 →
            foldl (λ m e, JS.set e.1 e.2 m) m entries = m ++ entries).
  { induction entries as [|[k v] es IH]; intros m Hm; simpl.
    - by rewrite app_nil_r.
    - rewrite set_absent.
      + rewrite IH; rewrite <- app_assoc; done.
      + rewrite fmap_app in Hm. apply NoDup_app in Hm as (_ & Hd & _).
        intros Hk. apply (Hd k Hk). simpl. left. }
  intros Hnd. by rewrite Hgen.
Qed.
End MapFacts.

(** ** One round of the sort loop *)

Section MapMiddle.
Context {K V : Type} `{EqDecision K}.

Lemma get_middle (k : K) (v : V) done todo :
  k ∉ done.*1 → JS.get k (done ++ (k, v) :: todo) = Some v.
Proof.
  induction done as [|[k' v'] done IH]; simpl.
  - intros _. by rewrite decide_True.
  - rewrite not_elem_of_cons. intros [Hne Hk].
    rewrite decide_False by congruence. auto.
Qed.

Lemma set_middle (k : K) (v v' : V) done todo :
  k ∉ done.*1 →
  JS.set k v' (done ++ (k, v) :: todo) = done ++ (k, v') :: todo.
Proof.
  induction done as [|[k1 v1] done IH]; simpl.
  - intros _. by rewrite decide_True.
  - rewrite not_elem_of_cons. intros [Hne Hk].
    rewrite decide_False by congruence. by rewrite IH.
Qed.
End MapMiddle.

Lemma removeEdges_split n (todo done : Graph) S :
  NoDup (done ++ todo).*1 →
  removeEdges n (dependents n todo) (done ++ todo) S
  = Ok (done ++ round n todo, S ++ freed n todo).
Proof.
  revert done S. induction todo as [|[k v] todo IH]; intros done S Hnd.
  - simpl. by rewrite !app_nil_r.
  - assert (Hk : k ∉ done.*1).
    { rewrite fmap_app in Hnd. apply NoDup_app in Hnd as (_ & Hd & _).
      intros Hk. apply (Hd k Hk). left. }
    unfold dependents, freed, round. rewrite fmap_cons. simpl.
    destruct (decide (n ∈ v)) as [Hin|Hin].
    + rewrite (filter_cons_True _ (k, v)) by (simpl; by apply bool_decide_eq_true_2).
      simpl. rewrite get_middle by done. rewrite set_middle by done.
      fold (removeFirst n v).
      specialize (IH (done ++ [(k, removeFirst n v)])).
      rewrite <- !app_assoc in IH. simpl in IH.
      unfold dependents in IH. rewrite IH.
      * f_equal. f_equal. destruct (decide (length (removeFirst n v) ≤ 0)) as [Hl|Hl].
        -- rewrite (filter_cons_True _ (k, v)) by (simpl; split; [done | lia]).
           simpl. by rewrite <- app_assoc.
        -- rewrite (filter_cons_False _ (k, v)) by (simpl; intros [_ ?]; lia).
           done.
      * rewrite fmap_app in Hnd |- *. done.
    + rewrite (filter_cons_False _ (k, v))
        by (simpl; unfold JS.includes; rewrite bool_decide_eq_false_2 by done; done).
      rewrite (filter_cons_False _ (k, v)) by (simpl; tauto).
      specialize (IH (done ++ [(k, v)])).
      rewrite <- !app_assoc in IH. simpl in IH.
      unfold dependents in IH. rewrite IH; [done|].
      rewrite fmap_app in Hnd |- *. done.
Qed.

Lemma removeEdges_round n (graph : Graph) S :
  NoDup graph.*1 →
  removeEdges n (dependents n graph) graph S
  = Ok (round n graph, S ++ freed n graph).
Proof. intros Hnd. by apply (removeEdges_split n graph []). Qed.

Lemma round_keys n (graph : Graph) : (round n graph).*1 = graph.*1.
Proof.
  unfold round. rewrite <- list_fmap_compose. apply list_fmap_ext.
  intros i [k v] _. simpl. by destruct (decide (n ∈ v)).
Qed.

Lemma sortLoop_round fuel n (graph : Graph) S1 L :
  NoDup graph.*1 →
  sortLoop (S fuel) graph (n :: S1) L
  = sortLoop fuel (round n graph) (S1 ++ freed n graph) (L ++ [n]).
Proof. intros Hnd. simpl. by rewrite removeEdges_round. Qed.

Lemma edge_count_cons k v (graph : Graph) :
  edge_count ((k, v) :: graph) = length v + edge_count graph.
Proof. reflexivity. Qed.

Lemma round_cons n k v (graph : Graph) :
  round n ((k, v) :: graph)
  = (if decide (n ∈ v) then (k, removeFirst n v) else (k, v)) :: round n graph.
Proof. reflexivity. Qed.

Lemma freed_cons n k v (graph : Graph) :
  freed n ((k, v) :: graph)
  = if decide (n ∈ v ∧ length (removeFirst n v) = 0)
    then k :: freed n graph else freed n graph.
Proof.
  unfold freed. rewrite filter_cons. simpl.
  by destruct (decide (n ∈ v ∧ length (removeFirst n v) = 0)).
Qed.

(** A round removes at least as many edges as it frees nodes. *)
Lemma round_measure n (graph : Graph) :
  length (freed n graph) + edge_count (round n graph) ≤ edge_count graph.
Proof.
  induction graph as [|[k v] graph IH]; [done|].
  rewrite freed_cons, round_cons, edge_count_cons.
  destruct (decide (n ∈ v)) as [Hin|Hin].
  - pose proof (splice1_indexOf_length n v Hin) as Hlen.
    fold (removeFirst n v) in Hlen. rewrite edge_count_cons.
    destruct (decide (n ∈ v ∧ length (removeFirst n v) = 0)); cbn [length]; lia.
  - rewrite decide_False by tauto. rewrite edge_count_cons. lia.
Qed.

(** The loop ends within its fuel, and an invariant of the rounds holds of
    what it returns. *)
Lemma sortLoop_invariant (P : Graph → list TSystemProto → list TSystemProto → Prop) :
  (∀ graph n S1 L, NoDup graph.*1 → P graph (n :: S1) L →
     P (round n graph) (S1 ++ freed n graph) (L ++ [n])) →
  ∀ fuel graph S L,
    NoDup graph.*1 → sort_fuel graph S ≤ fuel → P graph S L →
    ∃ graph' L', sortLoop fuel graph S L = Some (Ok (graph', L'))
                 ∧ P graph' [] L' ∧ graph'.*1 = graph.*1.
Proof.
  intros Hstep fuel. induction fuel as [|fuel IH]; intros graph S L Hnd Hfuel HP.
  - destruct S as [|n S1]; [|unfold sort_fuel in Hfuel; simpl in Hfuel; lia].
    exists graph, L. done.
  - destruct S as [|n S1]; [by exists graph, L|].
    rewrite sortLoop_round by done.
    destruct (IH (round n graph) (S1 ++ freed n graph) (L ++ [n])) as (g' & L' & Hs & HP' & Hk).
    + by rewrite round_keys.
    + pose proof (round_measure n graph). unfold sort_fuel in *.
      rewrite length_app. simpl in Hfuel. lia.
    + by apply Hstep.
    + exists g', L'. split_and!; [done | done |]. by rewrite Hk, round_keys.
Qed.

(** ** The sorter as a whole *)

Lemma graph_of_keys_NoDup unsorted : NoDup (graph_of unsorted).*1.
Proof. apply new_Map_keys_NoDup. Qed.

Lemma graph_of_keys unsorted k :
  k ∈ (graph_of unsorted).*1 ↔ k ∈ ctor <$> unsorted.
Proof.
  unfold graph_of. rewrite new_Map_keys, <- list_fmap_compose. done.
Qed.

Lemma graph_of_distinct unsorted :
  distinct unsorted →
  graph_of unsorted = (λ node, (ctor node, dependencies node)) <$> unsorted.
Proof.
  intros Hd. unfold graph_of. apply new_Map_distinct.
  by rewrite <- list_fmap_compose.
Qed.

(** From an invariant of the rounds to the outcome of [sortSystems]. *)
Lemma sortSystems_cases (P : Graph → list TSystemProto → list TSystemProto → Prop)
    unsorted :
  (∀ graph n S1 L, NoDup graph.*1 → P graph (n :: S1) L →
     P (round n graph) (S1 ++ freed n graph) (L ++ [n])) →
  P (graph_of unsorted) (roots (graph_of unsorted)) [] →
  ∃ graph' L',
    P graph' [] L' ∧ graph'.*1 = (graph_of unsorted).*1
    ∧ (Exists (λ v, 0 < length v) graph'.*2 →
       sortSystems unsorted = Some (Throw DependencyGraphCyclic))
    ∧ (Forall (λ v, ¬ 0 < length v) graph'.*2 →
       sortSystems unsorted = Some (lookupNodes unsorted L')).
Proof.
  intros Hstep Hinit.
  destruct (sortLoop_invariant P Hstep
              (sort_fuel (graph_of unsorted) (roots (graph_of unsorted)))
              (graph_of unsorted) (roots (graph_of unsorted)) [])
    as (g' & L' & Hs & HP & Hk); [apply graph_of_keys_NoDup | done | done |].
  exists g', L'. split_and!; [done | done | |].
  - intros Hex. unfold sortSystems. fold (roots (graph_of unsorted)).
    rewrite Hs. unfold JS.values.
    destruct (list_find (λ n, 0 < length n) g'.*2) as [[i v]|] eqn:Hf; [done|].
    apply list_find_None in Hf. apply Exists_exists in Hex as (v & Hv & Hlen).
    rewrite Forall_forall in Hf. by destruct (Hf v Hv).
  - intros Hall. unfold sortSystems. fold (roots (graph_of unsorted)).
    rewrite Hs. unfold JS.values.
    destruct (list_find (λ n, 0 < length n) g'.*2) as [[i v]|] eqn:Hf; [|done].
    apply list_find_Some in Hf as (Hi & Hlen & _).
    rewrite Forall_forall in Hall.
    destruct (Hall v); [by eapply list_elem_of_lookup_2 | done].
Qed.

Lemma freed_keys n (graph : Graph) k : k ∈ freed n graph → k ∈ graph.*1.
Proof.
  unfold freed. intros ([k' v] & -> & Hin)%list_elem_of_fmap.
  apply list_elem_of_filter in Hin as [_ Hin].
  apply list_elem_of_fmap. by exists (k', v).
Qed.

Lemma roots_keys (graph : Graph) k : k ∈ roots graph → k ∈ graph.*1.
Proof.
  unfold roots. intros ([k' v] & -> & Hin)%list_elem_of_fmap.
  apply list_elem_of_filter in Hin as [_ Hin].
  apply list_elem_of_fmap. by exists (k', v).
Qed.

Lemma lookupNodes_Ok unsorted L :
  (∀ t, t ∈ L → t ∈ ctor <$> unsorted) →
  ∃ sorted, lookupNodes unsorted L = Ok sorted
            ∧ ctor <$> sorted = L
            ∧ ∀ node, node ∈ sorted → node ∈ unsorted.
Proof.
  induction L as [|t L IH]; intros HL.
  - exists []. split_and!; [done | done |]. intros node Hn. by apply elem_of_nil in Hn.
  - destruct IH as (sorted & Hs & Hc & Hin).
    { intros t' Ht'. apply HL. by right. }
    simpl. unfold JS.find.
    destruct (List.find (λ n, bool_decide (constructor (system n) = t)) unsorted)
      as [obj|] eqn:Hf.
    + apply find_some in Hf as [Hobj Ht]. apply bool_decide_eq_true_1 in Ht.
      rewrite Hs. exists (obj :: sorted). split_and!; [done | | ].
      * rewrite fmap_cons. unfold ctor at 1. by rewrite Ht, Hc.
      * intros node [->|Hn]%elem_of_cons; [by apply list_elem_of_In | auto].
    + exfalso. assert (Ht : t ∈ ctor <$> unsorted) by (apply HL; left).
      apply list_elem_of_fmap in Ht as (node & -> & Hn).
      apply list_elem_of_In in Hn.
      pose proof (find_none _ _ Hf node Hn) as Hb. simpl in Hb.
      by rewrite bool_decide_eq_true_2 in Hb.
Qed.

Lemma lookupNodes_ctor unsorted L sorted :
  lookupNodes unsorted L = Ok sorted → ctor <$> sorted = L.
Proof.
  revert sorted. induction L as [|t L IH]; intros sorted; simpl.
  - by intros [= <-].
  - unfold JS.find.
    destruct (List.find _ unsorted) as [obj|] eqn:Hf; [|done].
    destruct (lookupNodes unsorted L) as [objs|]; [|done].
    intros [= <-]. apply find_some in Hf as [_ Ht].
    apply bool_decide_eq_true_1 in Ht. rewrite fmap_cons. unfold ctor at 1.
    by rewrite Ht, (IH objs).
Qed.

(** The sorter always ends. *)
Lemma sortSystems_terminates unsorted : is_Some (sortSystems unsorted).
Proof.
  destruct (sortSystems_cases (λ _ _ _, True) unsorted) as (g' & L' & _ & _ & Hc & Hn);
    [done | done |].
  destruct (decide (Exists (λ v, 0 < length v) g'.*2)) as [Hex|Hex].
  - rewrite Hc by done. by eexists.
  - rewrite Hn; [by eexists|]. by apply not_Exists_Forall; [intros ?; apply _|].
Qed.

(** It ends with the sorted nodes or with the error for a cyclic graph:
    the error for a system that was not registered is never raised. *)
Lemma sortSystems_outcomes unsorted :
  sortSystems unsorted = Some (Throw DependencyGraphCyclic)
  ∨ ∃ sorted, sortSystems unsorted = Some (Ok sorted).
Proof.
  destruct (sortSystems_cases
              (λ graph S L, ∀ x, x ∈ L ++ S → x ∈ graph.*1) unsorted)
    as (g' & L' & HP & Hk & Hc & Hn).
  - intros graph n S1 L _ HP x. rewrite round_keys.
    rewrite !elem_of_app, list_elem_of_singleton.
    intros [[? | ->] | [? | ?%freed_keys]]; [| | |done];
      apply HP; rewrite elem_of_app, elem_of_cons; auto.
  - intros x. simpl. apply roots_keys.
  - destruct (decide (Exists (λ v, 0 < length v) g'.*2)) as [Hex|Hex]; [left; auto|].
    right. rewrite Hn by (by apply not_Exists_Forall; [intros ?; apply _|]).
    destruct (lookupNodes_Ok unsorted L') as (sorted & -> & _).
    + intros t Ht. apply graph_of_keys. rewrite <- Hk. apply HP.
      rewrite app_nil_r. done.
    + by exists sorted.
Qed.

Lemma removeEdges_extends n ms (graph graph' : Graph) S S' :
  removeEdges n ms graph S = Ok (graph', S') → S `prefix_of` S'.
Proof.
  revert graph S. induction ms as [|m ms IH]; intros graph S; simpl.
  - by intros [= _ <-].
  - destruct (JS.get m graph) as [edges|]; [|done].
    intros Hr%IH. etrans; [|exact Hr].
    destruct (decide _); [by apply prefix_app_r | done].
Qed.

Lemma sortLoop_prefix fuel (graph graph' : Graph) S L L' :
  sortLoop fuel graph S L = Some (Ok (graph', L')) → L ++ S `prefix_of` L'.
Proof.
  revert graph S L. induction fuel as [|fuel IH]; intros graph S L.
  - destruct S; simpl; [|done]. intros [= _ <-]. by rewrite app_nil_r.
  - destruct S as [|n S1]; simpl.
    { intros [= _ <-]. by rewrite app_nil_r. }
    destruct (removeEdges n (dependents n graph) graph S1) as [[g1 S2]|] eqn:Hr; [|done].
    intros Hs%IH. apply removeEdges_extends in Hr as [added ->].
    etrans; [|exact Hs]. rewrite <- !app_assoc. simpl.
    apply prefix_app, prefix_cons, prefix_app_r. done.
Qed.


(** ** Nodes that never become free *)

Lemma entry_unique {K V} `{EqDecision K} (m : list (K * V)) k v v' :
  NoDup m.*1 → (k, v) ∈ m → (k, v') ∈ m → v = v'.
Proof.
  intros Hnd H1%(elem_of_get _ _ _ Hnd) H2%(elem_of_get _ _ _ Hnd). congruence.
Qed.

Lemma round_entry n (graph : Graph) k v :
  (k, v) ∈ graph →
  (k, if decide (n ∈ v) then removeFirst n v else v) ∈ round n graph.
Proof.
  intros Hin. unfold round. apply list_elem_of_fmap. exists (k, v).
  split; [|done]. simpl. by destruct (decide (n ∈ v)).
Qed.

Lemma freed_entry n (graph : Graph) k :
  k ∈ freed n graph →
  ∃ v, (k, v) ∈ graph ∧ n ∈ v ∧ length (removeFirst n v) = 0.
Proof.
  unfold freed. intros ([k' v] & -> & Hin)%list_elem_of_fmap.
  apply list_elem_of_filter in Hin as [[Hn Hl] Hin]. by exists v.
Qed.

Lemma roots_entry (graph : Graph) k :
  k ∈ roots graph ↔ ∃ v, (k, v) ∈ graph ∧ length v = 0.
Proof.
  unfold roots. rewrite list_elem_of_fmap. split.
  - intros ([k' v] & -> & Hin). apply list_elem_of_filter in Hin as [Hl Hin].
    by exists v.
  - intros (v & Hin & Hl). exists (k, v). split; [done|].
    by apply list_elem_of_filter.
Qed.

(** A set of nodes each of which waits for a node of the set, or for a
    constructor that is no node at all, stays blocked to the end: the sorter
    then reports a cyclic graph. *)
Lemma sortSystems_blocked (B : TSystemProto → Prop) unsorted :
  (∀ c, B c → ∃ v c', (c, v) ∈ graph_of unsorted ∧ c' ∈ v
                      ∧ (B c' ∨ c' ∉ (graph_of unsorted).*1)) →
  (∃ c, B c) →
  sortSystems unsorted = Some (Throw DependencyGraphCyclic).
Proof.
  intros Hblocked [c0 Hc0].
  set (g0 := graph_of unsorted) in *.
  destruct (sortSystems_cases
    (λ graph S L,
       graph.*1 = g0.*1
       ∧ (∀ x, x ∈ S → x ∈ g0.*1 ∧ ¬ B x)
       ∧ ∀ c, B c → ∃ v c', (c, v) ∈ graph ∧ c' ∈ v ∧ (B c' ∨ c' ∉ g0.*1))
    unsorted) as (g' & L' & (_ & _ & HB) & _ & Hc & _).
  - intros graph n S1 L Hnd (Hk & HS & HB).
    destruct (HS n) as [Hn HnB]; [left|].
    assert (Hne : ∀ c', B c' ∨ c' ∉ g0.*1 → c' ≠ n).
    { intros c' [?|?] ->; done. }
    split_and!.
    + by rewrite round_keys.
    + intros x [Hx|Hx]%elem_of_app; [apply HS; by right|].
      split; [rewrite <- Hk; by eapply freed_keys|].
      intros HBx. destruct (HB x HBx) as (v & c' & Hv & Hc' & Hor).
      apply freed_entry in Hx as (v3 & Hv3 & Hn3 & Hlen).
      rewrite (entry_unique graph x v3 v Hnd Hv3 Hv) in Hn3, Hlen.
      pose proof (splice1_indexOf_other n c' v Hn3 Hc' (Hne c' Hor)) as Hin.
      fold (removeFirst n v) in Hin.
      destruct (removeFirst n v); [by apply elem_of_nil in Hin | done].
    + intros c HBc. destruct (HB c HBc) as (v & c' & Hv & Hc' & Hor).
      exists (if decide (n ∈ v) then removeFirst n v else v), c'.
      split_and!; [by apply round_entry | | done].
      destruct (decide (n ∈ v)); [|done].
      by apply splice1_indexOf_other; [| |apply Hne].
  - split_and!; [done | | done].
    intros x (v0 & Hv0 & Hl)%roots_entry. split.
    { apply list_elem_of_fmap. by exists (x, v0). }
    intros HBx. destruct (Hblocked x HBx) as (v & c' & Hv & Hc' & _).
    rewrite (entry_unique g0 x v0 v (graph_of_keys_NoDup unsorted) Hv0 Hv) in Hl.
    destruct v; [by apply elem_of_nil in Hc' | done].
  - apply Hc. destruct (HB c0 Hc0) as (v & c' & Hv & Hc' & _).
    apply Exists_exists. exists v. split.
    + apply list_elem_of_fmap. by exists (c0, v).
    + destruct v; [by apply elem_of_nil in Hc' | simpl; lia].
Qed.

Lemma graph_of_entry unsorted node :
  distinct unsorted → node ∈ unsorted →
  (ctor node, dependencies node) ∈ graph_of unsorted.
Proof.
  intros Hd Hin. rewrite graph_of_distinct by done.
  apply list_elem_of_fmap. by exists node.
Qed.

Lemma tc_cycle_next {A} (R : relation A) c :
  tc R c c → ∃ c', R c c' ∧ tc R c' c'.
Proof.
  intros Hc. inversion Hc as [? ? HR|? y ? HR Ht]; subst.
  - exists c. split; [done | by apply tc_once].
  - exists y. split; [done | by eapply tc_r].
Qed.

Lemma sortSystems_cyclic unsorted :
  distinct unsorted → cyclic unsorted →
  sortSystems unsorted = Some (Throw DependencyGraphCyclic).
Proof.
  intros Hd [x Hx].
  apply (sortSystems_blocked (λ c, tc (depends_on unsorted) c c)); [|by exists x].
  intros c (c' & (node & Hn & <- & Hdep) & Hc')%tc_cycle_next.
  exists (dependencies node), c'. split_and!; [by apply graph_of_entry | done | by left].
Qed.

(** C3: when the dependency relation of the registered systems has a cycle,
    [sortSystems] throws the cyclic-graph error, and a [maintain] that fails
    so leaves the world, [sortedSystems] included, as it was. *)
Theorem maintain_cyclic {Store} `{EntityStore Store} (w : World) (st : Store) :
  distinct (sortedSystems w) → cyclic (sortedSystems w) →
  sortSystems (sortedSystems w) = Some (Throw DependencyGraphCyclic)
  ∧ maintain (w, st) = Some (Throw DependencyGraphCyclic, (w, st))
  ∧ ∀ r s', maintain (w, st) = Some (r, s') → sortedSystems s'.1 = sortedSystems w.
Proof.
  intros Hd Hc. pose proof (sortSystems_cyclic _ Hd Hc) as Hs.
  unfold maintain. rewrite Hs. simpl. split_and!; [done | done |].
  by intros r s' [= <- <-].
Qed.

(** C9, what the code does: a dependency on a constructor that was never
    registered is reported as a cyclic graph. *)
Theorem sortSystems_unregistered_dependency unsorted node d :
  distinct unsorted → node ∈ unsorted → d ∈ dependencies node →
  d ∉ ctor <$> unsorted →
  sortSystems unsorted = Some (Throw DependencyGraphCyclic).
Proof.
  intros Hd Hn Hdep Hunreg.
  apply (sortSystems_blocked (λ c, c = ctor node)); [|by eexists].
  intros c ->. exists (dependencies node), d.
  split_and!; [by apply graph_of_entry | done |].
  right. by rewrite graph_of_keys.
Qed.

(** ** Finite relations without a cycle *)

Section Cycles.
Context {A : Type} `{EqDecision A} (R : relation A).

Lemma chain_tc x l y : chain R x (l ++ [y]) → tc R x y.
Proof.
  revert x. induction l as [|z l IH]; intros x; simpl.
  - intros [HR _]. by apply tc_once.
  - intros [HR Hc]. eapply tc_l; [exact HR | by apply IH].
Qed.

Lemma chain_app x l1 y l2 :
  chain R x (l1 ++ y :: l2) → chain R x (l1 ++ [y]) ∧ chain R y l2.
Proof.
  revert x. induction l1 as [|z l1 IH]; intros x; simpl.
  - tauto.
  - intros [HR Hc]. destruct (IH _ Hc). tauto.
Qed.

Lemma duplicate_split (l : list A) :
  ¬ NoDup l → ∃ l1 y l2 l3, l = l1 ++ y :: l2 ++ y :: l3.
Proof.
  induction l as [|x l IH]; intros Hnd.
  - destruct Hnd. constructor.
  - destruct (decide (x ∈ l)) as [Hin|Hin].
    + apply list_elem_of_split in Hin as (l2 & l3 & ->).
      by exists [], x, l2, l3.
    + destruct IH as (l1 & y & l2 & l3 & ->).
      { intros Hl. apply Hnd. by constructor. }
      by exists (x :: l1), y, l2, l3.
Qed.

Lemma chain_repeat_cycle x l :
  chain R x l → ¬ NoDup (x :: l) → ∃ y, tc R y y.
Proof.
  intros Hc (l1 & y & l2 & l3 & Heq)%duplicate_split. exists y.
  assert (Hy : chain R y (l2 ++ y :: l3)).
  { destruct l1 as [|x' l1]; simplify_eq/=; [done|].
    by apply chain_app in Hc as [_ Hc]. }
  apply chain_app in Hy as [Hy _]. by eapply chain_tc.
Qed.

(** A non-empty part of a finite set in which every element is related to
    an element of the part holds a cycle. *)
Lemma closed_set_cycle (U : A → Prop) (univ : list A) :
  (∀ x, U x → x ∈ univ) →
  (∀ x, U x → ∃ y, R x y ∧ U y) →
  ∀ x, U x → ∃ y, tc R y y.
Proof.
  intros Huniv Hnext x Hx.
  assert (Hpath : ∀ n x, U x → ∃ l, length l = n ∧ chain R x l ∧ Forall U l).
  { clear x Hx. induction n as [|n IH]; intros x Hx.
    - by exists [].
    - destruct (Hnext x Hx) as (y & HR & Hy).
      destruct (IH y Hy) as (l & Hlen & Hc & HU).
      exists (y :: l). simpl. split_and!; [by rewrite Hlen | done | done | by constructor]. }
  destruct (Hpath (length univ) x Hx) as (l & Hlen & Hc & HU).
  apply (chain_repeat_cycle x l Hc). intros Hnd.
  assert (Hsub : x :: l ⊆+ univ).
  { apply NoDup_submseteq; [done|].
    intros z [->|Hz]%elem_of_cons; [auto|].
    rewrite Forall_forall in HU. auto. }
  apply submseteq_length in Hsub. simpl in Hsub. lia.
Qed.
End Cycles.

(** ** What is left of the graph once [L] is sorted *)

Lemma filter_none {A} (P : A → Prop) `{∀ x, Decision (P x)} (l : list A) :
  Forall (λ x, ¬ P x) l → filter P l = [].
Proof.
  induction 1 as [|x l Hx _ IH]; [done|].
  by rewrite filter_cons_False.
Qed.

Lemma residual_keys g0 L : (residual g0 L).*1 = g0.*1.
Proof.
  unfold residual. rewrite <- list_fmap_compose. by apply list_fmap_ext.
Qed.

Lemma residual_entry g0 L k v' :
  (k, v') ∈ residual g0 L ↔ ∃ v, (k, v) ∈ g0 ∧ v' = filter (λ d, d ∉ L) v.
Proof.
  unfold residual. rewrite list_elem_of_fmap. split.
  - intros ([k0 v] & [= -> ->] & Hin). by exists v.
  - intros (v & Hin & ->). by exists (k, v).
Qed.

Lemma residual_nil g0 : residual g0 [] = g0.
Proof.
  unfold residual. rewrite <- (list_fmap_id g0) at 2.
  apply list_fmap_ext. intros i [k v] _. simpl. f_equal.
  apply filter_all, Forall_forall. intros d _. apply not_elem_of_nil.
Qed.

Lemma round_residual g0 L n :
  (∀ k v, (k, v) ∈ g0 → NoDup v) →
  round n (residual g0 L) = residual g0 (L ++ [n]).
Proof.
  intros Hnd. unfold round, residual. rewrite <- list_fmap_compose.
  apply list_fmap_ext. intros i [k v] Hi. simpl.
  assert (Hv : NoDup v) by (eapply Hnd, list_elem_of_lookup_2, Hi).
  assert (Hf : filter (λ d, d ≠ n) (filter (λ d, d ∉ L) v)
               = filter (λ d, d ∉ L ++ [n]) v).
  { rewrite list_filter_filter. apply list_filter_iff. intros d.
    rewrite elem_of_app, list_elem_of_singleton. tauto. }
  destruct (decide (n ∈ filter (λ d, d ∉ L) v)) as [Hin|Hin].
  - f_equal. unfold removeFirst.
    rewrite splice1_indexOf_NoDup; [done | done | by apply NoDup_filter].
  - f_equal. rewrite <- Hf. symmetry. apply filter_all, Forall_forall.
    intros d Hd ->. done.
Qed.

(** ** Sorting an acyclic graph *)

Lemma NoDup_filter_keys {K V} (P : K * V → Prop) `{∀ x, Decision (P x)}
    (m : list (K * V)) :
  NoDup m.*1 → NoDup (filter P m).*1.
Proof.
  induction m as [|[k v] m IH]; [done|].
  rewrite fmap_cons, NoDup_cons. intros [Hk Hnd].
  rewrite filter_cons. destruct (decide (P (k, v))); [|auto].
  rewrite fmap_cons, NoDup_cons. split; [|auto].
  intros ([k' v'] & Hk' & Hin)%list_elem_of_fmap. simpl in Hk'. subst k'.
  apply list_elem_of_filter in Hin as [_ Hin].
  apply Hk, list_elem_of_fmap. by exists (k, v').
Qed.

Lemma NoDup_fmap_inj_on {A B} (f : A → B) (l : list A) x y :
  NoDup (f <$> l) → x ∈ l → y ∈ l → f x = f y → x = y.
Proof.
  induction l as [|z l IH]; [by intros _ ?%elem_of_nil|].
  rewrite fmap_cons, NoDup_cons. intros [Hz Hnd] Hx Hy Hf.
  apply elem_of_cons in Hx as [->|Hx]; apply elem_of_cons in Hy as [->|Hy].
  - done.
  - destruct Hz. rewrite Hf. by apply list_elem_of_fmap_2.
  - destruct Hz. rewrite <- Hf. by apply list_elem_of_fmap_2.
  - auto.
Qed.

Section Acyclic.
Variable unsorted : list TSystemNode.
Hypothesis Hdistinct : distinct unsorted.
Hypothesis Hsets : declared_sets unsorted.

Let g0 : Graph := graph_of unsorted.

Local Lemma g0_NoDup : NoDup g0.*1.
Proof. apply graph_of_keys_NoDup. Qed.

Local Lemma g0_entry k v :
  (k, v) ∈ g0 ↔ ∃ node, node ∈ unsorted ∧ ctor node = k ∧ dependencies node = v.
Proof.
  unfold g0. rewrite graph_of_distinct by done. rewrite list_elem_of_fmap.
  split.
  - intros (node & [= -> ->] & Hin). by exists node.
  - intros (node & Hin & <- & <-). by exists node.
Qed.

Local Lemma g0_edges_NoDup k v : (k, v) ∈ g0 → NoDup v.
Proof. intros (node & Hin & _ & <-)%g0_entry. by apply Hsets. Qed.

Local Lemma g0_edges_registered k v d : (k, v) ∈ g0 → d ∈ v → d ∈ g0.*1.
Proof.
  intros (node & Hin & _ & <-)%g0_entry Hd.
  apply graph_of_keys. by apply (Hsets node Hin).
Qed.

Local Lemma g0_key_entry k : k ∈ g0.*1 → ∃ v, (k, v) ∈ g0.
Proof. intros ([k' v] & -> & Hin)%list_elem_of_fmap. by exists v. Qed.

Local Lemma sorting_init : sorting g0 g0 (roots g0) [].
Proof.
  unfold sorting. simpl. split_and!.
  - by rewrite residual_nil.
  - apply NoDup_filter_keys, g0_NoDup.
  - apply roots_keys.
  - intros k v Hv. rewrite roots_entry. split.
    + intros (v' & Hv' & Hl) d Hd.
      rewrite (entry_unique g0 k v v' g0_NoDup Hv Hv') in Hd.
      destruct v'; [by apply elem_of_nil in Hd | done].
    + intros Hall. exists v. split; [done|].
      destruct v as [|d v]; [done|]. exfalso.
      apply (elem_of_nil d), Hall. left.
  - intros i k v d Hi. done.
Qed.

Local Lemma freed_residual L n k :
  n ∉ L →
  k ∈ freed n (residual g0 L) ↔
  ∃ v, (k, v) ∈ g0 ∧ n ∈ v ∧ ∀ d, d ∈ v → d ∈ L ∨ d = n.
Proof.
  intros HnL. split.
  - intros (v' & (v & Hv & ->)%residual_entry & Hn & Hlen)%freed_entry.
    exists v. apply list_elem_of_filter in Hn as Hn'. destruct Hn' as [_ Hnv].
    split_and!; [done | done |]. intros d Hd.
    destruct (decide (d ∈ L)) as [|HdL]; [by left|]. right.
    destruct (decide (d = n)) as [|Hne]; [done|]. exfalso.
    assert (Hd' : d ∈ filter (λ d, d ∉ L) v) by (by apply list_elem_of_filter).
    pose proof (splice1_indexOf_other n d _ Hn Hd' Hne) as Hin.
    fold (removeFirst n (filter (λ d, d ∉ L) v)) in Hin.
    destruct (removeFirst n _); [by apply elem_of_nil in Hin | done].
  - intros (v & Hv & Hnv & Hall). unfold freed.
    apply list_elem_of_fmap. exists (k, filter (λ d, d ∉ L) v).
    split; [done|]. apply list_elem_of_filter. simpl.
    assert (Hn : n ∈ filter (λ d, d ∉ L) v) by (by apply list_elem_of_filter).
    split_and!; [done | | by apply residual_entry; exists v].
    unfold removeFirst. rewrite splice1_indexOf_NoDup;
      [| done | eapply NoDup_filter, g0_edges_NoDup, Hv].
    rewrite filter_none; [done|]. apply Forall_forall.
    intros d [HdL Hd]%list_elem_of_filter Hne.
    destruct (Hall d Hd); done.
Qed.

Local Lemma sorting_round graph n S1 L :
  NoDup graph.*1 → sorting g0 graph (n :: S1) L →
  sorting g0 (round n graph) (S1 ++ freed n graph) (L ++ [n]).
Proof.
  intros _ (-> & Hnd & Hkeys & Hfree & Htopo).
  assert (HnL : n ∉ L).
  { apply NoDup_app in Hnd as (_ & Hd & _). intros Hn. apply (Hd n Hn). left. }
  assert (Hn : n ∈ L ++ n :: S1) by (apply elem_of_app; right; left).
  assert (Hassoc : (L ++ [n]) ++ S1 ++ freed n (residual g0 L)
                   = (L ++ n :: S1) ++ freed n (residual g0 L)).
  { by rewrite <- !app_assoc. }
  unfold sorting. rewrite Hassoc. split_and!.
  - apply round_residual, g0_edges_NoDup.
  - apply NoDup_app. split_and!; [done | |].
    + intros x Hx (v & Hv & Hnv & _)%freed_residual; [|done].
      apply HnL. by apply (Hfree x v Hv).
    + apply NoDup_filter_keys. rewrite residual_keys. apply g0_NoDup.
  - intros x [Hx|Hx]%elem_of_app; [auto|].
    apply freed_keys in Hx. by rewrite residual_keys in Hx.
  - intros k v Hv. rewrite elem_of_app, freed_residual by done. split.
    + intros [Hk|(v' & Hv' & Hnv & Hall)] d Hd.
      * apply elem_of_app. left. by apply (Hfree k v Hv).
      * rewrite (entry_unique g0 k v v' g0_NoDup Hv Hv') in Hd.
        rewrite elem_of_app, list_elem_of_singleton. auto.
    + intros Hall.
      destruct (decide (Forall (λ d, d ∈ L) v)) as [HL|HL].
      * left. apply (Hfree k v Hv). by apply Forall_forall.
      * right. exists v. apply not_Forall_Exists in HL; [|apply _].
        apply Exists_exists in HL as (d & Hd & HdL). simpl in HdL.
        split_and!; [done | |].
        -- specialize (Hall d Hd).
           apply elem_of_app in Hall as [? | ->%list_elem_of_singleton]; done.
        -- intros d' Hd'. specialize (Hall d' Hd').
           by rewrite elem_of_app, list_elem_of_singleton in Hall.
  - intros i k v d [[Hi Hk]|[-> <-]]%lookup_snoc_Some Hv Hd.
    + destruct (Htopo i k v d Hk Hv Hd) as (j & Hj & Hjd).
      exists j. split; [done|]. rewrite lookup_app_l; [done|lia].
    + pose proof (proj1 (Hfree n v Hv) Hn d Hd) as [j Hj]%list_elem_of_lookup.
      pose proof (lookup_lt_Some _ _ _ Hj).
      exists j. split; [done|]. by rewrite lookup_app_l.
Qed.

Hypothesis Hacyclic : acyclic unsorted.

(** With the loop over, every node is sorted. *)
Local Lemma sorting_complete graph L :
  sorting g0 graph [] L → ∀ k, k ∈ g0.*1 → k ∈ L.
Proof.
  intros (_ & _ & _ & Hfree & _) k Hk.
  destruct (decide (k ∈ L)) as [|HkL]; [done|]. exfalso.
  destruct (closed_set_cycle (depends_on unsorted)
              (λ x, x ∈ g0.*1 ∧ x ∉ L) g0.*1) with (x := k) as [y Hy];
    [tauto | | done | by apply (Hacyclic y)].
  intros x [Hx HxL]. destruct (g0_key_entry x Hx) as [v Hv].
  destruct (decide (Forall (λ d, d ∈ L) v)) as [HL|HL].
  - destruct HxL. rewrite <- (app_nil_r L).
    apply (Hfree x v Hv). by apply Forall_forall.
  - apply not_Forall_Exists in HL; [|apply _].
    apply Exists_exists in HL as (d & Hd & HdL). simpl in HdL.
    exists d. split_and!; [|by eapply g0_edges_registered | done].
    apply g0_entry in Hv as (node & Hin & <- & <-). by exists node.
Qed.

(** Where every system lists each of its dependencies once: for registered
    systems (one node per constructor) whose dependencies name registered
    systems and form no cycle, [sortSystems] returns the same nodes in an
    order where every system comes after all the systems it depends on. *)
Theorem sortSystems_topological :
  ∃ sorted, sortSystems unsorted = Some (Ok sorted)
            ∧ sorted ≡ₚ unsorted
            ∧ after_dependencies sorted.
Proof.
  destruct (sortSystems_cases (sorting g0) unsorted sorting_round sorting_init)
    as (g' & L' & HP & Hk & _ & Hok).
  pose proof (sorting_complete g' L' HP) as Hall.
  destruct HP as (-> & Hnd & Hkeys & Hfree & Htopo).
  rewrite app_nil_r in Hnd, Hkeys, Hfree.
  destruct (lookupNodes_Ok unsorted L') as (sorted & Hl & Hc & Hin).
  { intros t Ht. apply graph_of_keys. auto. }
  exists sorted. split_and!.
  - rewrite Hok; [by rewrite Hl|]. apply Forall_forall.
    intros v' ([k v''] & -> & Hv')%list_elem_of_fmap. simpl.
    apply residual_entry in Hv' as (v & Hv & ->).
    rewrite filter_none; [simpl; lia|]. apply Forall_forall.
    intros d Hd HdL. apply HdL. apply (Hfree k v Hv); [|done].
    apply Hall. apply list_elem_of_fmap. by exists (k, v).
  - apply NoDup_Permutation.
    + apply (NoDup_fmap_1 ctor). by rewrite Hc.
    + by apply (NoDup_fmap_1 ctor).
    + intros node. split; [auto|]. intros Hn.
      assert (Hcn : ctor node ∈ ctor <$> sorted).
      { rewrite Hc. apply Hall, graph_of_keys. by apply list_elem_of_fmap_2. }
      apply list_elem_of_fmap in Hcn as (node' & Heq & Hn').
      by rewrite (NoDup_fmap_inj_on ctor unsorted node node' Hdistinct Hn (Hin _ Hn') Heq).
  - intros i node d Hi Hd.
    assert (HLi : L' !! i = Some (ctor node)).
    { rewrite <- Hc, list_lookup_fmap, Hi. done. }
    assert (Hentry : (ctor node, dependencies node) ∈ g0).
    { apply g0_entry. exists node. split_and!; [|done|done].
      apply Hin. by eapply list_elem_of_lookup_2. }
    destruct (Htopo i _ _ d HLi Hentry Hd) as (j & Hj & Hjd).
    rewrite <- Hc, list_lookup_fmap in Hjd.
    destruct (sorted !! j) as [dn|] eqn:Hdn; [|done].
    exists j, dn. split_and!; [done | done |]. by injection Hjd.
Qed.
End Acyclic.


(** ** Registration *)

Lemma find_constructor_Some (sys : ISystem) (nodes : list TSystemNode) :
  constructor sys ∈ ctor <$> nodes →
  is_Some (JS.find (λ node, bool_decide (constructor (system node) = constructor sys))
                   nodes).
Proof.
  intros (node & Heq & Hin)%list_elem_of_fmap. unfold JS.find.
  destruct (List.find _ nodes) as [obj|] eqn:Hf; [by eexists|].
  apply list_elem_of_In in Hin.
  pose proof (find_none _ _ Hf node Hin) as Hb. simpl in Hb.
  rewrite bool_decide_eq_true_2 in Hb; done.
Qed.

Lemma find_constructor_None (sys : ISystem) (nodes : list TSystemNode) :
  constructor sys ∉ ctor <$> nodes →
  JS.find (λ node, bool_decide (constructor (system node) = constructor sys)) nodes
  = None.
Proof.
  intros Hnot. unfold JS.find.
  destruct (List.find _ nodes) as [obj|] eqn:Hf; [|done].
  apply find_some in Hf as [Hin Hb%bool_decide_eq_true_1].
  destruct Hnot. apply list_elem_of_fmap. exists obj.
  split; [done | by apply list_elem_of_In].
Qed.

(** C4: registering a system whose constructor is already registered throws
    the already-added error, by [registerSystemQuick] and by [registerSystem]
    alike, and the world (the registered systems and their dependencies
    included) is exactly as before. *)
Theorem registerSystem_duplicate {Store} `{EntityStore Store}
    (sys : ISystem) (deps : option (list TSystemProto)) (w : World) (st : Store) :
  constructor sys ∈ ctor <$> sortedSystems w →
  registerSystemQuick sys deps w
    = (Throw (SystemAlreadyAdded (name (constructor sys))), w)
  ∧ registerSystem sys deps (w, st)
    = Some (Throw (SystemAlreadyAdded (name (constructor sys))), (w, st)).
Proof.
  intros [obj Hf]%find_constructor_Some.
  unfold registerSystem, registerSystemQuick. by rewrite Hf.
Qed.

(** The builder refuses a second system of the same class in the same
    way. *)
Lemma withSystem_duplicate (sys : ISystem) (deps : option (list TSystemProto))
    (b : WorldBuilder) :
  constructor sys ∈ (constructor ∘ info_system) <$> JS.values (systemInfos b) →
  withSystem sys deps b
  = (Throw (SystemAlreadyRegistered (name (constructor sys))), b).
Proof.
  intros (info & Heq & Hin)%list_elem_of_fmap. unfold withSystem, JS.find.
  destruct (List.find _ _) as [obj|] eqn:Hf; [done|].
  apply list_elem_of_In in Hin.
  pose proof (find_none _ _ Hf info Hin) as Hb. simpl in Hb, Heq.
  rewrite bool_decide_eq_true_2 in Hb; done.
Qed.

(** A constructor is registered at most once. *)
Lemma registerSystemQuick_distinct sys deps w :
  distinct (sortedSystems w) →
  distinct (sortedSystems (registerSystemQuick sys deps w).2).
Proof.
  intros Hd. unfold registerSystemQuick.
  destruct (decide (constructor sys ∈ ctor <$> sortedSystems w)) as [Hin|Hin].
  - apply find_constructor_Some in Hin as [obj ->]. done.
  - rewrite find_constructor_None by done. simpl.
    unfold distinct. rewrite fmap_app. apply NoDup_app.
    split_and!; [done | | apply NoDup_singleton].
    intros x Hx ->%list_elem_of_singleton. done.
Qed.

(** ** The batch scheduler *)

(** The first loop keeps [step] on the last group, so it never meets a
    hole, and the array returned is empty whatever the run systems are. *)
Lemma depStep_Ok sys groups group :
  ∃ groups' group',
    depStep (groups ++ [Some group], length groups) sys
    = Ok (groups' ++ [Some group'], length groups').
Proof.
  assert (Hlast : ∀ (gs : list (option (list ISystem))) g,
            (gs ++ [Some g]) !! length gs = Some (Some g)).
  { intros gs g. by apply list_lookup_middle. }
  assert (Hpush : ∀ (gs : list (option (list ISystem))) g x,
            pushAt (length gs) x (gs ++ [Some g]) = Ok (gs ++ [Some (g ++ [x])])).
  { intros gs g x. unfold pushAt. rewrite Hlast. f_equal.
    rewrite insert_app_r_alt by done. by rewrite Nat.sub_diag. }
  assert (Hassign : ∀ (gs : list (option (list ISystem))) g,
            assign (length gs + 1) [] (gs ++ [Some g])
            = (gs ++ [Some g]) ++ [Some []]).
  { intros gs g. unfold assign. rewrite length_app. simpl.
    rewrite decide_False by lia. by rewrite Nat.sub_diag. }
  assert (Hlen : ∀ (gs : list (option (list ISystem))) g,
            length gs + 1 = length (gs ++ [Some g])).
  { intros. rewrite length_app. simpl. lia. }
  unfold depStep. destruct (hasDependencies sys).
  - rewrite Hlast. destruct (decide (0 < length group)).
    + exists ((groups ++ [Some group]) ++ [Some ([] ++ [run_system sys])]), [].
      rewrite Hassign, (Hlen groups group), Hpush, Hassign.
      by rewrite (Hlen _ ([] ++ [run_system sys])).
    + exists (groups ++ [Some (group ++ [run_system sys])]), [].
      rewrite Hpush, Hassign. by rewrite (Hlen _ (group ++ [run_system sys])).
  - exists groups, (group ++ [run_system sys]). by rewrite Hpush.
Qed.

Lemma depLoop_Ok rs groups group :
  ∃ groups' group',
    depLoop (groups ++ [Some group], length groups) rs
    = Ok (groups' ++ [Some group'], length groups').
Proof.
  revert groups group. induction rs as [|sys rs IH]; intros groups group.
  - by exists groups, group.
  - cbn [depLoop]. destruct (depStep_Ok sys groups group) as (groups1 & group1 & ->).
    apply IH.
Qed.

Lemma getScheduledRunSystems_empty w : getScheduledRunSystems w = Ok [].
Proof.
  unfold getScheduledRunSystems, depScheduler.
  destruct (depLoop_Ok (runSystems w) [] []) as (groups & group & Hl).
  simpl in Hl. rewrite Hl.
  generalize (groups ++ [Some group]). intros l. by induction l.
Qed.

(** So a dispatch calls [update] on no system at all. *)
Lemma dispatch_updates_nothing currentTime state w :
  (dispatch currentTime state w).1 = Ok [].
Proof. unfold dispatch. by rewrite getScheduledRunSystems_empty. Qed.

(** C1, at the scenario of the spec: with A and B free of dependencies and C
    depending on both, registered in that order, maintained and dispatched,
    the groups by dependency are [A, B], [C] and an empty one, but the
    schedule returned is empty, so it holds none of the three systems. *)
Theorem getScheduledRunSystems_scenario :
  sortSystems (sortedSystems registered) = Some (Ok (sortedSystems registered))
  ∧ let w := changeRunningState (defaultState registered) registered in
    runSystems w = [ {| run_system := a; hasDependencies := false |};
                     {| run_system := b; hasDependencies := false |};
                     {| run_system := c; hasDependencies := true |} ]
    ∧ depScheduler w = Ok [Some [a; b]; Some [c]; Some []]
    ∧ getScheduledRunSystems w = Ok []
    ∧ getScheduledRunSystems w ≠ Ok [[a; b]; [c]].
Proof. by vm_compute. Qed.

(** ** The dispatch loop *)

Lemma run_rejected configuration d :
  runPromise (world d) = true →
  run configuration d = (Throw DispatchLoopAlreadyRunning, d).
Proof. intros Hp. unfold run. by rewrite Hp. Qed.

Lemma run_accepted configuration d :
  runPromise (world d) = false → (run configuration d).1 = Ok ().
Proof. intros Hp. unfold run. rewrite Hp. by destruct (runState (world d)). Qed.

Lemma exec_resume_single d t now :
  tasks d = [t] →
  exec d (Resume 0 now)
  = {| world := (resumeTask now t (world d)).1.1;
       tasks := match (resumeTask now t (world d)).2 with
                | Some t' => [t']
                | None => []
                end;
       updates := updates d ++ (resumeTask now t (world d)).1.2 |}.
Proof.
  intros Ht. unfold exec. rewrite Ht. simpl.
  by destruct (resumeTask now t (world d)) as [[w us] [t'|]].
Qed.

(** Resuming the only task of a dispatcher: one step of [execs]. *)
Ltac resume_once Ht :=
  rewrite fmap_cons; cbn [execs foldl];
  rewrite (exec_resume_single _ _ _ Ht);
  cbn [resumeTask startGroups fst snd].

Lemma drain_queued d pre scheduledSystems times :
  tasks d = [QueuedMainLoop pre scheduledSystems] →
  shouldRunSystems (world d) = false → length times = 1 →
  drained d [] (execs d (Resume 0 <$> times)).
Proof.
  intros Ht Hs Hlen. destruct times as [|t0 [|]]; try done.
  change (execs d (Resume 0 <$> [t0])) with (exec d (Resume 0 t0)).
  rewrite (exec_resume_single _ _ _ Ht). simpl. rewrite Hs. simpl.
  split_and!; done.
Qed.

Lemma drain_frame_end d pre scheduledSystems currentTime times :
  tasks d = [AwaitFrameEnd pre scheduledSystems currentTime] →
  shouldRunSystems (world d) = false → length times = 2 →
  drained d [] (execs d (Resume 0 <$> times)).
Proof.
  intros Ht Hs Hlen. destruct times as [|t0 times]; [done|].
  resume_once Ht.
  match goal with |- drained _ _ (foldl exec ?d1 _) =>
    destruct (drain_queued d1 pre scheduledSystems times) as (H1 & H2 & H3);
      [done | done | simpl in Hlen; lia |]
  end.
  split_and!; [done | done |].
  unfold execs in *. rewrite H3. simpl. by rewrite !app_nil_r.
Qed.

Lemma drain_group d pre scheduledSystems pending currentTime deltaTime times :
  tasks d = [AwaitGroup pre scheduledSystems pending currentTime deltaTime] →
  shouldRunSystems (world d) = false → length times = length pending + 3 →
  drained d ((λ parallelSystem, (parallelSystem, deltaTime)) <$> concat pending)
    (execs d (Resume 0 <$> times)).
Proof.
  revert d times. induction pending as [|systems_ pending IH]; intros d times Ht Hs Hlen.
  - destruct times as [|t0 times]; [done|].
    resume_once Ht.
    match goal with |- drained _ _ (foldl exec ?d1 _) =>
      destruct (drain_frame_end d1 pre scheduledSystems currentTime times)
        as (H1 & H2 & H3); [done | done | simpl in Hlen; lia |]
    end.
    split_and!; [done | done |]. unfold execs in *. rewrite H3. simpl.
    by rewrite !app_nil_r.
  - destruct times as [|t0 times]; [done|].
    resume_once Ht.
    match goal with |- drained _ _ (foldl exec ?d1 _) =>
      destruct (IH d1 times) as (H1 & H2 & H3); [done | done | simpl in Hlen; lia |]
    end.
    split_and!; [done | done |]. unfold execs in *. rewrite H3. simpl.
    by rewrite fmap_app, app_assoc.
Qed.

Lemma drain_pre_frame d scheduledSystems currentTime deltaTime times :
  tasks d = [AwaitPreFrame scheduledSystems currentTime deltaTime] →
  shouldRunSystems (world d) = false → length times = length scheduledSystems + 3 →
  drained d ((λ parallelSystem, (parallelSystem, deltaTime)) <$> concat scheduledSystems)
    (execs d (Resume 0 <$> times)).
Proof.
  intros Ht Hs Hlen. destruct times as [|t0 times]; [simpl in Hlen; lia|].
  destruct scheduledSystems as [|systems_ rest]; resume_once Ht.
  - match goal with |- drained _ _ (foldl exec ?d1 _) =>
      destruct (drain_frame_end d1 true [] currentTime times)
        as (H1 & H2 & H3); [done | done | simpl in Hlen; lia |]
    end.
    split_and!; [done | done |]. unfold execs in *. rewrite H3. simpl.
    by rewrite !app_nil_r.
  - match goal with |- drained _ _ (foldl exec ?d1 _) =>
      destruct (drain_group d1 true (systems_ :: rest) rest currentTime deltaTime times)
        as (H1 & H2 & H3); [done | done | simpl in Hlen; lia |]
    end.
    split_and!; [done | done |]. unfold execs in *. rewrite H3. simpl.
    by rewrite fmap_app, app_assoc.
Qed.

Lemma drain_loop d t times :
  tasks d = [t] → isLoopTask t = true →
  shouldRunSystems (world d) = false → length times = pendingResumes t + 1 →
  drained d (pendingUpdates t) (execs d (Resume 0 <$> times)).
Proof.
  intros Ht Hloop Hs Hlen. destruct t; try done; simpl in Hlen |- *.
  - by eapply drain_queued.
  - eapply drain_pre_frame; [done | done | lia].
  - eapply drain_group; [done | done | lia].
  - eapply drain_frame_end; [done | done | lia].
Qed.

(** While the run promise of a dispatch loop is set, [run] is rejected
    with the already-running error and the dispatcher, its loop included,
    is untouched; once [stopRun] was called and the loop was resumed to its
    end, the frame under way has made all its update calls and no other, no
    task is left, and [run] is accepted again. *)
Theorem run_stop_run d t times configuration :
  tasks d = [t] → isLoopTask t = true → runPromise (world d) = true →
  length times = pendingResumes t + 1 →
  run configuration d = (Throw DispatchLoopAlreadyRunning, d)
  ∧ let d' := execs d (CallStopRun :: (Resume 0 <$> times)) in
    tasks d' = []
    ∧ updates d' = updates d ++ pendingUpdates t
    ∧ (run configuration d').1 = Ok ().
Proof.
  intros Ht Hloop Hp Hlen. split; [by apply run_rejected|].
  cbn [execs foldl exec].
  destruct (drain_loop (stopRun d) t times) as (H1 & H2 & H3); [done..|].
  split_and!; [done | done | by apply run_accepted].
Qed.

(** C8, where it fails: a [run] that is still in its set-up, awaiting the
    hooks of [changeRunningState], has not set the run promise yet, so a
    [run] called meanwhile is not rejected; it is accepted and begins a
    set-up of its own beside the first. *)
Theorem run_during_setup_accepted d t configuration :
  tasks d = [t] → isLoopTask t = false → runPromise (world d) = false →
  (run configuration d).1 = Ok ()
  ∧ ∃ t', tasks (run configuration d).2 = [t; t'] ∧ isLoopTask t' = false.
Proof.
  intros Ht _ Hp. unfold run. rewrite Hp, Ht.
  destruct (runState (world d)); cbn [fst snd tasks app];
    (split; [done | by eexists]).
Qed.

Lemma run_during_setup_accepted_witness :
  let d0 := {| world := registered; tasks := []; updates := [] |} in
  let d1 := (run None d0).2 in
  tasks d1 = [AwaitActivate false]
  ∧ (run None d1).1 = Ok ()
  ∧ ∃ t', tasks (run None d1).2 = [AwaitActivate false; t'] ∧ isLoopTask t' = false.
Proof.
  intros d0 d1. split; [reflexivity|].
  apply (run_during_setup_accepted d1 (AwaitActivate false) None);
    reflexivity.
Defined.

(** Both set-ups then run to their end, and the one world has two dispatch
    loops queued. *)
Remark run_twice_two_loops :
  let d0 := {| world := registered; tasks := []; updates := [] |} in
  let d := execs d0 [CallRun None; CallRun None;
                     Resume 0 100%Z; Resume 1 100%Z; Resume 1 100%Z] in
  tasks d = [QueuedMainLoop false []; QueuedMainLoop false []]
  ∧ runPromise (world d) = true.
Proof. by vm_compute. Qed.

(** Before the run promise is set, that is until the first [run] has come
    back from [changeRunningState], a second [run] is accepted as well. *)
Remark run_twice_before_loop_starts :
  let d0 := {| world := registered; tasks := []; updates := [] |} in
  let d1 := (run None d0).2 in
  (run None d0).1 = Ok () ∧ runPromise (world d1) = false
  ∧ (run None d1).1 = Ok ().
Proof. by vm_compute. Qed.

Lemma run_stop_run_witness :
  tasks running = [QueuedMainLoop false []]
  ∧ runPromise (world running) = true
  ∧ run None running = (Throw DispatchLoopAlreadyRunning, running)
  ∧ (run None (execs running [CallStopRun; Resume 0 200%Z])).1 = Ok ().
Proof.
  assert (Ht : tasks running = [QueuedMainLoop false []]) by reflexivity.
  assert (Hp : runPromise (world running) = true) by reflexivity.
  destruct (run_stop_run running (QueuedMainLoop false []) [200%Z] None
              Ht eq_refl Hp eq_refl) as (Hr & _ & _ & Ha).
  split_and!; [exact Ht | exact Hp | exact Hr | exact Ha].
Defined.

(** ** Worked cases *)



(** Dependencies that point to lower ranks form no cycle. *)
Lemma acyclic_by_rank (rank : TSystemProto → nat) nodes :
  Forall (λ node, Forall (λ d, rank d < rank (ctor node)) (dependencies node)) nodes →
  acyclic nodes.
Proof.
  intros Hrank.
  assert (Hstep : ∀ x y, depends_on nodes x y → rank y < rank x).
  { intros x y (node & Hin & <- & Hd).
    rewrite Forall_forall in Hrank. specialize (Hrank node Hin).
    rewrite Forall_forall in Hrank. auto. }
  assert (Htc : ∀ x y, tc (depends_on nodes) x y → rank y < rank x).
  { induction 1 as [x y HR|x y z HR _ IH]; [auto|].
    apply Hstep in HR. lia. }
  intros x Hx%Htc. lia.
Qed.

Lemma declared_sets_Forall nodes :
  Forall (λ node, NoDup (dependencies node)
                  ∧ Forall (λ d, d ∈ ctor <$> nodes) (dependencies node)) nodes →
  declared_sets nodes.
Proof.
  rewrite Forall_forall. intros Hall node Hin.
  destruct (Hall node Hin) as [Hnd Hreg]. split; [done|].
  by rewrite Forall_forall in Hreg.
Qed.

Lemma sortSystems_topological_witness :
  ∃ sorted, sortSystems (sortedSystems registered) = Some (Ok sorted)
            ∧ sorted ≡ₚ sortedSystems registered
            ∧ after_dependencies sorted.
Proof.
  apply (sortSystems_topological (sortedSystems registered)).
  - by_computation.
  - apply declared_sets_Forall. by_computation.
  - apply (acyclic_by_rank proto_id). by_computation.
Defined.

Lemma entangled_cyclic : cyclic (sortedSystems entangled).
Proof.
  exists A. eapply tc_l; [|apply tc_once].
  - exists (node a [B]). split_and!; [repeat constructor | done | repeat constructor].
  - exists (node b [A]). split_and!; [repeat constructor | done | repeat constructor].
Defined.

Lemma maintain_cyclic_witness :
  let st : Components := λ _, ∅ in
  sortSystems (sortedSystems entangled) = Some (Throw DependencyGraphCyclic)
  ∧ maintain (entangled, st) = Some (Throw DependencyGraphCyclic, (entangled, st)).
Proof.
  intros st.
  assert (Hd : distinct (sortedSystems entangled))
    by by_computation.
  destruct (maintain_cyclic (Store := Components) entangled st Hd entangled_cyclic)
    as (Hs & Hm & _).
  split; [exact Hs | exact Hm].
Defined.

Lemma registerSystem_duplicate_witness :
  let st : Components := λ _, ∅ in
  let a' := {| sys_ref := 20; constructor := A |} in
  registerSystemQuick a' None registered = (Throw (SystemAlreadyAdded "A"), registered)
  ∧ registerSystem a' None (registered, st)
    = Some (Throw (SystemAlreadyAdded "A"), (registered, st)).
Proof.
  intros st a'.
  assert (Hin : constructor a' ∈ ctor <$> sortedSystems registered)
    by by_computation.
  exact (registerSystem_duplicate (Store := Components) a' None registered st Hin).
Defined.

(** C depends on X, which nobody registered. *)
Lemma sortSystems_unregistered_dependency_witness :
  sortSystems [node c [X]; node b []] = Some (Throw DependencyGraphCyclic).
Proof.
  apply (sortSystems_unregistered_dependency [node c [X]; node b []] (node c [X]) X).
  - by_computation.
  - repeat constructor.
  - repeat constructor.
  - by_computation.
Defined.

(** A dependency listed twice is removed once, so its system stays blocked
    although nothing is cyclic. *)
Remark sortSystems_repeated_dependency :
  sortSystems [node a []; node b [A; A]] = Some (Throw DependencyGraphCyclic).
Proof. reflexivity. Qed.

(** C2, at a failing input: A registered without dependencies and B with
    the dependencies [[A; A]] are two registered systems, every dependency
    is registered and nothing is cyclic (B depends on A, A on nothing);
    yet [sortSystems] throws the error for a cyclic graph, and so does
    [maintain], leaving the world as it is.  [withSystem], given the same
    declarations, stores A once for B. *)
Theorem sortSystems_repeated_dependency_scenario :
  let w := (registerSystemQuick b (Some [A; A])
              (registerSystemQuick a None new_World).2).2 in
  let builder := (withSystem b (Some [A; A])
                    (withSystem a None {| systemInfos := [] |}).2).2 in
  sortedSystems w = [node a []; node b [A; A]]
  ∧ distinct (sortedSystems w)
  ∧ (∀ nd d, nd ∈ sortedSystems w → d ∈ dependencies nd →
       d ∈ ctor <$> sortedSystems w)
  ∧ acyclic (sortedSystems w)
  ∧ sortSystems (sortedSystems w) = Some (Throw DependencyGraphCyclic)
  ∧ (∀ st : Components, maintain (w, st) = Some (Throw DependencyGraphCyclic, (w, st)))
  ∧ info_dependencies <$> JS.values (systemInfos builder) = [[]; [A]].
Proof.
  intros w builder. split_and!.
  - reflexivity.
  - by_computation.
  - intros nd d Hnd Hd.
    assert (Hall : Forall (λ nd, Forall (λ d, d ∈ ctor <$> sortedSystems w)
                                        (dependencies nd)) (sortedSystems w))
      by by_computation.
    rewrite Forall_forall in Hall. specialize (Hall nd Hnd).
    rewrite Forall_forall in Hall. by apply Hall.
  - apply (acyclic_by_rank proto_id). by_computation.
  - reflexivity.
  - intros st. reflexivity.
  - reflexivity.
Qed.

(** ** One node per constructor, in every world *)

(** What the sorter returns holds no constructor twice. *)
Lemma sortSystems_distinct unsorted sorted :
  sortSystems unsorted = Some (Ok sorted) → distinct sorted.
Proof.
  intros Hs.
  destruct (sortSystems_cases
    (λ graph S L, NoDup (L ++ S) ∧ ∀ x, x ∈ L ++ S → (x, []) ∈ graph) unsorted)
    as (g' & L' & (Hnd & _) & _ & Hc & Hn).
  - intros graph n S1 L Hkeys (Hnd & Hempty).
    assert (Hassoc : (L ++ [n]) ++ S1 ++ freed n graph
                     = (L ++ n :: S1) ++ freed n graph).
    { by rewrite <- !app_assoc. }
    rewrite Hassoc. split.
    + apply NoDup_app. split_and!; [done | | by apply NoDup_filter_keys].
      intros x Hx (v & Hv & Hnv & _)%freed_entry.
      rewrite <- (entry_unique graph x [] v Hkeys (Hempty x Hx) Hv) in Hnv.
      by apply elem_of_nil in Hnv.
    + intros x [Hx|Hx]%elem_of_app.
      * pose proof (round_entry n graph x [] (Hempty x Hx)) as Hr.
        rewrite decide_False in Hr; [done | apply not_elem_of_nil].
      * apply freed_entry in Hx as (v & Hv & Hnv & Hlen).
        pose proof (round_entry n graph x v Hv) as Hr.
        rewrite decide_True in Hr by done.
        by rewrite (nil_length_inv _ Hlen) in Hr.
  - split.
    + simpl. apply NoDup_filter_keys, graph_of_keys_NoDup.
    + intros x (v & Hv & Hlen)%roots_entry. by rewrite <- (nil_length_inv _ Hlen).
  - rewrite app_nil_r in Hnd.
    destruct (decide (Exists (λ v, 0 < length v) g'.*2)) as [Hex|Hex].
    + rewrite Hc in Hs; done.
    + rewrite Hn in Hs by (by apply not_Exists_Forall; [intros ?; apply _|]).
      injection Hs as Hl. apply lookupNodes_ctor in Hl.
      unfold distinct. by rewrite Hl.
Qed.

Lemma changeRunningState_sortedSystems newState w :
  sortedSystems (changeRunningState newState w) = reverse (sortedSystems w).
Proof.
  unfold changeRunningState. by destruct (foldl _ _ _).
Qed.

(** The registration guard keeps one node per constructor in every world
    that can be reached. *)
Lemma reachable_distinct w : reachable w → distinct (sortedSystems w).
Proof.
  induction 1 as [|sys deps w _ IH|w sorted _ _ Hs|newState w _ IH].
  - constructor.
  - by apply registerSystemQuick_distinct.
  - by apply sortSystems_distinct in Hs.
  - rewrite changeRunningState_sortedSystems. unfold distinct.
    by rewrite fmap_reverse, reverse_Permutation.
Qed.

(** * Further properties *)

(** ** The sorter, whatever it is given *)

Lemma round_entry_inv n (graph : Graph) k v' :
  (k, v') ∈ round n graph →
  ∃ v, (k, v) ∈ graph ∧ v' = if decide (n ∈ v) then removeFirst n v else v.
Proof.
  unfold round. intros ([k0 v] & Heq & Hin)%list_elem_of_fmap. simpl in Heq.
  exists v. destruct (decide (n ∈ v)); injection Heq as -> ->; done.
Qed.

Lemma freed_intro n (graph : Graph) k v :
  (k, v) ∈ graph → n ∈ v → removeFirst n v = [] → k ∈ freed n graph.
Proof.
  intros Hin Hn Hr. unfold freed. apply list_elem_of_fmap. exists (k, v).
  split; [done|]. apply list_elem_of_filter. simpl. by rewrite Hr.
Qed.

Lemma progress_init (g0 : Graph) : NoDup g0.*1 → progress g0 g0 (roots g0) [].
Proof.
  intros Hnd. unfold progress. simpl. split_and!.
  - by apply NoDup_filter_keys.
  - intros x (v & Hv & Hlen)%roots_entry. by rewrite <- (nil_length_inv _ Hlen).
  - intros k Hk. apply roots_entry. by exists [].
  - intros k v0 v d Hv0 Hv Hd. left.
    by rewrite <- (entry_unique g0 k v0 v Hnd Hv0 Hv).
  - intros i k v0 d Hi. done.
Qed.

Lemma progress_round (g0 graph : Graph) n S1 L :
  NoDup graph.*1 → progress g0 graph (n :: S1) L →
  progress g0 (round n graph) (S1 ++ freed n graph) (L ++ [n]).
Proof.
  intros Hkeys (Hnd & Hempty & Hqueued & Hedges & Htopo).
  assert (Hassoc : (L ++ [n]) ++ S1 ++ freed n graph
                   = (L ++ n :: S1) ++ freed n graph).
  { by rewrite <- !app_assoc. }
  assert (Hn : n ∈ L ++ n :: S1) by (apply elem_of_app; right; left).
  unfold progress. rewrite Hassoc. split_and!.
  - apply NoDup_app. split_and!; [done | | by apply NoDup_filter_keys].
    intros x Hx (v & Hv & Hnv & _)%freed_entry.
    rewrite <- (entry_unique graph x [] v Hkeys (Hempty x Hx) Hv) in Hnv.
    by apply elem_of_nil in Hnv.
  - intros x [Hx|Hx]%elem_of_app.
    + pose proof (round_entry n graph x [] (Hempty x Hx)) as Hr.
      rewrite decide_False in Hr; [done | apply not_elem_of_nil].
    + apply freed_entry in Hx as (v & Hv & Hnv & Hlen).
      pose proof (round_entry n graph x v Hv) as Hr.
      rewrite decide_True in Hr by done.
      by rewrite (nil_length_inv _ Hlen) in Hr.
  - intros k (v & Hv & Heq)%round_entry_inv. apply elem_of_app.
    destruct (decide (n ∈ v)) as [Hnv|Hnv].
    + right. by eapply freed_intro.
    + left. apply Hqueued. by rewrite Heq.
  - intros k v0 v' d Hv0 (v & Hv & ->)%round_entry_inv Hd.
    rewrite elem_of_app, list_elem_of_singleton.
    destruct (Hedges k v0 v d Hv0 Hv Hd) as [Hdv|HdL]; [|auto].
    destruct (decide (n ∈ v)) as [Hnv|Hnv]; [|auto].
    destruct (decide (d = n)) as [->|Hne]; [auto|].
    left. by apply splice1_indexOf_other.
  - intros i k v0 d [[Hi Hk]|[-> <-]]%lookup_snoc_Some Hv0 Hd.
    + destruct (Htopo i k v0 d Hk Hv0 Hd) as (j & Hj & Hjd).
      exists j. split; [done|]. rewrite lookup_app_l; [done|lia].
    + destruct (Hedges n v0 [] d Hv0 (Hempty n Hn) Hd) as [Hnil|HdL];
        [by apply elem_of_nil in Hnil|].
      apply list_elem_of_lookup in HdL as [j Hj].
      pose proof (lookup_lt_Some _ _ _ Hj).
      exists j. split; [done|]. by rewrite lookup_app_l.
Qed.

(** Where the loop stands when [sortSystems] returns an order. *)
Lemma sortSystems_Ok_final unsorted sorted :
  sortSystems unsorted = Some (Ok sorted) →
  ∃ L, NoDup L
       ∧ (∀ k, k ∈ L ↔ k ∈ ctor <$> unsorted)
       ∧ (∀ i k v0 d, L !! i = Some k → (k, v0) ∈ graph_of unsorted → d ∈ v0 →
            ∃ j, j < i ∧ L !! j = Some d)
       ∧ lookupNodes unsorted L = Ok sorted.
Proof.
  intros Hs.
  destruct (sortSystems_cases (progress (graph_of unsorted)) unsorted)
    as (g' & L' & HP & Hk & Hc & Hn).
  - intros graph n S1 L. apply progress_round.
  - apply progress_init, graph_of_keys_NoDup.
  - destruct HP as (Hnd & Hempty & Hqueued & _ & Htopo).
    rewrite app_nil_r in Hnd. exists L'.
    destruct (decide (Exists (λ v, 0 < length v) g'.*2)) as [Hex|Hex].
    { rewrite Hc in Hs; done. }
    apply not_Exists_Forall in Hex; [|intros ?; apply _].
    rewrite Hn in Hs by done. injection Hs as Hl.
    split_and!; [done | | done | done].
    intros k. rewrite <- graph_of_keys, <- Hk. split.
    + intros Hin. specialize (Hempty k). rewrite app_nil_r in Hempty.
      apply list_elem_of_fmap. exists (k, []). split; [done | auto].
    + intros ([k' v] & -> & Hin)%list_elem_of_fmap. simpl.
      specialize (Hqueued k'). rewrite app_nil_r in Hqueued. apply Hqueued.
      rewrite Forall_forall in Hex.
      assert (Hv : ¬ 0 < length v).
      { apply Hex. apply list_elem_of_fmap. by exists (k', v). }
      destruct v; [done | simpl in Hv; lia].
Qed.

Lemma sortSystems_Ok_sound unsorted sorted :
  distinct unsorted → sortSystems unsorted = Some (Ok sorted) →
  sorted ≡ₚ unsorted ∧ after_dependencies sorted.
Proof.
  intros Hd (L & Hnd & Hall & Htopo & Hl)%sortSystems_Ok_final.
  pose proof (lookupNodes_ctor _ _ _ Hl) as Hc.
  destruct (lookupNodes_Ok unsorted L) as (sorted' & Hl' & _ & Hin).
  { intros t. apply Hall. }
  rewrite Hl in Hl'. injection Hl' as <-.
  split.
  - apply NoDup_Permutation.
    + apply (NoDup_fmap_1 ctor). by rewrite Hc.
    + by apply (NoDup_fmap_1 ctor).
    + intros node. split; [auto|]. intros Hn.
      assert (Hcn : ctor node ∈ ctor <$> sorted).
      { rewrite Hc. apply Hall. by apply list_elem_of_fmap_2. }
      apply list_elem_of_fmap in Hcn as (node' & Heq & Hn').
      by rewrite (NoDup_fmap_inj_on ctor unsorted node node' Hd Hn (Hin _ Hn') Heq).
  - intros i node d Hi Hdep.
    assert (HLi : L !! i = Some (ctor node)).
    { rewrite <- Hc, list_lookup_fmap, Hi. done. }
    assert (Hentry : (ctor node, dependencies node) ∈ graph_of unsorted).
    { apply graph_of_entry; [done|]. apply Hin. by eapply list_elem_of_lookup_2. }
    destruct (Htopo i _ _ d HLi Hentry Hdep) as (j & Hj & Hjd).
    rewrite <- Hc, list_lookup_fmap in Hjd.
    destruct (sorted !! j) as [dn|] eqn:Hdn; [|done].
    exists j, dn. split_and!; [done | done |]. by injection Hjd.
Qed.

(** Whenever [sortSystems] returns an order, for nodes of distinct
    constructors, it is the same nodes, each after all its dependencies:
    no further assumption on the declarations is needed. *)
Theorem sortSystems_sound unsorted sorted :
  distinct unsorted → sortSystems unsorted = Some (Ok sorted) →
  sorted ≡ₚ unsorted ∧ after_dependencies sorted.
Proof. apply sortSystems_Ok_sound. Qed.

Lemma removeFirst_count_other (n d : TSystemProto) v :
  n ∈ v → d ≠ n →
  length (filter (λ y, y = d) (removeFirst n v)) = length (filter (λ y, y = d) v).
Proof.
  intros (l1 & l2 & -> & _ & Hs)%splice1_indexOf_split Hne.
  unfold removeFirst. rewrite Hs, !filter_app, filter_cons_False by congruence.
  done.
Qed.

Lemma removeFirst_count_same (n : TSystemProto) v :
  n ∈ v →
  S (length (filter (λ y, y = n) (removeFirst n v))) = length (filter (λ y, y = n) v).
Proof.
  intros (l1 & l2 & -> & _ & Hs)%splice1_indexOf_split.
  unfold removeFirst. rewrite Hs, !filter_app, filter_cons_True by done.
  rewrite !length_app. simpl. lia.
Qed.

Lemma filter_eq_elem_of {A} `{EqDecision A} (d : A) (l : list A) :
  0 < length (filter (λ y, y = d) l) → d ∈ l.
Proof.
  destruct (filter (λ y, y = d) l) as [|x f] eqn:Hf; simpl; [lia|]. intros _.
  assert (Hx : x ∈ filter (λ y, y = d) l) by (rewrite Hf; left).
  by apply list_elem_of_filter in Hx as [-> ?].
Qed.

Lemma repeated_count {A} `{EqDecision A} (l : list A) :
  ¬ NoDup l → ∃ d, 2 ≤ length (filter (λ y, y = d) l).
Proof.
  intros (l1 & d & l2 & l3 & ->)%duplicate_split. exists d.
  rewrite filter_app, filter_cons_True, filter_app, filter_cons_True by done.
  rewrite !length_app. simpl. rewrite length_app. simpl. lia.
Qed.

(** A system that lists a dependency twice is never sorted: the round of
    that dependency takes one of the two away, and no other round takes the
    second, so [sortSystems] ends with the error for a cyclic graph, cycle
    or not. *)
Lemma repeated_dependency_blocks unsorted node :
  distinct unsorted → node ∈ unsorted → ¬ NoDup (dependencies node) →
  sortSystems unsorted = Some (Throw DependencyGraphCyclic).
Proof.
  intros Hd Hin [d Hcount]%repeated_count.
  destruct (sortSystems_cases
    (λ graph S L,
       progress (graph_of unsorted) graph S L
       ∧ ∃ v, (ctor node, v) ∈ graph
              ∧ (if decide (d ∈ L) then 1 else 2) ≤ length (filter (λ y, y = d) v))
    unsorted) as (g' & L' & (_ & v & Hv & Hc) & _ & Hthrow & _).
  - intros graph n S1 L Hkeys (HP & v & Hv & Hc).
    split; [by apply progress_round|].
    assert (HnL : n ∉ L).
    { destruct HP as (Hnd & _). apply NoDup_app in Hnd as (_ & Hdis & _).
      intros Hn. apply (Hdis n Hn). left. }
    exists (if decide (n ∈ v) then removeFirst n v else v).
    split; [by apply round_entry|].
    destruct (decide (d = n)) as [->|Hne].
    + rewrite decide_False in Hc by done.
      rewrite decide_True by (apply elem_of_app; right; left).
      destruct (decide (n ∈ v)) as [Hnv|Hnv].
      * pose proof (removeFirst_count_same n v Hnv). lia.
      * lia.
    + assert (Hiff : d ∈ L ++ [n] ↔ d ∈ L).
      { rewrite elem_of_app, list_elem_of_singleton. tauto. }
      rewrite (decide_ext _ _ _ _ Hiff).
      destruct (decide (n ∈ v)) as [Hnv|Hnv]; [|done].
      by rewrite removeFirst_count_other.
  - split; [apply progress_init, graph_of_keys_NoDup|].
    exists (dependencies node). split; [by apply graph_of_entry|].
    rewrite decide_False by apply not_elem_of_nil. done.
  - apply Hthrow. apply Exists_exists. exists v. split.
    + apply list_elem_of_fmap. by exists (ctor node, v).
    + assert (Hdv : d ∈ v).
      { apply filter_eq_elem_of. destruct (decide (d ∈ L')); lia. }
      destruct v; [by apply elem_of_nil in Hdv | simpl; lia].
Qed.

Lemma sortSystems_succeeds unsorted :
  well_formed unsorted → ∃ sorted, sortSystems unsorted = Some (Ok sorted).
Proof.
  intros (Hd & Hsets & Hacyclic).
  destruct (sortSystems_cases (sorting (graph_of unsorted)) unsorted
              (sorting_round unsorted Hd Hsets) (sorting_init unsorted))
    as (g' & L' & HP & Hk & _ & Hok).
  pose proof (sorting_complete unsorted Hd Hsets Hacyclic g' L' HP) as Hall.
  destruct HP as (-> & _ & Hkeys & Hfree & _).
  rewrite app_nil_r in Hkeys.
  destruct (lookupNodes_Ok unsorted L') as (sorted & Hl & _).
  { intros t Ht. apply graph_of_keys. auto. }
  exists sorted. rewrite Hok; [by rewrite Hl|]. apply Forall_forall.
  intros v' ([k v''] & -> & Hv')%list_elem_of_fmap. simpl.
  apply residual_entry in Hv' as (v & Hv & ->).
  rewrite filter_none; [simpl; lia|]. apply Forall_forall.
  intros d Hd' HdL. apply HdL.
  assert (Hk' : k ∈ L' ++ []).
  { rewrite app_nil_r. apply Hall. apply list_elem_of_fmap. by exists (k, v). }
  by apply (Hfree k v Hv).
Qed.

Lemma find_position {A} `{EqDecision A} (l : list A) i x :
  NoDup l → l !! i = Some x → list_find (λ y, y = x) l = Some (i, x).
Proof.
  intros Hnd Hi. apply list_find_Some. split_and!; [done | done |].
  intros j y Hj Hlt ->. pose proof (NoDup_lookup l i j x Hnd Hi Hj). lia.
Qed.

Lemma acyclic_by_order (rank : TSystemProto → nat) nodes :
  (∀ x y, depends_on nodes x y → rank y < rank x) → acyclic nodes.
Proof.
  intros Hstep.
  assert (Htc : ∀ x y, tc (depends_on nodes) x y → rank y < rank x).
  { induction 1 as [x y HR|x y z HR _ IH]; [auto|].
    apply Hstep in HR. lia. }
  intros x Hx%Htc. lia.
Qed.

(** For nodes of distinct constructors, [sortSystems] returns an order
    exactly when every dependency is listed once, names a registered system
    and no cycle runs through the dependencies; in every other case it ends
    with the error for a cyclic graph. *)
Theorem sortSystems_succeeds_iff unsorted :
  distinct unsorted →
  ((∃ sorted, sortSystems unsorted = Some (Ok sorted))
   ↔ declared_sets unsorted ∧ acyclic unsorted)
  ∧ (sortSystems unsorted = Some (Throw DependencyGraphCyclic)
     ↔ ¬ (declared_sets unsorted ∧ acyclic unsorted)).
Proof.
  intros Hd.
  assert (Hiff : (∃ sorted, sortSystems unsorted = Some (Ok sorted))
                 ↔ declared_sets unsorted ∧ acyclic unsorted).
  { split; [|intros [? ?]; by apply sortSystems_succeeds].
    intros [sorted Hs].
    destruct (sortSystems_Ok_sound _ _ Hd Hs) as [Hperm Hafter].
    assert (Hds : distinct sorted) by (unfold distinct; by rewrite Hperm).
    split.
    - intros node Hin. split.
      + destruct (decide (NoDup (dependencies node))) as [|Hrep]; [done|].
        rewrite (repeated_dependency_blocks _ _ Hd Hin Hrep) in Hs. done.
      + intros d Hdep.
        assert (Hin' : node ∈ sorted) by (by rewrite Hperm).
        apply list_elem_of_lookup in Hin' as [i Hi].
        destruct (Hafter i node d Hi Hdep) as (j & dn & _ & Hj & <-).
        apply list_elem_of_fmap_2. rewrite <- Hperm.
        by eapply list_elem_of_lookup_2.
    - apply (acyclic_by_order
               (λ c, match list_find (λ y, y = c) (ctor <$> sorted) with
                     | Some (i, _) => i
                     | None => 0
                     end)).
      intros x y (node & Hin & <- & Hdep).
      assert (Hin' : node ∈ sorted) by (by rewrite Hperm).
      apply list_elem_of_lookup in Hin' as [i Hi].
      destruct (Hafter i node y Hi Hdep) as (j & dn & Hlt & Hj & <-).
      rewrite (find_position (ctor <$> sorted) i (ctor node)),
              (find_position (ctor <$> sorted) j (ctor dn));
        [done | done | by rewrite list_lookup_fmap, Hj
        | done | by rewrite list_lookup_fmap, Hi]. }
  split; [done|]. rewrite <- Hiff. split.
  - intros Hs [sorted Hs']. congruence.
  - intros Hno. destruct (sortSystems_outcomes unsorted) as [|Hok]; [done|].
    by destruct Hno.
Qed.

Lemma sortSystems_succeeds_iff_witness :
  (∃ sorted, sortSystems (sortedSystems registered) = Some (Ok sorted))
  ↔ declared_sets (sortedSystems registered) ∧ acyclic (sortedSystems registered).
Proof.
  apply (sortSystems_succeeds_iff (sortedSystems registered)). by_computation.
Defined.

(** For every input whatsoever the sorter ends, and it ends in one of two
    ways: with the error for a cyclic graph, or with nodes of the input, no
    constructor twice.  The error for a system that was not registered and
    a call on [undefined] never happen. *)
Theorem sortSystems_any_input unsorted :
  sortSystems unsorted = Some (Throw DependencyGraphCyclic)
  ∨ ∃ sorted, sortSystems unsorted = Some (Ok sorted)
              ∧ distinct sorted
              ∧ ∀ node, node ∈ sorted → node ∈ unsorted.
Proof.
  destruct (sortSystems_outcomes unsorted) as [Hc|[sorted Hs]]; [by left|].
  right. exists sorted. split_and!; [done | by eapply sortSystems_distinct |].
  apply sortSystems_Ok_final in Hs as (L & _ & Hall & _ & Hl).
  destruct (lookupNodes_Ok unsorted L) as (sorted' & Hl' & _ & Hin).
  { intros t. apply Hall. }
  rewrite Hl in Hl'. by injection Hl' as <-.
Qed.

(** ** Sorting what is sorted *)

Lemma sublist_unique {A} (l l1 l2 : list A) :
  NoDup l → l1 `sublist_of` l → l2 `sublist_of` l →
  (∀ x, x ∈ l1 ↔ x ∈ l2) → l1 = l2.
Proof.
  revert l1 l2. induction l as [|x l IH]; intros l1 l2 Hnd H1 H2 Heq.
  - apply sublist_nil_r in H1, H2. by subst.
  - apply NoDup_cons in Hnd as [Hx Hnd].
    apply sublist_cons_r in H1 as [H1|(l1' & -> & H1)];
      apply sublist_cons_r in H2 as [H2|(l2' & -> & H2)].
    + by apply IH.
    + destruct Hx. eapply (sublist_submseteq l1 l), elem_of_submseteq in H1; [done|].
      apply Heq. left.
    + destruct Hx. eapply (sublist_submseteq l2 l), elem_of_submseteq in H2; [done|].
      apply Heq. left.
    + f_equal. apply IH; [done..|]. intros y.
      assert (Hne : ∀ l', l' `sublist_of` l → y ∈ l' → y ≠ x).
      { intros l' Hl' Hy ->. apply Hx.
        by eapply (sublist_submseteq l' l), elem_of_submseteq in Hl'. }
      specialize (Heq y). rewrite !elem_of_cons in Heq. split; intros Hy.
      * destruct (proj1 Heq (or_intror Hy)) as [->|]; [|done].
        by destruct (Hne l1' H1 Hy).
      * destruct (proj2 Heq (or_intror Hy)) as [->|]; [|done].
        by destruct (Hne l2' H2 Hy).
Qed.

Lemma filter_keys_sublist {K V} (P : K * V → Prop) `{∀ x, Decision (P x)}
    (m : list (K * V)) :
  (filter P m).*1 `sublist_of` m.*1.
Proof. apply fmap_sublist, sublist_filter. Qed.

Lemma sortLoop_fuel_mono fuel fuel' (graph : Graph) S L r :
  sortLoop fuel graph S L = Some r → fuel ≤ fuel' →
  sortLoop fuel' graph S L = Some r.
Proof.
  revert fuel' graph S L. induction fuel as [|fuel IH]; intros fuel' graph S L.
  - destruct S; [|done]. simpl. intros Hr _. by destruct fuel'.
  - destruct S as [|n S1]; simpl.
    { intros Hr _. by destruct fuel'. }
    intros Hr Hle. destruct fuel' as [|fuel']; [lia|]. simpl.
    destruct (removeEdges n (dependents n graph) graph S1) as [[g1 S2]|]; [|done].
    apply IH; [done | lia].
Qed.

Lemma same_entries_round n (g g' : Graph) :
  same_entries g g' → same_entries (round n g) (round n g').
Proof.
  intros He k v'. split.
  - intros (v & Hv & ->)%round_entry_inv. by apply round_entry, He.
  - intros (v & Hv & ->)%round_entry_inv. by apply round_entry, He.
Qed.

Lemma same_entries_freed n (g g' : Graph) k :
  same_entries g g' → k ∈ freed n g → k ∈ freed n g'.
Proof.
  intros He (v & Hv & Hn & Hlen)%freed_entry.
  eapply freed_intro; [by apply He | done | by apply nil_length_inv].
Qed.

(** The loop run on the same entries, listed in the order the first run
    sorts them, does the same rounds. *)
Lemma sortLoop_sorted_order fuel (g g' gf : Graph) S L Lf :
  NoDup g.*1 → g'.*1 = Lf → NoDup Lf → same_entries g g' →
  sortLoop fuel g S L = Some (Ok (gf, Lf)) →
  ∃ gf', sortLoop fuel g' S L = Some (Ok (gf', Lf)) ∧ same_entries gf gf'.
Proof.
  revert g g' S L. induction fuel as [|fuel IH]; intros g g' S L Hk Hk' HLf He.
  - destruct S; simpl; [|done]. intros [= <- <-]. by exists g'.
  - destruct S as [|n S1].
    { simpl. intros [= <- <-]. by exists g'. }
    rewrite !sortLoop_round by (done || by rewrite Hk'). intros Hs.
    assert (Hfreed : freed n g' = freed n g).
    { apply (sublist_unique Lf); [done | | |].
      - rewrite <- Hk'. apply filter_keys_sublist.
      - apply sortLoop_prefix in Hs as [rest ->].
        rewrite <- !app_assoc.
        apply (sublist_inserts_l L), (sublist_inserts_l [n]), (sublist_inserts_l S1).
        by apply sublist_inserts_r.
      - intros x. split; apply same_entries_freed; [|done].
        intros k v. symmetry. apply He. }
    rewrite Hfreed. apply (IH (round n g)); [| |done| |done].
    + by rewrite round_keys.
    + by rewrite round_keys.
    + by apply same_entries_round.
Qed.

Lemma lookupNodes_self nodes sub :
  distinct nodes → (∀ node, node ∈ sub → node ∈ nodes) →
  lookupNodes nodes (ctor <$> sub) = Ok sub.
Proof.
  intros Hd. induction sub as [|x sub IH]; intros Hin; [done|].
  rewrite fmap_cons. simpl. unfold JS.find.
  destruct (List.find _ nodes) as [obj|] eqn:Hf.
  - apply find_some in Hf as [Hobj Hc%bool_decide_eq_true_1].
    apply list_elem_of_In in Hobj.
    rewrite (NoDup_fmap_inj_on ctor nodes obj x Hd Hobj) by (auto using list_elem_of_here).
    rewrite IH; [done|]. intros node Hn. apply Hin. by right.
  - assert (Hx : x ∈ nodes) by (apply Hin; left).
    apply list_elem_of_In in Hx.
    pose proof (find_none _ _ Hf x Hx) as Hb. simpl in Hb.
    by rewrite bool_decide_eq_true_2 in Hb.
Qed.

Lemma sortSystems_again unsorted sorted :
  distinct unsorted → sortSystems unsorted = Some (Ok sorted) →
  sortSystems sorted = Some (Ok sorted).
Proof.
  intros Hd Hs.
  destruct (sortSystems_Ok_sound _ _ Hd Hs) as [Hperm _].
  assert (Hds : distinct sorted) by (unfold distinct; by rewrite Hperm).
  unfold sortSystems in Hs. fold (roots (graph_of unsorted)) in Hs.
  destruct (sortLoop _ (graph_of unsorted) _ _) as [[[gf Lf]|]|] eqn:Hloop;
    [|done|done].
  destruct (list_find _ (JS.values gf)) eqn:Hfind; [done|].
  injection Hs as Hl. pose proof (lookupNodes_ctor _ _ _ Hl) as Hc.
  assert (Hkeys2 : (graph_of sorted).*1 = Lf).
  { rewrite graph_of_distinct by done. rewrite <- list_fmap_compose. done. }
  assert (He : same_entries (graph_of unsorted) (graph_of sorted)).
  { intros k v. rewrite !graph_of_distinct by done.
    rewrite !list_elem_of_fmap. by setoid_rewrite Hperm. }
  assert (HLf : NoDup Lf) by (by rewrite <- Hc).
  assert (Hroots : roots (graph_of sorted) = roots (graph_of unsorted)).
  { apply (sublist_unique Lf); [done | | |].
    - rewrite <- Hkeys2. apply filter_keys_sublist.
    - apply sortLoop_prefix in Hloop as [rest ->]. simpl.
      apply sublist_inserts_r. done.
    - intros x. rewrite !roots_entry. by setoid_rewrite (He x). }
  destruct (sortLoop_sorted_order _ _ (graph_of sorted) _ _ _ _
              (graph_of_keys_NoDup unsorted) Hkeys2 HLf He Hloop)
    as (gf' & Hloop' & Hef).
  destruct (sortLoop_invariant (λ _ _ _, True) (λ _ _ _ _ _ _, I)
              (sort_fuel (graph_of sorted) (roots (graph_of sorted)))
              (graph_of sorted) (roots (graph_of sorted)) [])
    as (g2 & L2 & Hloop2 & _); [apply graph_of_keys_NoDup | done | done |].
  rewrite <- Hroots in Hloop'.
  match type of Hloop' with sortLoop ?f1 _ _ _ = _ =>
    match type of Hloop2 with sortLoop ?f2 _ _ _ = _ =>
      pose proof (sortLoop_fuel_mono _ (f1 `max` f2) _ _ _ _ Hloop'
                    (Nat.le_max_l _ _)) as H1;
      pose proof (sortLoop_fuel_mono _ (f1 `max` f2) _ _ _ _ Hloop2
                    (Nat.le_max_r _ _)) as H2
    end
  end.
  rewrite H1 in H2. injection H2 as <- <-.
  unfold sortSystems. fold (roots (graph_of sorted)). rewrite Hloop2.
  destruct (list_find _ (JS.values gf')) as [[i v]|] eqn:Hfind'.
  - apply list_find_Some in Hfind' as (Hi & Hlen & _).
    apply list_find_None in Hfind. rewrite Forall_forall in Hfind.
    apply list_elem_of_lookup_2 in Hi.
    apply list_elem_of_fmap in Hi as ([k v'] & -> & Hkv).
    destruct (Hfind v'); [|done].
    apply list_elem_of_fmap. exists (k, v'). split; [done|]. by apply Hef.
  - f_equal. rewrite <- Hc. by apply lookupNodes_self.
Qed.

(** Sorting is stable on its own result: the order [sortSystems] returns is
    returned unchanged when it is sorted again. *)
Theorem sortSystems_idempotent unsorted sorted :
  distinct unsorted → sortSystems unsorted = Some (Ok sorted) →
  sortSystems sorted = Some (Ok sorted).
Proof. apply sortSystems_again. Qed.

Lemma sortSystems_idempotent_witness :
  sortSystems [node b []; node c []; node a [B]]
  = Some (Ok [node b []; node c []; node a [B]]).
Proof.
  apply (sortSystems_idempotent [node a [B]; node b []; node c []]).
  - by_computation.
  - reflexivity.
Defined.

(** ** Registering systems *)

(** [registerSystemQuick] takes a system of a class not yet registered: the
    node goes to the end of [sortedSystems] and the system to the end of
    the state's systems, nothing else changes, and from then on every
    system of that class is refused. *)
Theorem registerSystemQuick_fresh sys deps w :
  constructor sys ∉ ctor <$> sortedSystems w →
  let w' := (registerSystemQuick sys deps w).2 in
  (registerSystemQuick sys deps w).1 = Ok ()
  ∧ sortedSystems w'
    = sortedSystems w ++ [{| system := sys; dependencies := default [] deps |}]
  ∧ systems (defaultState w') = systems (defaultState w) ++ [sys]
  ∧ entities w' = entities w ∧ runSystems w' = runSystems w
  ∧ ∀ sys' deps', constructor sys' = constructor sys →
      registerSystemQuick sys' deps' w'
      = (Throw (SystemAlreadyAdded (name (constructor sys))), w').
Proof.
  intros Hfresh w'.
  assert (Hq : registerSystemQuick sys deps w
               = (Ok (), set_sortedSystems
                           (set_defaultState w
                              {| systems := systems (defaultState w) ++ [sys] |})
                           (sortedSystems w
                              ++ [{| system := sys; dependencies := default [] deps |}]))).
  { unfold registerSystemQuick. by rewrite find_constructor_None. }
  subst w'. rewrite Hq. simpl. split_and!; try done.
  intros sys' deps' Heq. unfold registerSystemQuick. simpl.
  destruct (find_constructor_Some sys'
              (sortedSystems w ++ [{| system := sys; dependencies := default [] deps |}]))
    as [obj Hobj].
  { rewrite Heq, fmap_app, elem_of_app. right. left. }
  rewrite Hobj. by rewrite Heq.
Qed.

Lemma registerSystemQuick_fresh_witness :
  let d := {| sys_ref := 30; constructor := X |} in
  (registerSystemQuick d None registered).1 = Ok ()
  ∧ sortedSystems (registerSystemQuick d None registered).2
    = sortedSystems registered ++ [node d []].
Proof.
  intros d.
  assert (Hfresh : constructor d ∉ ctor <$> sortedSystems registered) by by_computation.
  destruct (registerSystemQuick_fresh d None registered Hfresh) as (H1 & H2 & _).
  split; [exact H1 | exact H2].
Defined.

Lemma depends_on_Permutation nodes nodes' x y :
  nodes ≡ₚ nodes' → depends_on nodes x y → depends_on nodes' x y.
Proof.
  intros Hp (node & Hin & Hx & Hy). exists node. by rewrite <- Hp.
Qed.

Lemma well_formed_Permutation nodes nodes' :
  nodes ≡ₚ nodes' → well_formed nodes → well_formed nodes'.
Proof.
  intros Hp (Hd & Hsets & Hacyclic). split_and!.
  - unfold distinct. by rewrite <- Hp.
  - intros node Hin. rewrite <- Hp in Hin.
    destruct (Hsets node Hin) as [Hnd Hreg]. split; [done|].
    intros d Hd'. rewrite <- Hp. auto.
  - intros x Hx. apply (Hacyclic x).
    eapply tc_congruence with (f := id); [|exact Hx].
    intros a b. by apply depends_on_Permutation.
Qed.

(** A new node whose dependencies are registered already keeps the
    declarations sortable. *)
Lemma well_formed_extend nodes node :
  well_formed nodes → ctor node ∉ ctor <$> nodes →
  NoDup (dependencies node) →
  (∀ d, d ∈ dependencies node → d ∈ ctor <$> nodes) →
  well_formed (nodes ++ [node]).
Proof.
  intros (Hd & Hsets & Hacyclic) Hfresh Hnd Hreg. split_and!.
  - unfold distinct. rewrite fmap_app. apply NoDup_app.
    split_and!; [done | | apply NoDup_singleton].
    intros x Hx ->%list_elem_of_singleton. done.
  - intros node' [Hin | ->%list_elem_of_singleton]%elem_of_app.
    + destruct (Hsets node' Hin) as [Hnd' Hreg']. split; [done|].
      intros d Hd'. rewrite fmap_app, elem_of_app. auto.
    + split; [done|]. intros d Hd'. rewrite fmap_app, elem_of_app. auto.
  - assert (Hold : ∀ x y, tc (depends_on (nodes ++ [node])) x y →
                     y ∈ ctor <$> nodes
                     ∧ (x ∈ ctor <$> nodes → tc (depends_on nodes) x y)).
    { assert (Hstep : ∀ x y, depends_on (nodes ++ [node]) x y →
                        y ∈ ctor <$> nodes
                        ∧ (x ∈ ctor <$> nodes → depends_on nodes x y)).
      { intros x y (node' & [Hin | ->%list_elem_of_singleton]%elem_of_app & <- & Hy).
        - split; [by apply (Hsets node' Hin)|]. intros _. by exists node'.
        - split; [auto | done]. }
      induction 1 as [x y HR|x y z HR _ [IHz IH]].
      - destruct (Hstep x y HR) as [Hy Hxy]. split; [done|].
        intros Hx. by apply tc_once, Hxy.
      - destruct (Hstep x y HR) as [Hy Hxy]. split; [done|].
        intros Hx. eapply tc_l; [by apply Hxy | by apply IH]. }
    intros x Hx. destruct (Hold x x Hx) as [Hin Htc]. by apply (Hacyclic x), Htc.
Qed.

(** [registerSystem] of a new class whose dependencies are listed once and
    registered already succeeds in a world with sortable declarations: the
    new schedule holds the old nodes and the new one, every system after
    its dependencies, and the declarations stay sortable. *)
Theorem registerSystem_valid {Store} `{EntityStore Store}
    sys deps (w : World) (st : Store) :
  well_formed (sortedSystems w) →
  constructor sys ∉ ctor <$> sortedSystems w →
  NoDup (default [] deps) →
  (∀ d, d ∈ default [] deps → d ∈ ctor <$> sortedSystems w) →
  ∃ w' st', registerSystem sys deps (w, st) = Some (Ok (), (w', st'))
    ∧ sortedSystems w'
      ≡ₚ sortedSystems w ++ [{| system := sys; dependencies := default [] deps |}]
    ∧ after_dependencies (sortedSystems w')
    ∧ well_formed (sortedSystems w')
    ∧ systems (defaultState w') = systems (defaultState w) ++ [sys].
Proof.
  intros Hwf Hfresh Hnd Hreg.
  set (nd := {| system := sys; dependencies := default [] deps |}).
  assert (Hwf' : well_formed (sortedSystems w ++ [nd])) by (by apply well_formed_extend).
  destruct (sortSystems_succeeds _ Hwf') as [sorted Hs].
  destruct (sortSystems_Ok_sound _ _ (proj1 Hwf') Hs) as [Hperm Hafter].
  unfold registerSystem, registerSystemQuick.
  rewrite find_constructor_None by done. simpl. fold nd. rewrite Hs. simpl.
  eexists _, _. split; [done|]. simpl. split_and!; try done.
  by apply (well_formed_Permutation (sortedSystems w ++ [nd])).
Qed.

Lemma registerSystem_valid_witness :
  let st : Components := λ _, ∅ in
  let d := {| sys_ref := 30; constructor := X |} in
  ∃ w' st', registerSystem d (Some [C]) (registered, st) = Some (Ok (), (w', st'))
            ∧ after_dependencies (sortedSystems w').
Proof.
  intros st d.
  destruct (registerSystem_valid (Store := Components) d (Some [C]) registered st)
    as (w' & st' & Hr & _ & Hafter & _).
  - split_and!.
    + by_computation.
    + apply declared_sets_Forall. by_computation.
    + apply (acyclic_by_rank proto_id). by_computation.
  - by_computation.
  - by_computation.
  - intros x ->%list_elem_of_singleton. by_computation.
  - by exists w', st'.
Defined.

(** A [registerSystem] that fails in the sort is not taken back: when a
    dependency of the new system is not registered (the system's own class
    included), the call throws the cyclic-graph error, the system stays
    registered with that dependency, and every later [maintain] throws the
    same error. *)
Theorem registerSystem_not_rolled_back {Store} `{EntityStore Store}
    sys deps d (w : World) (st : Store) :
  distinct (sortedSystems w) →
  constructor sys ∉ ctor <$> sortedSystems w →
  d ∈ deps → d ∉ ctor <$> sortedSystems w →
  let w' := (registerSystemQuick sys (Some deps) w).2 in
  (∃ st', registerSystem sys (Some deps) (w, st)
          = Some (Throw DependencyGraphCyclic, (w', st')))
  ∧ sortedSystems w' = sortedSystems w ++ [{| system := sys; dependencies := deps |}]
  ∧ ∀ st'', maintain (w', st'') = Some (Throw DependencyGraphCyclic, (w', st'')).
Proof.
  intros Hd Hfresh Hdep Hunreg.
  set (nd := {| system := sys; dependencies := deps |}).
  assert (Hd' : distinct (sortedSystems w ++ [nd])).
  { unfold distinct. rewrite fmap_app. apply NoDup_app.
    split_and!; [done | | apply NoDup_singleton].
    intros x Hx ->%list_elem_of_singleton. done. }
  assert (Hs : sortSystems (sortedSystems w ++ [nd])
               = Some (Throw DependencyGraphCyclic)).
  { apply (sortSystems_blocked (λ c, c = ctor nd)); [|by eexists].
    intros c ->. exists deps, d. split_and!; [| done |].
    - apply (graph_of_entry _ nd Hd'). apply elem_of_app. right. left.
    - destruct (decide (d = ctor nd)) as [|Hne]; [by left|]. right.
      rewrite graph_of_keys, fmap_app.
      intros [?|Hx]%elem_of_app; [done|].
      by apply list_elem_of_singleton in Hx. }
  unfold registerSystem, maintain, registerSystemQuick.
  rewrite find_constructor_None by done. simpl. fold nd. rewrite Hs. simpl.
  split_and!; [by eexists | done | done].
Qed.

Lemma registerSystem_not_rolled_back_witness :
  let st : Components := λ _, ∅ in
  let w' := (registerSystemQuick c (Some [X]) new_World).2 in
  (∃ st', registerSystem c (Some [X]) (new_World, st)
          = Some (Throw DependencyGraphCyclic, (w', st')))
  ∧ sortedSystems w' = [node c [X]].
Proof.
  intros st w'.
  destruct (registerSystem_not_rolled_back (Store := Components)
              c [X] X new_World st) as (Hr & Hs & _).
  - by_computation.
  - by_computation.
  - repeat constructor.
  - by_computation.
  - split; [exact Hr | exact Hs].
Defined.

(** ** What every reachable world keeps *)

Lemma changeRunningState_defaultState newState w :
  defaultState (changeRunningState newState w) = defaultState w.
Proof. unfold changeRunningState. by destruct (foldl _ _ _). Qed.

Lemma reachable_systems w :
  reachable w → systems (defaultState w) ≡ₚ system <$> sortedSystems w.
Proof.
  induction 1 as [|sys deps w Hr IH|w sorted Hr IH Hs|newState w _ IH].
  - done.
  - unfold registerSystemQuick. destruct (JS.find _ _); [done|]. simpl.
    rewrite fmap_app. simpl. by rewrite IH.
  - simpl. rewrite IH.
    destruct (sortSystems_Ok_sound _ _ (reachable_distinct w Hr) Hs) as [Hp _].
    by rewrite Hp.
  - rewrite changeRunningState_defaultState, changeRunningState_sortedSystems.
    by rewrite fmap_reverse, reverse_Permutation.
Qed.

(** In every world made by registering systems, maintaining and changing
    state, the [systems] getter lists the systems of the registered nodes,
    each once, and no two of them are of the same class. *)
Theorem reachable_registry w :
  reachable w →
  distinct (sortedSystems w)
  ∧ systems (defaultState w) ≡ₚ system <$> sortedSystems w
  ∧ NoDup (constructor <$> systems (defaultState w)).
Proof.
  intros Hr. pose proof (reachable_distinct w Hr) as Hd.
  pose proof (reachable_systems w Hr) as Hp.
  split_and!; [done | done |]. rewrite Hp, <- list_fmap_compose. exact Hd.
Qed.

Lemma registered_reachable : reachable registered.
Proof. repeat apply reachable_register. apply reachable_new. Defined.

Lemma reachable_registry_witness :
  distinct (sortedSystems registered)
  ∧ systems (defaultState registered) ≡ₚ system <$> sortedSystems registered.
Proof.
  destruct (reachable_registry registered registered_reachable) as (H1 & H2 & _).
  split; [exact H1 | exact H2].
Defined.

(** ** Changing the running state *)

Lemma pushNames_elem x ds deps :
  x ∈ pushNames ds deps ↔ x ∈ ds ∨ x ∈ name <$> deps.
Proof.
  unfold pushNames. revert ds. induction deps as [|d deps IH]; intros ds.
  - simpl. rewrite elem_of_nil. tauto.
  - rewrite fmap_cons, elem_of_cons. simpl. rewrite IH. unfold JS.includes.
    destruct (decide (name d ∈ ds)) as [Hin|Hin].
    + rewrite bool_decide_eq_true_2 by done. simpl.
      split; [tauto|]. intros [?|[->|?]]; auto.
    + rewrite bool_decide_eq_false_2 by done. simpl.
      rewrite elem_of_app, list_elem_of_singleton. tauto.
Qed.

Lemma find_name_Some (s : IState) (x : string) :
  x ∈ stateNames s →
  ∃ sys, JS.find (λ stateSys, bool_decide (name (constructor stateSys) = x)) (systems s)
         = Some sys
         ∧ name (constructor sys) = x ∧ sys ∈ systems s.
Proof.
  unfold stateNames. intros (sys0 & -> & Hin)%list_elem_of_fmap. unfold JS.find.
  destruct (List.find _ (systems s)) as [sys|] eqn:Hf.
  - apply find_some in Hf as [Hsys Hb%bool_decide_eq_true_1].
    exists sys. split_and!; [done | done | by apply list_elem_of_In].
  - apply list_elem_of_In in Hin. pose proof (find_none _ _ Hf sys0 Hin) as Hb.
    simpl in Hb. by rewrite bool_decide_eq_true_2 in Hb.
Qed.

Lemma find_name_None (s : IState) (x : string) :
  x ∉ stateNames s →
  JS.find (λ stateSys, bool_decide (name (constructor stateSys) = x)) (systems s) = None.
Proof.
  intros Hnot. unfold JS.find.
  destruct (List.find _ (systems s)) as [sys|] eqn:Hf; [|done].
  apply find_some in Hf as [Hsys Hb%bool_decide_eq_true_1].
  destruct Hnot. unfold stateNames. apply list_elem_of_fmap. exists sys.
  split; [done | by apply list_elem_of_In].
Qed.

Lemma collect_stateSystem newState rs ds node :
  collectRunSystem newState (rs, ds) node
  = match stateSystemOf newState ds node with
    | Some sys =>
        (rs ++ [{| run_system := sys;
                   hasDependencies := bool_decide (0 < length (dependencies node)) |}],
         pushNames ds (dependencies node))
    | None => (rs, ds)
    end.
Proof. reflexivity. Qed.

(** A node becomes a run system when its class name is that of a dependency
    met before or of a system of the new state. *)
Lemma stateSystemOf_Some newState ds node :
  nm node ∈ ds ∨ nm node ∈ stateNames newState →
  ∃ sys, stateSystemOf newState ds node = Some sys
         ∧ name (constructor sys) = nm node
         ∧ (sys = system node ∨ sys ∈ systems newState).
Proof.
  intros Hsel. unfold stateSystemOf, JS.includes.
  change (name (constructor (system node))) with (nm node).
  destruct (decide (nm node ∈ ds)) as [Hin|Hin].
  - rewrite bool_decide_eq_true_2 by done. exists (system node). auto.
  - rewrite bool_decide_eq_false_2 by done.
    destruct Hsel as [?|Hst]; [done|].
    destruct (find_name_Some newState (nm node) Hst) as (sys & -> & Hn & Hs).
    exists sys. auto.
Qed.

Lemma stateSystemOf_None newState ds node :
  ¬ (nm node ∈ ds ∨ nm node ∈ stateNames newState) →
  stateSystemOf newState ds node = None.
Proof.
  intros Hsel. unfold stateSystemOf, JS.includes.
  change (name (constructor (system node))) with (nm node).
  rewrite bool_decide_eq_false_2 by tauto.
  apply find_name_None. tauto.
Qed.

Lemma collect_acc newState rs ds node :
  collectRunSystem newState (rs, ds) node
  = (rs ++ (collectRunSystem newState ([], ds) node).1,
     (collectRunSystem newState ([], ds) node).2).
Proof.
  rewrite !collect_stateSystem.
  destruct (stateSystemOf newState ds node); simpl; [done|].
  by rewrite app_nil_r.
Qed.

Lemma activated_cons newState ds node l :
  activated newState ds (node :: l)
  = ((collectRunSystem newState ([], ds) node).1
       ++ (activated newState (collectRunSystem newState ([], ds) node).2 l).1,
     (activated newState (collectRunSystem newState ([], ds) node).2 l).2).
Proof.
  unfold activated. cbn [foldl].
  generalize (collectRunSystem newState ([], ds) node). intros [x1 ds1].
  cbn [fst snd]. clear ds node. revert x1 ds1.
  induction l as [|node l IH]; intros x1 ds1; cbn [foldl].
  - by rewrite app_nil_r.
  - rewrite collect_acc.
    destruct (collectRunSystem newState ([], ds1) node) as [c1 c2].
    cbn [fst snd]. rewrite (IH (x1 ++ c1)), (IH c1). cbn [fst snd].
    by rewrite app_assoc.
Qed.

Lemma activated_selected newState ds node l :
  nm node ∈ ds ∨ nm node ∈ stateNames newState →
  ∃ sys, name (constructor sys) = nm node
         ∧ (sys = system node ∨ sys ∈ systems newState)
         ∧ activated newState ds (node :: l)
           = ({| run_system := sys;
                 hasDependencies := bool_decide (0 < length (dependencies node)) |}
                :: (activated newState (pushNames ds (dependencies node)) l).1,
              (activated newState (pushNames ds (dependencies node)) l).2).
Proof.
  intros (sys & Hs & Hn & Hor)%stateSystemOf_Some. exists sys.
  split_and!; [done | done |].
  by rewrite activated_cons, collect_stateSystem, Hs.
Qed.

Lemma activated_skipped newState ds node l :
  ¬ (nm node ∈ ds ∨ nm node ∈ stateNames newState) →
  activated newState ds (node :: l) = activated newState ds l.
Proof.
  intros Hs%stateSystemOf_None.
  rewrite activated_cons, collect_stateSystem, Hs. simpl.
  by destruct (activated newState ds l).
Qed.

Lemma activated_names_sublist newState ds l :
  rname <$> (activated newState ds l).1 `sublist_of` nm <$> l.
Proof.
  revert ds. induction l as [|node l IH]; intros ds; [done|].
  destruct (decide (nm node ∈ ds ∨ nm node ∈ stateNames newState)) as [Hsel|Hsel].
  - destruct (activated_selected newState ds node l Hsel) as (sys & Hn & _ & ->).
    cbn [fst]. rewrite !fmap_cons. unfold rname at 1. simpl. rewrite Hn.
    by apply sublist_skip.
  - rewrite activated_skipped by done. rewrite fmap_cons. by apply sublist_cons.
Qed.

Lemma activated_complete newState ds l node :
  node ∈ l → nm node ∈ ds ∨ nm node ∈ stateNames newState →
  nm node ∈ rname <$> (activated newState ds l).1.
Proof.
  revert ds. induction l as [|node0 l IH]; intros ds Hin Hsel.
  { by apply elem_of_nil in Hin. }
  destruct (decide (nm node0 ∈ ds ∨ nm node0 ∈ stateNames newState)) as [Hsel0|Hsel0].
  - destruct (activated_selected newState ds node0 l Hsel0) as (sys & Hn & _ & ->).
    cbn [fst]. rewrite fmap_cons. unfold rname at 1. simpl. rewrite Hn.
    apply elem_of_cons in Hin as [->|Hin]; [left|]. right.
    apply IH; [done|]. rewrite pushNames_elem. tauto.
  - rewrite activated_skipped by done.
    apply elem_of_cons in Hin as [->|Hin]; [done|]. by apply IH.
Qed.

Lemma activated_justified newState ds l x :
  x ∈ rname <$> (activated newState ds l).1 →
  x ∈ stateNames newState ∨ x ∈ ds
  ∨ ∃ node, node ∈ l ∧ nm node ∈ rname <$> (activated newState ds l).1
            ∧ x ∈ name <$> dependencies node.
Proof.
  revert ds. induction l as [|node0 l IH]; intros ds.
  { intros Hx. by apply elem_of_nil in Hx. }
  destruct (decide (nm node0 ∈ ds ∨ nm node0 ∈ stateNames newState)) as [Hsel0|Hsel0].
  - destruct (activated_selected newState ds node0 l Hsel0) as (sys & Hn & _ & ->).
    cbn [fst]. rewrite fmap_cons. unfold rname at 1 3. simpl. rewrite Hn.
    intros [->|Hx]%elem_of_cons; [tauto|].
    destruct (IH _ Hx) as [?|[Hds|(node & Hin & Hsel & Hdep)]]; [tauto| |].
    + apply pushNames_elem in Hds as [?|Hdep]; [tauto|].
      right. right. exists node0. split_and!; [left | left | done].
    + right. right. exists node. split_and!; [by right | by right | done].
  - rewrite activated_skipped by done. intros Hx.
    destruct (IH _ Hx) as [?|[?|(node & Hin & Hsel & Hdep)]]; [tauto | tauto |].
    right. right. exists node. split_and!; [by right | done | done].
Qed.

Lemma activated_closed newState ds l l1 node l2 dn :
  NoDup (nm <$> l) → l = l1 ++ node :: l2 →
  nm node ∈ rname <$> (activated newState ds l).1 →
  dn ∈ l2 → nm dn ∈ name <$> dependencies node →
  nm dn ∈ rname <$> (activated newState ds l).1.
Proof.
  revert ds l1. induction l as [|node0 l IH]; intros ds l1 Hnd Hl Hsel Hdn Hdep.
  { by destruct l1. }
  rewrite fmap_cons in Hnd. apply NoDup_cons in Hnd as [Hfresh Hnd].
  assert (Hsub : ∀ ds', rname <$> (activated newState ds' l).1 ⊆ nm <$> l).
  { intros ds' y Hy.
    eapply elem_of_sublist; [exact Hy | apply activated_names_sublist]. }
  destruct (decide (nm node0 ∈ ds ∨ nm node0 ∈ stateNames newState)) as [Hsel0|Hsel0].
  - destruct (activated_selected newState ds node0 l Hsel0) as (sys & Hn & _ & Ha).
    rewrite Ha in Hsel |- *. cbn [fst] in *. rewrite fmap_cons in Hsel |- *.
    unfold rname at 1 in Hsel. unfold rname at 1. simpl in *. rewrite Hn in *.
    right. destruct l1 as [|n1 l1]; simplify_eq/=.
    + apply activated_complete; [done|]. rewrite pushNames_elem. tauto.
    + apply elem_of_cons in Hsel as [Heq|Hsel].
      * destruct Hfresh. rewrite <- Heq. apply list_elem_of_fmap_2.
        apply elem_of_app. right. left.
      * by eapply IH.
  - rewrite activated_skipped in Hsel |- * by done.
    destruct l1 as [|n1 l1]; simplify_eq/=.
    + destruct Hfresh. by apply (Hsub ds).
    + by eapply IH.
Qed.

Lemma activated_all newState ds l :
  (∀ node, node ∈ l → nm node ∈ stateNames newState) →
  (λ r, (rname r, hasDependencies r)) <$> (activated newState ds l).1
  = (λ node, (nm node, bool_decide (0 < length (dependencies node)))) <$> l.
Proof.
  revert ds. induction l as [|node l IH]; intros ds Hall; [done|].
  destruct (activated_selected newState ds node l) as (sys & Hn & _ & ->).
  { right. apply Hall. left. }
  cbn [fst]. rewrite !fmap_cons. unfold rname at 1. simpl. rewrite Hn.
  f_equal. apply IH. intros node' Hin. apply Hall. by right.
Qed.

Lemma sublist_reverse {A} (l1 l2 : list A) :
  l1 `sublist_of` l2 → reverse l1 `sublist_of` reverse l2.
Proof.
  induction 1 as [|x l1 l2 _ IH|x l1 l2 _ IH].
  - done.
  - rewrite !reverse_cons. by apply sublist_app.
  - rewrite reverse_cons. by apply sublist_inserts_r.
Qed.

Lemma changeRunningState_runSystems newState w :
  runSystems (changeRunningState newState w)
  = reverse (activated newState [] (reverse (sortedSystems w))).1.
Proof.
  unfold changeRunningState, activated. simpl.
  by destruct (foldl _ _ _).
Qed.

(** What [changeRunningState] makes the run systems, by class name: they
    come in the order the nodes had in [sortedSystems] (which the call
    leaves reversed); every registered system of the new state is among
    them; any other is a dependency of one of them; and, when no two
    registered classes share a name, the dependencies of a run system that
    stand before it in [sortedSystems] are run systems too. *)
Theorem changeRunningState_active newState w :
  let w' := changeRunningState newState w in
  let active := rname <$> runSystems w' in
  active `sublist_of` nm <$> sortedSystems w
  ∧ (∀ node, node ∈ sortedSystems w → nm node ∈ stateNames newState →
       nm node ∈ active)
  ∧ (∀ x, x ∈ active →
       x ∈ stateNames newState
       ∨ ∃ node, node ∈ sortedSystems w ∧ nm node ∈ active
                 ∧ x ∈ name <$> dependencies node)
  ∧ (NoDup (nm <$> sortedSystems w) →
     ∀ pre node post dn,
       sortedSystems w = pre ++ node :: post → nm node ∈ active →
       dn ∈ pre → nm dn ∈ name <$> dependencies node → nm dn ∈ active)
  ∧ runState w' = Some newState
  ∧ sortedSystems w' = reverse (sortedSystems w).
Proof.
  intros w' active. subst w' active.
  rewrite changeRunningState_runSystems, changeRunningState_sortedSystems.
  rewrite fmap_reverse.
  set (l := reverse (sortedSystems w)).
  assert (Hl : sortedSystems w = reverse l) by (unfold l; by rewrite reverse_involutive).
  split_and!.
  - rewrite Hl, fmap_reverse. apply sublist_reverse, activated_names_sublist.
  - intros node Hin Hst. rewrite elem_of_reverse.
    apply activated_complete; [unfold l; by rewrite elem_of_reverse | by right].
  - intros x. rewrite elem_of_reverse. intros Hx.
    destruct (activated_justified _ _ _ _ Hx) as [?|[Hnil|(node & Hin & Hsel & Hdep)]];
      [by left | by apply elem_of_nil in Hnil |].
    right. exists node. unfold l in Hin. rewrite elem_of_reverse in Hin.
    split_and!; [done | by rewrite elem_of_reverse | done].
  - intros Hnd pre node post dn Hsplit. rewrite !elem_of_reverse.
    intros Hsel Hdn Hdep.
    apply (activated_closed newState [] l (reverse post) node (reverse pre) dn);
      [| | done | by rewrite elem_of_reverse | done].
    + unfold l. by rewrite fmap_reverse, reverse_Permutation.
    + unfold l. rewrite Hsplit, reverse_app, reverse_cons, <- app_assoc. done.
  - unfold changeRunningState. by destruct (foldl _ _ _).
  - done.
Qed.

Lemma changeRunningState_active_witness :
  let w' := changeRunningState {| systems := [c] |} registered in
  rname <$> runSystems w' = ["A"; "B"; "C"]
  ∧ ("A" ∈ rname <$> runSystems w').
Proof.
  intros w'.
  destruct (changeRunningState_active {| systems := [c] |} registered)
    as (_ & _ & _ & Hclosed & _).
  split; [reflexivity|].
  apply (Hclosed ltac:(by_computation) [node a []; node b []] (node c [A; B]) []
           (node a [])).
  - reflexivity.
  - by_computation.
  - repeat constructor.
  - by_computation.
Defined.

(** With the default state of a reachable world every registered system is
    a run system: the run systems are, class name by class name and flag by
    flag, the nodes of [sortedSystems] in their order, and the very systems
    of the nodes when no two registered classes share a name. *)
Theorem changeRunningState_default w :
  reachable w →
  let w' := changeRunningState (defaultState w) w in
  (λ r, (rname r, hasDependencies r)) <$> runSystems w'
  = (λ node, (nm node, bool_decide (0 < length (dependencies node))))
      <$> sortedSystems w
  ∧ (NoDup (nm <$> sortedSystems w) →
     run_system <$> runSystems w' = system <$> sortedSystems w).
Proof.
  intros Hr w'. subst w'. rewrite changeRunningState_runSystems.
  pose proof (reachable_systems w Hr) as Hp.
  assert (Hall : ∀ node, node ∈ reverse (sortedSystems w) →
                   nm node ∈ stateNames (defaultState w)).
  { intros node. rewrite elem_of_reverse. intros Hin.
    unfold stateNames. rewrite Hp, <- list_fmap_compose.
    apply list_elem_of_fmap. by exists node. }
  split.
  - rewrite fmap_reverse, activated_all by done.
    by rewrite <- fmap_reverse, reverse_involutive.
  - intros Hnd. rewrite fmap_reverse.
    rewrite <- (reverse_involutive (sortedSystems w)) at 2.
    rewrite (fmap_reverse system). f_equal.
    assert (Hnd' : NoDup (nm <$> reverse (sortedSystems w))).
    { by rewrite fmap_reverse, reverse_Permutation. }
    assert (Hsys : ∀ sys node, sys ∈ systems (defaultState w) →
                     node ∈ reverse (sortedSystems w) →
                     name (constructor sys) = nm node → sys = system node).
    { intros sys node Hsys Hin Hname. rewrite Hp in Hsys.
      apply list_elem_of_fmap in Hsys as (node' & -> & Hin').
      f_equal. symmetry.
      apply (NoDup_fmap_inj_on nm (reverse (sortedSystems w))); [done | done | |done].
      by apply elem_of_reverse. }
    revert Hall Hnd' Hsys. generalize (reverse (sortedSystems w)).
    generalize (@nil string).
    intros ds l. revert ds. induction l as [|node l IH]; intros ds Hall Hnd' Hsys; [done|].
    destruct (activated_selected (defaultState w) ds node l)
      as (sys & Hn & Hor & ->).
    { right. apply Hall. left. }
    cbn [fst]. rewrite !fmap_cons. simpl.
    rewrite fmap_cons in Hnd'. apply NoDup_cons in Hnd' as [_ Hnd'].
    f_equal.
    + destruct Hor as [|Hsys']; [done|]. apply Hsys; [done | left | done].
    + apply IH; [| done |].
      * intros node' Hin. apply Hall. by right.
      * intros sys' node' Hs Hin. apply Hsys; [done | by right].
Qed.

Lemma changeRunningState_default_witness :
  run_system <$> runSystems (changeRunningState (defaultState registered) registered)
  = system <$> sortedSystems registered.
Proof.
  destruct (changeRunningState_default registered registered_reachable) as [_ Hsys].
  apply Hsys. by_computation.
Defined.

(** ** Dispatching *)

(** [dispatch] never fails; it sets the run state, leaves [lastDispatch] at
    the clock reading it took, reverses [sortedSystems] (a second dispatch
    puts it back) and, the schedule being empty, calls no [update]. *)
Theorem dispatch_effects currentTime state w :
  let w' := (dispatch currentTime state w).2 in
  (dispatch currentTime state w).1 = Ok []
  ∧ lastDispatch w' = currentTime
  ∧ runState w' = Some (default (defaultState w) state)
  ∧ sortedSystems w' = reverse (sortedSystems w)
  ∧ entities w' = entities w
  ∧ ∀ currentTime' state',
      sortedSystems (dispatch currentTime' state' w').2 = sortedSystems w.
Proof.
  assert (Hd : ∀ t s v,
            dispatch t s v
            = (Ok [], set_lastDispatch
                        (if decide (lastDispatch (changeRunningState
                                                    (default (defaultState v) s) v) = 0%Z)
                         then set_lastDispatch
                                (changeRunningState (default (defaultState v) s) v) t
                         else changeRunningState (default (defaultState v) s) v) t)).
  { intros t s v. unfold dispatch. by rewrite getScheduledRunSystems_empty. }
  assert (Hsorted : ∀ t s v, sortedSystems (dispatch t s v).2 = reverse (sortedSystems v)).
  { intros t s v. rewrite Hd. simpl.
    destruct (decide _); simpl; apply changeRunningState_sortedSystems. }
  intros w'. subst w'. split_and!.
  - by rewrite Hd.
  - by rewrite Hd.
  - rewrite Hd. simpl.
    destruct (decide _); simpl; unfold changeRunningState; by destruct (foldl _ _ _).
  - apply Hsorted.
  - rewrite Hd. simpl.
    destruct (decide _); simpl; unfold changeRunningState; by destruct (foldl _ _ _).
  - intros t' s'. by rewrite !Hsorted, reverse_involutive.
Qed.

(** ** The dispatch loop, frame by frame *)

Lemma frame_end d pre scheduledSystems currentTime now :
  tasks d = [AwaitFrameEnd pre scheduledSystems currentTime] →
  exec d (Resume 0 now)
  = {| world := set_lastDispatch (world d) currentTime;
       tasks := [QueuedMainLoop pre scheduledSystems];
       updates := updates d |}.
Proof.
  intros Ht. rewrite (exec_resume_single _ _ _ Ht). simpl. by rewrite app_nil_r.
Qed.

Lemma frame_groups d pre scheduledSystems pending currentTime deltaTime times :
  tasks d = [AwaitGroup pre scheduledSystems pending currentTime deltaTime] →
  length times = length pending + 2 →
  execs d (Resume 0 <$> times)
  = {| world := set_lastDispatch (world d) currentTime;
       tasks := [QueuedMainLoop pre scheduledSystems];
       updates := updates d
                  ++ ((λ parallelSystem, (parallelSystem, deltaTime)) <$> concat pending) |}.
Proof.
  revert d times. induction pending as [|systems_ pending IH]; intros d times Ht Hlen.
  - destruct times as [|t0 [|t1 [|]]]; try done.
    rewrite !fmap_cons. cbn [execs foldl fmap list_fmap].
    rewrite (exec_resume_single _ _ _ Ht). cbn [resumeTask startGroups fst snd].
    rewrite (frame_end _ pre scheduledSystems currentTime) by done.
    simpl. by rewrite !app_nil_r.
  - destruct times as [|t0 times]; [done|].
    resume_once Ht. unfold execs in IH. rewrite IH; [|done|simpl in Hlen; lia].
    simpl. by rewrite fmap_app, app_assoc.
Qed.

(** One frame of a loop that was not stopped: every scheduled system is
    updated once, group after group, with the time since the last dispatch
    as read when the frame began; then [lastDispatch] is that reading and
    the loop is queued again.  Nothing else of the world changes. *)
Theorem mainLoop_frame d scheduledSystems now times :
  tasks d = [QueuedMainLoop false scheduledSystems] →
  shouldRunSystems (world d) = true →
  length times = length scheduledSystems + 1 →
  execs d (Resume 0 <$> (now :: times))
  = {| world := set_lastDispatch (world d) now;
       tasks := [QueuedMainLoop false scheduledSystems];
       updates := updates d
                  ++ ((λ parallelSystem,
                         (parallelSystem, (now - lastDispatch (world d))%Z))
                        <$> concat scheduledSystems) |}.
Proof.
  intros Ht Hrun Hlen. rewrite fmap_cons. cbn [execs foldl].
  rewrite (exec_resume_single _ _ _ Ht). cbn [resumeTask]. rewrite Hrun.
  cbn [negb]. destruct scheduledSystems as [|systems_ rest];
    cbn [startGroups fst snd].
  - destruct times as [|t1 [|]]; try done.
    cbn [fmap list_fmap foldl].
    rewrite (frame_end _ false [] now) by done. simpl. by rewrite !app_nil_r.
  - pose proof (frame_groups
      {| world := world d;
         tasks := [AwaitGroup false (systems_ :: rest) rest now
                     (now - lastDispatch (world d))];
         updates := updates d
                    ++ ((λ parallelSystem,
                           (parallelSystem, (now - lastDispatch (world d))%Z))
                          <$> systems_) |}
      false (systems_ :: rest) rest now (now - lastDispatch (world d))%Z times
      eq_refl) as Hf.
    unfold execs in Hf. rewrite Hf by (simpl in Hlen; lia).
    simpl. by rewrite fmap_app, app_assoc.
Qed.

Lemma mainLoop_frame_witness :
  let d := {| world := set_shouldRunSystems (set_runPromise registered true) true;
              tasks := [QueuedMainLoop false [[a; b]; [c]]];
              updates := [] |} in
  updates (execs d (Resume 0 <$> [5; 6; 7; 8]%Z))
  = [(a, 5%Z); (b, 5%Z); (c, 5%Z)].
Proof.
  intros d.
  rewrite (mainLoop_frame d [[a; b]; [c]] 5%Z [6; 7; 8]%Z eq_refl eq_refl eq_refl).
  reflexivity.
Defined.

(** A [stopRun] that comes while [run] is still in its set-up is lost: when
    [run] goes on it sets [shouldRunSystems] again, and the loop is queued
    with the run promise set. *)
Theorem stopRun_during_setup_is_lost d t times :
  tasks d = [t] → isLoopTask t = false → length times = setupResumes t →
  let d' := execs d (CallStopRun :: (Resume 0 <$> times)) in
  shouldRunSystems (world d') = true
  ∧ runPromise (world d') = true
  ∧ ∃ pre, tasks d' = [QueuedMainLoop pre []].
Proof.
  intros Ht Hloop Hlen.
  assert (Hactivate : ∀ d0 pre now,
            tasks d0 = [AwaitActivate pre] →
            let d1 := exec d0 (Resume 0 now) in
            shouldRunSystems (world d1) = true ∧ runPromise (world d1) = true
            ∧ tasks d1 = [QueuedMainLoop pre []]).
  { intros d0 pre now Ht0. rewrite (exec_resume_single _ _ _ Ht0).
    cbn [resumeTask]. rewrite getScheduledRunSystems_empty. simpl.
    by destruct (decide _). }
  destruct t as [initial pre|pre| | | |]; try done; simpl in Hlen.
  - destruct times as [|t0 [|t1 [|]]]; try done.
    intros d'. subst d'.
    change (execs d (CallStopRun :: (Resume 0 <$> [t0; t1])))
      with (exec (exec (stopRun d) (Resume 0 t0)) (Resume 0 t1)).
    assert (Ht1 : tasks (exec (stopRun d) (Resume 0 t0)) = [AwaitActivate pre]).
    { by rewrite (exec_resume_single (stopRun d) _ _ Ht). }
    destruct (Hactivate _ pre t1 Ht1) as (H1 & H2 & H3). eauto.
  - destruct times as [|t0 [|]]; try done.
    intros d'. subst d'.
    change (execs d (CallStopRun :: (Resume 0 <$> [t0])))
      with (exec (stopRun d) (Resume 0 t0)).
    destruct (Hactivate (stopRun d) pre t0 Ht) as (H1 & H2 & H3). eauto.
Qed.

Lemma stopRun_during_setup_is_lost_witness :
  let d := (run None {| world := registered; tasks := []; updates := [] |}).2 in
  tasks d = [AwaitActivate false]
  ∧ shouldRunSystems (world (execs d [CallStopRun; Resume 0 100%Z])) = true.
Proof.
  intros d.
  assert (Ht : tasks d = [AwaitActivate false]) by reflexivity.
  destruct (stopRun_during_setup_is_lost d (AwaitActivate false) [100%Z]
              Ht eq_refl eq_refl) as (H1 & _).
  split; [exact Ht | exact H1].
Defined.

(** ** Resources *)

Section MapDelete.
Context {K V : Type} `{EqDecision K}.

Lemma get_set_eq (k : K) (v : V) m : JS.get k (JS.set k v m) = Some v.
Proof.
  induction m as [|[k' v'] m IH]; simpl.
  - by rewrite decide_True.
  - destruct (decide (k' = k)) as [->|Hne]; simpl.
    + by rewrite decide_True.
    + by rewrite decide_False.
Qed.

Lemma get_set_ne (k k' : K) (v : V) m :
  k ≠ k' → JS.get k' (JS.set k v m) = JS.get k' m.
Proof.
  intros Hne. induction m as [|[k1 v1] m IH]; simpl.
  - by rewrite decide_False.
  - destruct (decide (k1 = k)) as [->|Hne1]; simpl.
    + by rewrite !decide_False by done.
    + destruct (decide (k1 = k')); [done | apply IH].
Qed.

Lemma get_delete_eq (k : K) (m : JS.Map K V) : JS.get k (map_delete k m) = None.
Proof.
  apply get_None. unfold map_delete.
  intros (p & -> & Hp)%list_elem_of_fmap.
  apply list_elem_of_filter in Hp as [Hp _]. done.
Qed.

Lemma get_delete_ne (k k' : K) (m : JS.Map K V) :
  k ≠ k' → JS.get k' (map_delete k m) = JS.get k' m.
Proof.
  intros Hne. unfold map_delete. induction m as [|[k1 v1] m IH]; [done|].
  destruct (decide (k1 = k)) as [->|Hne1].
  - rewrite filter_cons_False by (simpl; tauto). simpl.
    by rewrite decide_False.
  - rewrite filter_cons_True by done. simpl. by rewrite IH.
Qed.

Lemma map_has_true (k : K) (m : JS.Map K V) :
  map_has k m = true ↔ is_Some (JS.get k m).
Proof. unfold map_has. apply bool_decide_eq_true. Qed.

Lemma map_has_false (k : K) (m : JS.Map K V) :
  map_has k m = false ↔ JS.get k m = None.
Proof.
  unfold map_has. rewrite bool_decide_eq_false, <- eq_None_not_Some. done.
Qed.
End MapDelete.

Section ResourceFacts.
Context {Object Arg : Type}.
Context (constructorOf : Object → TTypeProto).
Context (construct : TTypeProto → list Arg → option Object).

Lemma addResource_absent obj args instance (resources : JS.Map TTypeProto Object) :
  instanceOf construct obj args = Some instance →
  JS.get (typeOf constructorOf obj) resources = None →
  addResource constructorOf construct obj args resources
  = (Done (), JS.set (typeOf constructorOf obj) instance resources).
Proof.
  intros Hi Hn%map_has_false. unfold addResource.
  destruct obj; simpl in *; rewrite ?Hi, Hn; congruence.
Qed.

Lemma addResource_present obj args instance (resources : JS.Map TTypeProto Object) :
  instanceOf construct obj args = Some instance →
  is_Some (JS.get (typeOf constructorOf obj) resources) →
  addResource constructorOf construct obj args resources
  = (Raise (ResourceAlreadyExists (type_name (typeOf constructorOf obj))),
     resources).
Proof.
  intros Hi Hs%map_has_true. unfold addResource.
  destruct obj; simpl in *; by rewrite ?Hi, Hs.
Qed.

Lemma addResource_throws obj args (resources : JS.Map TTypeProto Object) :
  instanceOf construct obj args = None →
  addResource constructorOf construct obj args resources
  = (Raise (ConstructorThrew (type_name (typeOf constructorOf obj))), resources).
Proof.
  intros Hi. unfold addResource. destruct obj; simpl in *; [done|].
  by rewrite Hi.
Qed.

Lemma getResource_set t o (resources : JS.Map TTypeProto Object) :
  getResource t (JS.set t o resources) = Done (Some o).
Proof.
  unfold getResource.
  assert (Hh : map_has t (JS.set t o resources) = true).
  { apply map_has_true. rewrite get_set_eq. by eexists. }
  rewrite Hh. simpl. by rewrite get_set_eq.
Qed.

Lemma getResource_same t (m1 m2 : JS.Map TTypeProto Object) :
  JS.get t m1 = JS.get t m2 → getResource t m1 = getResource t m2.
Proof. intros Hg. unfold getResource, map_has. by rewrite Hg. Qed.

Lemma getResource_deleted t (resources : JS.Map TTypeProto Object) :
  getResource t (map_delete t resources) = Raise (ResourceNotFound (type_name t)).
Proof.
  unfold getResource.
  assert (Hh : map_has t (map_delete t resources) = false).
  { apply map_has_false, get_delete_eq. }
  by rewrite Hh.
Qed.

Lemma replaceResource_absent obj args (resources : JS.Map TTypeProto Object) :
  JS.get (typeOf constructorOf obj) resources = None →
  replaceResource constructorOf construct obj args resources
  = (Raise (ResourceToReplaceNotFound (type_name (typeOf constructorOf obj))),
     resources).
Proof.
  intros Hg%map_has_false. unfold replaceResource.
  fold (typeOf constructorOf obj). by rewrite Hg.
Qed.

Lemma replaceResource_present obj args (resources : JS.Map TTypeProto Object) :
  is_Some (JS.get (typeOf constructorOf obj) resources) →
  replaceResource constructorOf construct obj args resources
  = addResource constructorOf construct obj args
      (map_delete (typeOf constructorOf obj) resources).
Proof.
  intros Hg%map_has_true. unfold replaceResource.
  fold (typeOf constructorOf obj). by rewrite Hg.
Qed.

(** What [addResource] stores can be fetched: after a successful call the
    instance was at hand, [getResource] of the argument's class returns it,
    and the resources of the other classes are as before.  Every further
    [addResource] of that class throws and leaves the map as it is: the
    error is the one for a resource that exists already, unless the
    constructor of the class is run and throws first. *)
Theorem addResource_getResource obj args (resources resources' : JS.Map TTypeProto Object) :
  addResource constructorOf construct obj args resources = (Done (), resources') →
  (∃ instance, instanceOf construct obj args = Some instance
     ∧ getResource (typeOf constructorOf obj) resources' = Done (Some instance))
  ∧ (∀ t, t ≠ typeOf constructorOf obj →
       getResource t resources' = getResource t resources)
  ∧ (∀ obj' args', typeOf constructorOf obj' = typeOf constructorOf obj →
       ∃ e, addResource constructorOf construct obj' args' resources'
            = (Raise e, resources')
          ∧ (is_Some (instanceOf construct obj' args') →
             e = ResourceAlreadyExists (type_name (typeOf constructorOf obj)))
          ∧ (instanceOf construct obj' args' = None →
             e = ConstructorThrew (type_name (typeOf constructorOf obj)))).
Proof.
  intros Hadd.
  destruct (instanceOf construct obj args) as [instance|] eqn:Hi;
    [|by rewrite addResource_throws in Hadd].
  destruct (JS.get (typeOf constructorOf obj) resources) as [o|] eqn:Hg.
  { rewrite (addResource_present _ _ instance) in Hadd by (done || by eexists).
    done. }
  rewrite (addResource_absent _ _ instance) in Hadd by done.
  injection Hadd as <-. split_and!.
  - exists instance. split; [done | apply getResource_set].
  - intros t Hne. apply getResource_same. by apply get_set_ne.
  - intros obj' args' Heq. rewrite <- Heq.
    destruct (instanceOf construct obj' args') as [instance'|] eqn:Hi'.
    + eexists. split; [|split; [done | done]].
      apply (addResource_present _ _ instance'); [done|].
      rewrite Heq, get_set_eq. by eexists.
    + eexists. split; [by apply addResource_throws|].
      split; [by intros [? ?] | done].
Qed.

(** What [replaceResource] stores replaces what was there: a successful call
    means the class had a resource and the instance was at hand; afterwards
    [getResource] of the class returns the new instance and the resources
    of the other classes are as before. *)
Theorem replaceResource_getResource obj args
    (resources resources' : JS.Map TTypeProto Object) :
  replaceResource constructorOf construct obj args resources = (Done (), resources') →
  is_Some (JS.get (typeOf constructorOf obj) resources)
  ∧ (∃ instance, instanceOf construct obj args = Some instance
       ∧ getResource (typeOf constructorOf obj) resources' = Done (Some instance))
  ∧ (∀ t, t ≠ typeOf constructorOf obj →
       getResource t resources' = getResource t resources).
Proof.
  intros Hrep.
  destruct (JS.get (typeOf constructorOf obj) resources) as [o|] eqn:Hg;
    [|by rewrite replaceResource_absent in Hrep].
  rewrite replaceResource_present in Hrep by (rewrite Hg; by eexists).
  destruct (instanceOf construct obj args) as [instance|] eqn:Hi;
    [|by rewrite addResource_throws in Hrep].
  rewrite (addResource_absent _ _ instance) in Hrep by (done || apply get_delete_eq).
  injection Hrep as <-. split_and!.
  - by eexists.
  - exists instance. split; [done | apply getResource_set].
  - intros t Hne. apply getResource_same.
    rewrite get_set_ne by done. by apply get_delete_ne.
Qed.

(** [addResource] and [replaceResource] on the same arguments, whatever the
    map holds.  With the instance at hand (an object, or a constructor that
    returns) exactly one of the two goes through, and the other throws its
    error and leaves the map untouched.  When the constructor throws,
    neither goes through: [addResource] leaves the map untouched, and so
    does [replaceResource] for a class without a resource, but for a class
    with a resource it has deleted the old one by then, and [getResource]
    of the class fails afterwards. *)
Theorem addResource_or_replaceResource obj args (resources : JS.Map TTypeProto Object) :
  let type := typeOf constructorOf obj in
  let add := addResource constructorOf construct obj args resources in
  let replace := replaceResource constructorOf construct obj args resources in
  match instanceOf construct obj args with
  | Some _ =>
      (add.1 = Done ()
       ∧ replace = (Raise (ResourceToReplaceNotFound (type_name type)), resources))
      ∨ (replace.1 = Done ()
         ∧ add = (Raise (ResourceAlreadyExists (type_name type)), resources))
  | None =>
      add = (Raise (ConstructorThrew (type_name type)), resources)
      ∧ ((JS.get type resources = None
          ∧ replace = (Raise (ResourceToReplaceNotFound (type_name type)), resources))
         ∨ (is_Some (JS.get type resources)
            ∧ replace = (Raise (ConstructorThrew (type_name type)),
                         map_delete type resources)
            ∧ getResource type replace.2 = Raise (ResourceNotFound (type_name type))))
  end.
Proof.
  intros type add replace. subst type add replace.
  destruct (instanceOf construct obj args) as [instance|] eqn:Hi;
    destruct (JS.get (typeOf constructorOf obj) resources) as [o|] eqn:Hg.
  - right. split; [|apply (addResource_present _ _ instance); [done | by eexists]].
    rewrite replaceResource_present by (rewrite Hg; by eexists).
    by rewrite (addResource_absent _ _ instance) by (done || apply get_delete_eq).
  - left. split; [|by apply replaceResource_absent].
    by rewrite (addResource_absent _ _ instance).
  - split; [by apply addResource_throws|]. right.
    rewrite replaceResource_present by (rewrite Hg; by eexists).
    rewrite addResource_throws by done. cbn [snd].
    split_and!; [by eexists | done | apply getResource_deleted].
  - split; [by apply addResource_throws|]. left.
    split; [done | by apply replaceResource_absent].
Qed.

(** A missing resource is an error of [getResource], never an undefined
    value. *)
Lemma getResource_cases t (resources : JS.Map TTypeProto Object) :
  (JS.get t resources = None
   ∧ getResource t resources = Raise (ResourceNotFound (type_name t)))
  ∨ ∃ o, JS.get t resources = Some o ∧ getResource t resources = Done (Some o).
Proof.
  unfold getResource. destruct (JS.get t resources) as [o|] eqn:Hg.
  - right. exists o. split; [done|].
    assert (Hh : map_has t resources = true) by (apply map_has_true; by eexists).
    by rewrite Hh.
  - left. split; [done|]. apply map_has_false in Hg. by rewrite Hg.
Qed.
End ResourceFacts.

Lemma addResource_getResource_witness :
  let Clock := {| type_id := 0; type_name := "Clock" |} in
  let Score := {| type_id := 1; type_name := "Score" |} in
  let construct := λ t (args : list nat),
    if decide (t = Score) then None else Some (t, length args) in
  let resources := [(Score, (Score, 0))] in
  let resources' := [(Score, (Score, 0)); (Clock, (Clock, 2))] in
  getResource Clock resources' = Done (Some (Clock, 2))
  ∧ getResource Score resources' = getResource Score resources
  ∧ addResource fst construct (AnObject (Clock, 5)) [] resources'
    = (Raise (ResourceAlreadyExists "Clock"), resources').
Proof.
  intros Clock Score construct resources resources'.
  destruct (addResource_getResource fst construct
              (AClass Clock) [7; 8] resources resources' eq_refl)
    as ((instance & Hi & Hget) & Hother & Hagain).
  injection Hi as <-.
  destruct (Hagain (AnObject (Clock, 5)) [] eq_refl) as (e & Hadd & He & _).
  rewrite He in Hadd by (by eexists).
  split_and!; [exact Hget | apply Hother; by_computation | exact Hadd].
Defined.

Lemma replaceResource_getResource_witness :
  let Clock := {| type_id := 0; type_name := "Clock" |} in
  let Score := {| type_id := 1; type_name := "Score" |} in
  let resources := [(Clock, (Clock, 2)); (Score, (Score, 0))] in
  let resources' := [(Score, (Score, 0)); (Clock, (Clock, 9))] in
  getResource Clock resources' = Done (Some (Clock, 9))
  ∧ getResource Score resources' = getResource Score resources.
Proof.
  intros Clock Score resources resources'.
  destruct (replaceResource_getResource fst (λ t (args : list nat), Some (t, length args))
              (AnObject (Clock, 9)) [] resources resources' eq_refl)
    as (_ & (instance & Hi & Hget) & Hother).
  injection Hi as <-.
  split; [exact Hget | apply Hother; by_computation].
Defined.

(** ** Entities *)

Section EntityFacts.
Context {Store : Type} `{EntityStore Store}.

Lemma addEntity_entities entity w (st : Store) :
  entities (addEntity entity (w, st)).1
  = if decide (entity ∈ entities w) then entities w else entities w ++ [entity].
Proof.
  unfold addEntity, JS.includes. destruct (decide (entity ∈ entities w)).
  - by rewrite bool_decide_eq_true_2.
  - by rewrite bool_decide_eq_false_2.
Qed.

(** Adding a batch of entities to a world whose list holds no entity twice:
    the list still holds none twice, it holds what it held and what was
    added (an entity given several times once), and it starts with the old
    list. *)
Theorem addEntity_batch es w (st : Store) :
  NoDup (entities w) →
  let w' := (addEntities es (w, st)).1 in
  NoDup (entities w')
  ∧ (∀ e, e ∈ entities w' ↔ e ∈ entities w ∨ e ∈ es)
  ∧ entities w `prefix_of` entities w'.
Proof.
  unfold addEntities.
  revert w st. induction es as [|e es IH]; intros w st Hnd; cbn [foldl].
  - split_and!; [done | | done].
    intros e. rewrite elem_of_nil. tauto.
  - destruct (addEntity e (w, st)) as [w1 st1] eqn:Hadd.
    assert (He : entities w1
                 = if decide (e ∈ entities w) then entities w else entities w ++ [e]).
    { rewrite <- (addEntity_entities e w st). by rewrite Hadd. }
    assert (Hnd1 : NoDup (entities w1)).
    { rewrite He. destruct (decide (e ∈ entities w)); [done|].
      apply NoDup_app. split_and!; [done | | apply NoDup_singleton].
      intros x Hx ->%list_elem_of_singleton. done. }
    destruct (IH w1 st1 Hnd1) as (Hn & Hiff & Hpre).
    split_and!; [done | |].
    + intros x. rewrite Hiff, He, elem_of_cons.
      destruct (decide (e ∈ entities w)) as [Hin|Hin].
      * split; [tauto|]. intros [? | [-> | ?]]; tauto.
      * rewrite elem_of_app, list_elem_of_singleton. tauto.
    + etrans; [|exact Hpre]. rewrite He.
      destruct (decide (e ∈ entities w)); [done | by apply prefix_app_r].
Qed.

(** [build] returns the builder's entity and leaves it in the world; building
    again changes nothing. *)
Theorem build_once (b : EntityBuilder) (s : World * Store) :
  (build b s).1 = builder_entity b
  ∧ builder_entity b ∈ entities (build b s).2.1
  ∧ build b (build b s).2 = build b s.
Proof.
  destruct s as [w st]. unfold build. cbn [fst snd].
  assert (Hin : builder_entity b ∈ entities (addEntity (builder_entity b) (w, st)).1).
  { rewrite addEntity_entities. destruct (decide (builder_entity b ∈ entities w)).
    - done.
    - apply elem_of_app. right. by apply list_elem_of_singleton. }
  split; [reflexivity|]. split; [exact Hin|]. f_equal.
  destruct (addEntity (builder_entity b) (w, st)) as [w1 st1].
  cbn [fst] in Hin. unfold addEntity, JS.includes.
  by rewrite bool_decide_eq_true_2.
Qed.

(** [createEntity] returns the entity it put at the end of the list; for an
    entity not yet in the world this is the world [addEntity] makes, and
    adding the entity afterwards changes nothing. *)
Theorem createEntity_added (entity : IEntity) w (st : Store) :
  (createEntity entity w).1 = entity
  ∧ last (entities (createEntity entity w).2) = Some entity
  ∧ addEntity entity ((createEntity entity w).2, st) = ((createEntity entity w).2, st)
  ∧ (entity ∉ entities w → (addEntity entity (w, st)).1 = (createEntity entity w).2).
Proof.
  unfold createEntity. simpl. split_and!.
  - done.
  - apply last_snoc.
  - unfold addEntity, JS.includes. simpl.
    rewrite bool_decide_eq_true_2; [done|].
    apply elem_of_app. right. by apply list_elem_of_singleton.
  - intros Hnot. unfold addEntity, JS.includes.
    by rewrite bool_decide_eq_false_2.
Qed.
End EntityFacts.

Lemma addEntity_batch_witness :
  let st : Components := λ _, ∅ in
  let w := set_entities new_World [4; 7] in
  entities (addEntities [7; 9; 9; 4; 1] (w, st)).1 = [4; 7; 9; 1]
  ∧ NoDup (entities (addEntities [7; 9; 9; 4; 1] (w, st)).1).
Proof.
  intros st w. split; [reflexivity|].
  refine (proj1 (addEntity_batch [7; 9; 9; 4; 1] w st _)).
  by_computation.
Defined.

(** ** Queries *)

Section QueryComposition.
Context {Req : Type} (UNSET : Req) `{EqDecision Req}.
Context {Store : Type} `{EntityStore Store}.

(** A query of two parts is the second part asked of the result of the
    first, in either order; the query without a pair returns every
    entity. *)
Theorem getEntities_compose (st : Store) w (q1 q2 : TComponentQuery) :
  getEntities UNSET st w (Some (q1 ++ q2))
  = getEntities UNSET st (set_entities w (getEntities UNSET st w (Some q1))) (Some q2)
  ∧ getEntities UNSET st w (Some (q1 ++ q2)) = getEntities UNSET st w (Some (q2 ++ q1))
  ∧ getEntities UNSET st w (Some []) = entities w.
Proof.
  split_and!.
  - rewrite (getEntities_filter UNSET st (set_entities w _)).
    rewrite (getEntities_filter UNSET st w (q1 ++ q2)).
    rewrite (getEntities_filter UNSET st w q1). cbn [entities set_entities].
    rewrite list_filter_filter. apply list_filter_iff.
    intros e. unfold matches. rewrite Forall_app. tauto.
  - rewrite (getEntities_filter UNSET st w (q1 ++ q2)).
    rewrite (getEntities_filter UNSET st w (q2 ++ q1)).
    apply list_filter_iff. intros e. unfold matches. rewrite !Forall_app. tauto.
  - unfold getEntities. rewrite entityLoop_filter. cbn [app].
    induction (entities w) as [|e es IH]; [done|].
    rewrite filter_cons_True by constructor. by rewrite IH.
Qed.

(** Only the set of pairs of a query counts: two queries with the same
    pairs, in whatever order and however often, return the same list. *)
Theorem getEntities_same_pairs (st : Store) w (q q' : TComponentQuery) :
  (∀ p, p ∈ q ↔ p ∈ q') →
  getEntities UNSET st w (Some q) = getEntities UNSET st w (Some q').
Proof.
  intros Hsame. rewrite !getEntities_filter. apply list_filter_iff.
  intros e. unfold matches. rewrite !Forall_forall.
  split; intros Hall p Hp; apply Hall; by apply Hsame.
Qed.

(** A query that asks for a component both to be missing and to be there
    returns no entity. *)
Theorem getEntities_contradictory (st : Store) w (q : TComponentQuery) c r :
  (c, UNSET) ∈ q → (c, r) ∈ q → r ≠ UNSET →
  getEntities UNSET st w (Some q) = [].
Proof.
  intros Hu Hr Hne. rewrite getEntities_filter.
  induction (entities w) as [|e es IH]; [done|].
  rewrite filter_cons_False; [done|].
  unfold matches. rewrite Forall_forall. intros Hall.
  pose proof (Hall _ Hu) as H1. pose proof (Hall _ Hr) as H2.
  unfold satisfies in H1, H2. simpl in H1, H2.
  rewrite decide_True in H1 by done. rewrite decide_False in H2 by done.
  congruence.
Qed.
End QueryComposition.

Lemma getEntities_same_pairs_witness :
  let st : Components := λ e, if decide (e = 0) then {[ 7 ]} else ∅ in
  let w := set_entities new_World [0; 1] in
  getEntities Absent st w (Some [(7, Present); (8, Absent); (7, Present)])
  = getEntities Absent st w (Some [(8, Absent); (7, Present)]).
Proof.
  intros st w. apply getEntities_same_pairs.
  intros p. rewrite !elem_of_cons, !elem_of_nil. tauto.
Defined.

Lemma getEntities_contradictory_witness :
  let st : Components := λ e, if decide (e = 0) then {[ 7 ]} else ∅ in
  let w := set_entities new_World [0; 1] in
  getEntities Absent st w (Some [(7, Present); (7, Absent)]) = [].
Proof.
  intros st w. apply (getEntities_contradictory Absent st w _ 7 Present).
  - by_computation.
  - by_computation.
  - done.
Defined.

(** ** The builder *)

Section SetFacts.
Context {A : Type} `{EqDecision A}.

Lemma set_adds_elem (l s : list A) x :
  x ∈ foldl set_add s l ↔ x ∈ s ∨ x ∈ l.
Proof.
  revert s. induction l as [|y l IH]; intros s; cbn [foldl].
  - rewrite elem_of_nil. tauto.
  - rewrite IH, elem_of_cons. unfold set_add. destruct (decide (y ∈ s)).
    + split; [tauto|]. intros [? | [-> | ?]]; tauto.
    + rewrite elem_of_app, list_elem_of_singleton. tauto.
Qed.

Lemma set_adds_NoDup (l s : list A) : NoDup s → NoDup (foldl set_add s l).
Proof.
  revert s. induction l as [|y l IH]; intros s Hs; cbn [foldl]; [done|].
  apply IH. unfold set_add. destruct (decide (y ∈ s)); [done|].
  apply NoDup_app. split_and!; [done | | apply NoDup_singleton].
  intros x Hx ->%list_elem_of_singleton. done.
Qed.

Lemma set_adds_prefix (l s : list A) : s `prefix_of` foldl set_add s l.
Proof.
  revert s. induction l as [|y l IH]; intros s; cbn [foldl]; [done|].
  etrans; [|apply IH]. unfold set_add.
  destruct (decide (y ∈ s)); [done | by apply prefix_app_r].
Qed.

Lemma set_adds_NoDup_id (l s : list A) :
  NoDup (s ++ l) → foldl set_add s l = s ++ l.
Proof.
  revert s. induction l as [|y l IH]; intros s Hnd; cbn [foldl].
  - by rewrite app_nil_r.
  - assert (Hy : y ∉ s).
    { apply NoDup_app in Hnd as (_ & Hdisj & _). intros Hin.
      apply (Hdisj y Hin). by left. }
    unfold set_add. rewrite decide_False by done.
    rewrite IH by (by rewrite <- app_assoc). by rewrite <- app_assoc.
Qed.

Lemma new_Set_NoDup (l : list A) : NoDup (new_Set l).
Proof. apply set_adds_NoDup. constructor. Qed.

Lemma new_Set_elem (l : list A) x : x ∈ new_Set l ↔ x ∈ l.
Proof. unfold new_Set. rewrite set_adds_elem, elem_of_nil. tauto. Qed.

Lemma new_Set_first (pre post : list A) d :
  d ∉ pre →
  ∃ spre spost, new_Set (pre ++ d :: post) = spre ++ d :: spost
                ∧ ∀ x, x ∈ spre ↔ x ∈ pre.
Proof.
  intros Hd. unfold new_Set. rewrite foldl_app. cbn [foldl].
  fold (new_Set pre). unfold set_add at 2.
  rewrite decide_False by (by rewrite new_Set_elem).
  destruct (set_adds_prefix post (new_Set pre ++ [d])) as [spost ->].
  exists (new_Set pre), spost. split; [by rewrite <- app_assoc|].
  intros x. apply new_Set_elem.
Qed.
End SetFacts.

Lemma builder_classes_app (m : JS.Map ISystem TSystemInfo) sys info :
  builder_classes {| systemInfos := m ++ [(sys, info)] |}
  = builder_classes {| systemInfos := m |} ++ [constructor (info_system info)].
Proof.
  unfold builder_classes, JS.values. cbn [systemInfos].
  by rewrite !fmap_app.
Qed.

(** [withSystem] takes a system whose class the builder does not hold yet:
    the entry goes to the end of the map, under the system itself, with an
    empty data set and with each declared dependency once, where the
    declaration has it first (a declaration without repetition is stored
    as it is); the builder stays well formed, and from then on every system
    of that class is refused. *)
Theorem withSystem_fresh (sys : ISystem) (deps : option (list TSystemProto))
    (b : WorldBuilder) :
  builder_ok b → constructor sys ∉ builder_classes b →
  ∃ info,
    let b' := {| systemInfos := systemInfos b ++ [(sys, info)] |} in
    withSystem sys deps b = (Ok (), b')
    ∧ info_system info = sys
    ∧ info_dataSet info = []
    ∧ NoDup (info_dependencies info)
    ∧ (∀ d, d ∈ info_dependencies info ↔ d ∈ default [] deps)
    ∧ (∀ pre d post, default [] deps = pre ++ d :: post → d ∉ pre →
         ∃ spre spost, info_dependencies info = spre ++ d :: spost
                       ∧ ∀ x, x ∈ spre ↔ x ∈ pre)
    ∧ (NoDup (default [] deps) → info_dependencies info = default [] deps)
    ∧ builder_ok b'
    ∧ ∀ sys' deps', constructor sys' = constructor sys →
        withSystem sys' deps' b'
        = (Throw (SystemAlreadyRegistered (name (constructor sys))), b').
Proof.
  intros [Hown Hnd] Hfresh.
  set (info := {| info_dataSet := [];
                  info_dependencies := new_Set (default [] deps);
                  info_system := sys |}).
  exists info. intros b'.
  assert (Hfind : JS.find (λ i, bool_decide (constructor (info_system i)
                                             = constructor sys))
                          (JS.values (systemInfos b)) = None).
  { unfold JS.find. destruct (List.find _ _) as [obj|] eqn:Hf; [|done].
    apply find_some in Hf as [Hin Hb%bool_decide_eq_true_1].
    destruct Hfresh. unfold builder_classes. apply list_elem_of_fmap.
    exists obj. split; [done | by apply list_elem_of_In]. }
  assert (Hkey : sys ∉ (systemInfos b).*1).
  { intros ([k i] & Hk & Hin)%list_elem_of_fmap. simpl in Hk. subst k.
    rewrite Forall_forall in Hown. specialize (Hown _ Hin). simpl in Hown.
    destruct Hfresh. unfold builder_classes, JS.values.
    apply list_elem_of_fmap. exists i. split; [simpl; by rewrite Hown|].
    apply list_elem_of_fmap. by exists (sys, i). }
  assert (Hok : builder_ok b').
  { split.
    - subst b'. cbn [systemInfos]. apply Forall_app. split; [done|].
      by repeat constructor.
    - subst b'. rewrite builder_classes_app. apply NoDup_app.
      split_and!; [by destruct b | | apply NoDup_singleton].
      intros x Hx ->%list_elem_of_singleton. destruct Hfresh.
      by destruct b. }
  split_and!.
  - unfold withSystem. rewrite Hfind. subst b'. do 2 f_equal.
    by apply set_absent.
  - done.
  - done.
  - apply new_Set_NoDup.
  - intros d. apply new_Set_elem.
  - intros pre d post Heq Hd. cbn [info info_dependencies]. rewrite Heq.
    by apply new_Set_first.
  - intros Hdeps. apply (set_adds_NoDup_id _ []). done.
  - done.
  - intros sys' deps' Heq. rewrite <- Heq. apply withSystem_duplicate.
    subst b'. fold (builder_classes {| systemInfos := systemInfos b ++ [(sys, info)] |}).
    rewrite builder_classes_app, Heq. apply elem_of_app. right.
    by apply list_elem_of_singleton.
Qed.

Lemma withSystem_fresh_witness :
  ∃ info,
    withSystem b (Some [X; A; X]) {| systemInfos := [(a, {| info_dataSet := [];
                                                              info_dependencies := [];
                                                              info_system := a |})] |}
    = (Ok (), {| systemInfos := [(a, {| info_dataSet := [];
                                        info_dependencies := [];
                                        info_system := a |}); (b, info)] |})
    ∧ info_dataSet info = []
    ∧ info_dependencies info = [X; A].
Proof.
  destruct (withSystem_fresh b (Some [X; A; X])
              {| systemInfos := [(a, {| info_dataSet := [];
                                        info_dependencies := [];
                                        info_system := a |})] |})
    as (info & Hw & _ & Hdata & _ & _ & Hfirst & _).
  - split; [by repeat constructor | by_computation].
  - by_computation.
  - exists info. split_and!; [exact Hw | exact Hdata |].
    injection Hw as <-. reflexivity.
Defined.

(** ** The groups by dependency *)

Lemma depStep_groups sys closed group :
  depStep (open_groups closed group) sys
  = Ok (if hasDependencies sys
        then open_groups ((if decide (0 < length group)
                           then closed ++ [group] else closed)
                          ++ [[run_system sys]]) []
        else open_groups closed (group ++ [run_system sys])).
Proof.
  assert (Hlast : ∀ (gs : list (list ISystem)) g,
            ((Some <$> gs) ++ [Some g]) !! length gs = Some (Some g)).
  { intros gs g. rewrite <- (length_fmap Some gs). by apply list_lookup_middle. }
  assert (Hpush : ∀ (gs : list (list ISystem)) g x,
            pushAt (length gs) x ((Some <$> gs) ++ [Some g])
            = Ok ((Some <$> gs) ++ [Some (g ++ [x])])).
  { intros gs g x. unfold pushAt. rewrite Hlast. f_equal.
    rewrite <- (length_fmap Some gs) at 1.
    rewrite insert_app_r_alt by done. by rewrite Nat.sub_diag. }
  assert (Hassign : ∀ (gs : list (list ISystem)) g,
            assign (length gs + 1) [] ((Some <$> gs) ++ [Some g])
            = (Some <$> (gs ++ [g])) ++ [Some []]).
  { intros gs g. unfold assign. rewrite length_app, length_fmap. simpl.
    rewrite decide_False by lia. rewrite Nat.sub_diag. simpl.
    by rewrite fmap_app. }
  assert (Hlen : ∀ (gs : list (list ISystem)) g, length gs + 1 = length (gs ++ [g])).
  { intros. rewrite length_app. simpl. lia. }
  unfold depStep, open_groups. destruct (hasDependencies sys).
  - rewrite Hlast. destruct (decide (0 < length group)).
    + rewrite Hassign, (Hlen closed group), Hpush, Hassign.
      by rewrite (Hlen _ ([] ++ [run_system sys])).
    + assert (group = []) as -> by (destruct group; [done | simpl in *; lia]).
      rewrite Hpush, Hassign. by rewrite (Hlen _ ([] ++ [run_system sys])).
  - by rewrite Hpush.
Qed.

Lemma depLoop_groups rs closed group :
  ∃ closed' group',
    depLoop (open_groups closed group) rs = Ok (open_groups closed' group')
    ∧ concat closed' ++ group' = concat closed ++ group ++ (run_system <$> rs)
    ∧ closed `prefix_of` closed'.
Proof.
  revert closed group. induction rs as [|sys rs IH]; intros closed group.
  - exists closed, group. split_and!; [done | | done].
    simpl. by rewrite app_nil_r.
  - cbn [depLoop]. rewrite depStep_groups. rewrite fmap_cons.
    destruct (hasDependencies sys).
    + destruct (IH ((if decide (0 < length group)
                     then closed ++ [group] else closed) ++ [[run_system sys]]) [])
        as (closed' & group' & Hloop & Hcat & Hpre).
      exists closed', group'. split_and!; [done | |].
      * rewrite Hcat, concat_app. simpl.
        destruct (decide (0 < length group)).
        -- rewrite concat_app. simpl. by rewrite ?app_nil_r, <- ?app_assoc.
        -- assert (group = []) as -> by (destruct group; [done | simpl in *; lia]).
           simpl. by rewrite ?app_nil_r, <- ?app_assoc.
      * etrans; [|exact Hpre]. destruct (decide (0 < length group)).
        -- rewrite <- app_assoc. by apply prefix_app_r.
        -- by apply prefix_app_r.
    + destruct (IH closed (group ++ [run_system sys]))
        as (closed' & group' & Hloop & Hcat & Hpre).
      exists closed', group'. split_and!; [done | | done].
      rewrite Hcat. by rewrite <- !app_assoc.
Qed.

Lemma depLoop_app acc rs1 rs2 :
  depLoop acc (rs1 ++ rs2)
  = match depLoop acc rs1 with
    | Throw e => Throw e
    | Ok acc' => depLoop acc' rs2
    end.
Proof.
  revert acc. induction rs1 as [|sys rs1 IH]; intros acc; [done|].
  cbn [app depLoop]. destruct (depStep acc sys); [apply IH | done].
Qed.

Lemma open_groups_inj closed group closed' group' :
  open_groups closed group = open_groups closed' group' →
  closed = closed' ∧ group = group'.
Proof.
  unfold open_groups. intros [= Heq _].
  apply app_inj_tail in Heq as [Hc [= Hg]].
  split; [|done]. by apply (inj (fmap Some)) in Hc.
Qed.

(** The first loop of [getScheduledRunSystems] never throws and leaves no
    hole: its groups, one after the other, are the run systems in their
    order, and every run system with dependencies is a group of its own,
    with the systems before it in the groups before and those after it in
    the groups after. *)
Theorem depScheduler_groups w :
  ∃ groups,
    depScheduler w = Ok (Some <$> groups)
    ∧ concat groups = run_system <$> runSystems w
    ∧ ∀ rs1 r rs2,
        runSystems w = rs1 ++ r :: rs2 → hasDependencies r = true →
        ∃ gs1 gs2,
          groups = gs1 ++ [run_system r] :: gs2
          ∧ concat gs1 = run_system <$> rs1
          ∧ concat gs2 = run_system <$> rs2.
Proof.
  destruct (depLoop_groups (runSystems w) [] []) as (closed & group & Hloop & Hcat & _).
  exists (closed ++ [group]). split_and!.
  - unfold depScheduler. change ([Some []], 0) with (open_groups [] []).
    rewrite Hloop. unfold open_groups. by rewrite fmap_app.
  - rewrite concat_app. simpl. by rewrite app_nil_r, Hcat.
  - intros rs1 r rs2 Hsplit Hdep. rewrite Hsplit, depLoop_app in Hloop.
    destruct (depLoop_groups rs1 [] []) as (cA & gA & HloopA & HcatA & _).
    rewrite HloopA in Hloop. cbn [depLoop] in Hloop.
    rewrite depStep_groups, Hdep in Hloop.
    set (cB := if decide (0 < length gA) then cA ++ [gA] else cA) in Hloop.
    assert (HcatB : concat cB = run_system <$> rs1).
    { subst cB. simpl in HcatA. destruct (decide (0 < length gA)).
      - rewrite concat_app. simpl. by rewrite app_nil_r.
      - assert (gA = []) as -> by (destruct gA; [done | simpl in *; lia]).
        by rewrite app_nil_r in HcatA. }
    destruct (depLoop_groups rs2 (cB ++ [[run_system r]]) [])
      as (cC & gC & HloopC & HcatC & [more ->]).
    rewrite HloopC in Hloop.
    assert (Heq : open_groups ((cB ++ [[run_system r]]) ++ more) gC
                  = open_groups closed group) by congruence.
    apply open_groups_inj in Heq as [<- <-].
    exists cB, (more ++ [gC]). split_and!.
    + by rewrite <- !app_assoc.
    + done.
    + rewrite concat_app. simpl. rewrite app_nil_r.
      rewrite !concat_app in HcatC. simpl in HcatC.
      rewrite ?app_nil_r, <- ?app_assoc in HcatC.
      by do 2 apply app_inv_head in HcatC.
Qed.

(** ** The sorter, on an example *)

Lemma sortSystems_sound_witness :
  [node b []; node c []; node a [B]] ≡ₚ [node a [B]; node b []; node c []]
  ∧ after_dependencies [node b []; node c []; node a [B]].
Proof.
  apply (sortSystems_sound [node a [B]; node b []; node c []]).
  - by_computation.
  - reflexivity.
Defined.

(** ** Maintaining *)

(** [maintain] in a world with sortable declarations succeeds: it leaves the
    same nodes in [sortedSystems], every system after its dependencies,
    has every entity update its systems, changes nothing else, and a second
    [maintain] keeps the order of the first. *)
Theorem maintain_valid {Store} `{EntityStore Store} (w : World) (st : Store) :
  well_formed (sortedSystems w) →
  ∃ sorted,
    let w' := set_sortedSystems w sorted in
    maintain (w, st)
    = Some (Ok (), (w', foldl (λ st entity, _updateSystems entity st) st (entities w)))
    ∧ sorted ≡ₚ sortedSystems w
    ∧ after_dependencies sorted
    ∧ well_formed sorted
    ∧ ∀ st', ∃ st'', maintain (w', st') = Some (Ok (), (w', st'')).
Proof.
  intros Hwf. destruct (sortSystems_succeeds _ Hwf) as [sorted Hs].
  destruct (sortSystems_Ok_sound _ _ (proj1 Hwf) Hs) as [Hperm Hafter].
  exists sorted. intros w'. split_and!.
  - unfold maintain. by rewrite Hs.
  - done.
  - done.
  - by apply (well_formed_Permutation (sortedSystems w)).
  - intros st'. eexists. unfold maintain. subst w'. cbn [sortedSystems set_sortedSystems].
    rewrite (sortSystems_again _ _ (proj1 Hwf) Hs). simpl. done.
Qed.

Lemma maintain_valid_witness :
  let st : Components := λ _, ∅ in
  ∃ sorted, maintain (tied, st) = Some (Ok (), (set_sortedSystems tied sorted, st))
            ∧ after_dependencies sorted.
Proof.
  intros st.
  destruct (maintain_valid (Store := Components) tied st) as (sorted & Hm & _ & Hafter & _).
  - split_and!.
    + by_computation.
    + apply declared_sets_Forall. by_computation.
    + apply (acyclic_by_rank (λ p, 3 - proto_id p)). by_computation.
  - exists sorted. split; [exact Hm | exact Hafter].
Defined.
